(** * Round-up savings API: rule evaluation, validation and returns projection

    A shallow embedding of [app.py] and the verification of its
    specification.  The program computes with Python's [decimal.Decimal]
    under the default context (28 significant digits, round-half-even,
    exponents between -999999 and 999999, the signals InvalidOperation,
    DivisionByZero and Overflow trapped), with [datetime] timestamps, with
    a [set] of date strings, and, in one place, with binary floating point.

    - [Decimal] values are pairs of an integer coefficient and an integer
      exponent; every arithmetic operation computes the exact result and
      then rounds it to the context ([_fix]), as the decimal arithmetic
      specification that the library implements prescribes.  An operation
      that raises is [None].  The sign of a zero is not tracked (Python
      compares [-0] and [0] equal), and the non-finite values are absent
      (the request models reject them).
    - A [datetime] is its position on the time line, an integer.
    - [datetime.strptime] and the floating-point operations are parameters
      of the development. *)

From Stdlib Require Import ZArith QArith Qpower Qround Lia Lqa List Bool Ascii.
From Stdlib Require Import Sorted.
From stdpp Require Import gmap strings.
Import ListNotations.

Local Open Scope Z_scope.
#[local] Set Warnings "-clear-no-such-hyp".

(** ** Python's [decimal.Decimal] under the default context *)

Module Decimal.

Record t : Type := mk { coeff : Z; exp : Z }.

Definition prec : Z := 28.
Definition Emax : Z := 999999.
Definition Emin : Z := -999999.
Definition Etiny : Z := Emin - (prec - 1).
Definition Etop : Z := Emax - (prec - 1).

(** [len(str(n))] for a natural number [n]. *)
Fixpoint ndigits_fuel (fuel : nat) (n : Z) : Z :=
  match fuel with
  | O => 1
  | S fuel' => if n <? 10 then 1 else 1 + ndigits_fuel fuel' (n / 10)
  end.

Definition ndigits (n : Z) : Z :=
  match n with
  | Zpos p => ndigits_fuel (Pos.size_nat p) n
  | _ => 1
  end.

(** [adjusted()]: the exponent of the most significant digit. *)
Definition adjusted (d : t) : Z := exp d + ndigits (Z.abs (coeff d)) - 1.

(** The two rounding modes the program uses, on a magnitude [n] whose
    last [k] digits are dropped. *)
Inductive rounding : Type := ROUND_HALF_EVEN | ROUND_HALF_UP.

Definition round_div (r : rounding) (n k : Z) : Z :=
  let p := 10 ^ k in
  let q := n / p in
  let m := n mod p in
  match r with
  | ROUND_HALF_UP => if p <=? 2 * m then q + 1 else q
  | ROUND_HALF_EVEN =>
      if (p <? 2 * m) || ((p =? 2 * m) && Z.odd q) then q + 1 else q
  end.

(** [_rescale]: the same value at exponent [e], padded with zeros or
    rounded. *)
Definition _rescale (d : t) (e : Z) (r : rounding) : t :=
  if coeff d =? 0 then mk 0 e
  else if e <=? exp d then mk (coeff d * 10 ^ (exp d - e)) e
  else mk (Z.sgn (coeff d) * round_div r (Z.abs (coeff d)) (e - exp d)) e.

(** [_fix]: round to the context precision; Overflow is trapped. *)
Definition _fix (d : t) : option t :=
  if coeff d =? 0 then Some (mk 0 (Z.min (Z.max (exp d) Etiny) Emax))
  else
    let exp_min := ndigits (Z.abs (coeff d)) + exp d - prec in
    if Etop <? exp_min then None
    else
      let exp_min := Z.max exp_min Etiny in
      if exp d <? exp_min then
        let c := round_div ROUND_HALF_EVEN (Z.abs (coeff d)) (exp_min - exp d) in
        let '(c, exp_min) :=
          if 10 ^ prec <=? c then (c / 10, exp_min + 1) else (c, exp_min) in
        if Etop <? exp_min then None
        else Some (mk (Z.sgn (coeff d) * c) exp_min)
      else Some d.

(** The coefficients of two numbers at their common (smaller) exponent. *)
Definition align (a b : t) : Z * Z * Z :=
  let e := Z.min (exp a) (exp b) in
  (coeff a * 10 ^ (exp a - e), coeff b * 10 ^ (exp b - e), e).

Definition neg (a : t) : t := mk (- coeff a) (exp a).

(** The exact sum, difference and product, before rounding. *)
Definition add_exact (a b : t) : t :=
  let '(ca, cb, e) := align a b in mk (ca + cb) e.
Definition sub_exact (a b : t) : t := add_exact a (neg b).
Definition mul_exact (a b : t) : t :=
  mk (coeff a * coeff b) (exp a + exp b).

Definition add (a b : t) : option t := _fix (add_exact a b).
Definition sub (a b : t) : option t := add a (neg b).
Definition mul (a b : t) : option t := _fix (mul_exact a b).

(** [a % b]: the remainder takes the sign of [a]; the integer quotient
    has to fit the precision. *)
Definition rem_exact (a b : t) : t :=
  let '(ca, cb, e) := align a b in mk (Z.rem ca cb) e.

Definition rem (a b : t) : option t :=
  if coeff b =? 0 then None
  else
    let '(ca, cb, _) := align a b in
    if 10 ^ prec <=? Z.abs ca / Z.abs cb then None
    else _fix (rem_exact a b).

(** [quantize(Decimal(1E[e]), rounding=r)]. *)
Definition quantize (d : t) (e : Z) (r : rounding) : option t :=
  if negb ((Etiny <=? e) && (e <=? Emax)) then None
  else if coeff d =? 0 then _fix (mk 0 e)
  else if Emax <? adjusted d then None
  else if prec <? adjusted d - e + 1 then None
  else
    let ans := _rescale d e r in
    if Emax <? adjusted ans then None
    else if prec <? ndigits (Z.abs (coeff ans)) then None
    else _fix ans.

(** Comparisons are exact. *)
Definition ltb (a b : t) : bool :=
  let '(ca, cb, _) := align a b in ca <? cb.
Definition leb (a b : t) : bool :=
  let '(ca, cb, _) := align a b in ca <=? cb.
Definition eqb (a b : t) : bool :=
  let '(ca, cb, _) := align a b in ca =? cb.

(** The rational number a decimal stands for. *)
Definition value (d : t) : Q := inject_Z (coeff d) * (10 # 1) ^ exp d.

(** Literals: [dec c k] is the decimal written with coefficient [c] and
    [k] fraction digits. *)
Definition dec (c k : Z) : t := mk c (- k).
Definition of_Z (n : Z) : t := mk n 0.

End Decimal.

Abbreviation Decimal := Decimal.t.

(** ** The program *)

(** *** Models *)

Record TransactionInput : Type := { i_date : string; i_amount : Decimal }.

Record EnrichedTransaction : Type := {
  e_date : string;
  e_amount : Decimal;
  e_ceiling : Decimal;
  e_remanent : Decimal
}.

Record TransactionOutput : Type := {
  date : string;
  amount : Decimal;
  ceiling : Decimal;
  remanent : Decimal;
  inkPeriod : option bool;
  message : option string
}.

Record PeriodQ : Type := { q_fixed : Decimal; q_start : string; q_end : string }.
Record PeriodP : Type := { p_extra : Decimal; p_start : string; p_end : string }.
Record PeriodK : Type := { k_start : string; k_end : string }.

Record ValidatorResponse : Type := {
  valid : list TransactionOutput;
  invalid : list TransactionOutput
}.

Record ReturnsRequest : Type := {
  age : Z;
  wage : Decimal;
  inflation : Decimal;
  q : list PeriodQ;
  p : list PeriodP;
  k : list PeriodK;
  transactions : list TransactionOutput
}.

Record SavingsByDate : Type := {
  s_start : string;
  s_end : string;
  s_amount : Decimal;
  profit : option Decimal;
  taxBenefit : option Decimal
}.

Record ReturnsResponse : Type := {
  totalTransactionAmount : Decimal;
  totalCeiling : Decimal;
  savingsByDates : list SavingsByDate
}.

(** Assignment to one attribute of a transaction. *)
Definition set_message (m : string) (tx : TransactionOutput) : TransactionOutput :=
  {| date := date tx; amount := amount tx; ceiling := ceiling tx;
     remanent := remanent tx; inkPeriod := inkPeriod tx; message := Some m |}.

Definition set_remanent (r : Decimal) (tx : TransactionOutput) : TransactionOutput :=
  {| date := date tx; amount := amount tx; ceiling := ceiling tx;
     remanent := r; inkPeriod := inkPeriod tx; message := message tx |}.

Definition set_inkPeriod (b : bool) (tx : TransactionOutput) : TransactionOutput :=
  {| date := date tx; amount := amount tx; ceiling := ceiling tx;
     remanent := remanent tx; inkPeriod := Some b; message := message tx |}.

(** *** The tax table *)

Definition THRESHOLDS : list Decimal :=
  [Decimal.of_Z 700000; Decimal.of_Z 1000000; Decimal.of_Z 1200000;
   Decimal.of_Z 1500000].

Definition PREV_THRESHOLDS : list Decimal :=
  [Decimal.of_Z 0; Decimal.of_Z 700000; Decimal.of_Z 1000000;
   Decimal.of_Z 1200000; Decimal.of_Z 1500000].

Definition BASE_TAX : list Decimal :=
  [Decimal.of_Z 0; Decimal.of_Z 0; Decimal.of_Z 30000; Decimal.of_Z 60000;
   Decimal.of_Z 120000].

Definition RATES : list Decimal :=
  [Decimal.dec 0 1; Decimal.dec 10 2; Decimal.dec 15 2; Decimal.dec 20 2;
   Decimal.dec 30 2].

(** [bisect.bisect_right(a, x)]: the loop runs while [lo < hi]; [hi - lo]
    iterations are enough, since every iteration shrinks the range. *)
Fixpoint bisect_loop (fuel : nat) (a : list Decimal) (x : Decimal)
    (lo hi : nat) : option nat :=
  if (lo <? hi)%nat then
    match fuel with
    | O => None
    | S fuel' =>
        let mid := ((lo + hi) / 2)%nat in
        a_mid ← a !! mid;
        if Decimal.ltb x a_mid then bisect_loop fuel' a x lo mid
        else bisect_loop fuel' a x (S mid) hi
    end
  else Some lo.

Definition bisect_right (a : list Decimal) (x : Decimal) : option nat :=
  bisect_loop (length a) a x 0%nat (length a).

Definition TWO_PLACES : Z := -2.

Definition calculate_tax (yearly_income : Decimal) : option Decimal :=
  idx ← bisect_right THRESHOLDS yearly_income;
  base ← BASE_TAX !! idx;
  prev ← PREV_THRESHOLDS !! idx;
  rate ← RATES !! idx;
  excess ← Decimal.sub yearly_income prev;
  marginal ← Decimal.mul excess rate;
  tax ← Decimal.add base marginal;
  Decimal.quantize tax TWO_PLACES Decimal.ROUND_HALF_UP.

Definition calculate_remanent (amount : Decimal) : option Decimal :=
  let hundred := Decimal.of_Z 100 in
  r ← Decimal.rem amount hundred;
  c ← Decimal.sub hundred r;
  remanent ← Decimal.rem c hundred;
  Decimal.quantize remanent TWO_PLACES Decimal.ROUND_HALF_UP.

(** *** Date-ranged rules *)

Abbreviation datetime := Z (only parsing).

(** [start <= t <= end] on timestamps. *)
Definition between (start t stop : datetime) : bool :=
  (start <=? t) && (t <=? stop).

(** A parsed Q rule is [(start, end, fixed, ordinal)], a candidate of the
    resolver is [(start, ordinal, fixed)]. *)
Definition parsed_q_rule : Type := datetime * datetime * Decimal * Z.
Definition parsed_p_rule : Type := datetime * datetime * Decimal.
Definition candidate : Type := datetime * Z * Decimal.

Definition cand_start (c : candidate) : datetime := fst (fst c).
Definition cand_idx (c : candidate) : Z := snd (fst c).
Definition cand_fixed (c : candidate) : Decimal := snd c.

(** The order of the sort keys [(x[0], x[1])]: tuples compare
    lexicographically. *)
Definition key_ltb (a b : candidate) : bool :=
  (cand_start a <? cand_start b)
  || ((cand_start a =? cand_start b) && (cand_idx a <? cand_idx b)).

(** [list.sort(key=..., reverse=True)] is a stable sort into descending
    key order: elements with equal keys keep their relative order.  A
    stable sort is determined by this, so insertion stands for it. *)
Fixpoint insert_desc (x : candidate) (l : list candidate) : list candidate :=
  match l with
  | [] => [x]
  | y :: l' => if key_ltb x y then y :: insert_desc x l' else x :: y :: l'
  end.

Fixpoint sort_desc (l : list candidate) : list candidate :=
  match l with
  | [] => []
  | x :: l' => insert_desc x (sort_desc l')
  end.

Definition applicable_qs (tx_date : datetime) (parsed_q : list parsed_q_rule)
    : list candidate :=
  flat_map (fun '(q_start, q_end, q_fixed, q_idx) =>
              if between q_start tx_date q_end
              then [(q_start, q_idx, q_fixed)] else [])
           parsed_q.

(** The first half of the resolver: the fixed override. *)
Definition apply_fixed (tx_date : datetime) (current_remanent : Decimal)
    (parsed_q : list parsed_q_rule) : Decimal :=
  match sort_desc (applicable_qs tx_date parsed_q) with
  | [] => current_remanent
  | winner :: _ => cand_fixed winner
  end.

(** The second half: the loop over the additive rules. *)
Fixpoint apply_extras (tx_date : datetime) (current_remanent : Decimal)
    (parsed_p : list parsed_p_rule) : option Decimal :=
  match parsed_p with
  | [] => Some current_remanent
  | (p_start, p_end, p_extra) :: rest =>
      if between p_start tx_date p_end then
        r ← Decimal.add current_remanent p_extra;
        apply_extras tx_date r rest
      else apply_extras tx_date current_remanent rest
  end.

Definition process_transaction_rules_fast (tx_date : datetime)
    (current_remanent : Decimal) (parsed_q : list parsed_q_rule)
    (parsed_p : list parsed_p_rule) : option Decimal :=
  apply_extras tx_date (apply_fixed tx_date current_remanent parsed_q) parsed_p.

(** *** The parse endpoint *)

(** The parse endpoint: every transaction gets its remanent and its
    ceiling [amount + remanent]. *)
Definition parse_transactions (transactions : list TransactionInput)
    : option (list EnrichedTransaction) :=
  mapM (fun tx =>
          remanent ← calculate_remanent (i_amount tx);
          ceiling ← Decimal.add (i_amount tx) remanent;
          Some {| e_date := i_date tx; e_amount := i_amount tx;
                  e_ceiling := ceiling; e_remanent := remanent |})
       transactions.

(** *** The validator endpoint *)

Definition NEGATIVE : string := "Negative amounts are not allowed".
Definition DUPLICATE : string := "Duplicate transaction".

Definition is_negative (tx : TransactionOutput) : bool :=
  Decimal.ltb (amount tx) (Decimal.of_Z 0).

(** The loop of [validate_transactions], on the remaining transactions and
    the two lists and the set built so far. *)
Fixpoint validate_loop (txs : list TransactionOutput)
    (valid invalid : list TransactionOutput) (seen_dates : gset string)
    : ValidatorResponse :=
  match txs with
  | [] => {| valid := valid; invalid := invalid |}
  | tx :: rest =>
      if is_negative tx then
        validate_loop rest valid (invalid ++ [set_message NEGATIVE tx]) seen_dates
      else if bool_decide (date tx ∈ seen_dates) then
        validate_loop rest valid (invalid ++ [set_message DUPLICATE tx]) seen_dates
      else
        validate_loop rest (valid ++ [tx]) invalid ({[date tx]} ∪ seen_dates)
  end.

Definition validate_transactions (transactions : list TransactionOutput)
    : ValidatorResponse :=
  validate_loop transactions [] [] ∅.

(** *** The endpoints that parse dates *)

Section Endpoints.

(** [parse_date]: [datetime.strptime] with the pattern
    [%Y-%m-%d %H:%M:%S]; a string that does not match raises. *)
Variable parse_date : string -> option datetime.

Definition parse_q (qs : list PeriodQ) : option (list parsed_q_rule) :=
  mapM (fun '(idx, q) =>
          q_start ← parse_date (q_start q);
          q_end ← parse_date (q_end q);
          Some (q_start, q_end, q_fixed q, Z.of_nat idx))
       (imap pair qs).

Definition parse_p (ps : list PeriodP) : option (list parsed_p_rule) :=
  mapM (fun p =>
          p_start ← parse_date (p_start p);
          p_end ← parse_date (p_end p);
          Some (p_start, p_end, p_extra p))
       ps.

Definition parse_k (ks : list PeriodK) : option (list (datetime * datetime)) :=
  mapM (fun k =>
          k_start ← parse_date (k_start k);
          k_end ← parse_date (k_end k);
          Some (k_start, k_end))
       ks.

(** The loop of [filter_transactions]. *)
Fixpoint filter_loop (parsed_q : list parsed_q_rule)
    (parsed_p : list parsed_p_rule) (parsed_k : list (datetime * datetime))
    (txs : list TransactionOutput) (valid invalid : list TransactionOutput)
    (seen_dates : gset string) : option ValidatorResponse :=
  match txs with
  | [] => Some {| valid := valid; invalid := invalid |}
  | tx :: rest =>
      if is_negative tx then
        filter_loop parsed_q parsed_p parsed_k rest valid
          (invalid ++ [set_message NEGATIVE tx]) seen_dates
      else if bool_decide (date tx ∈ seen_dates) then
        filter_loop parsed_q parsed_p parsed_k rest valid
          (invalid ++ [set_message DUPLICATE tx]) seen_dates
      else
        let seen_dates := {[date tx]} ∪ seen_dates in
        tx_dt ← parse_date (date tx);
        r ← process_transaction_rules_fast tx_dt (remanent tx) parsed_q parsed_p;
        let tx := set_remanent r tx in
        let tx :=
          set_inkPeriod
            (existsb (fun '(k_start, k_end) => between k_start tx_dt k_end)
                     parsed_k) tx in
        filter_loop parsed_q parsed_p parsed_k rest (valid ++ [tx]) invalid
          seen_dates
  end.

Definition filter_transactions (q : list PeriodQ) (p : list PeriodP)
    (k : list PeriodK) (transactions : list TransactionOutput)
    : option ValidatorResponse :=
  parsed_q ← parse_q q;
  parsed_p ← parse_p p;
  parsed_k ← parse_k k;
  filter_loop parsed_q parsed_p parsed_k transactions [] [] ∅.

(** **** Returns *)

(** Binary floating point: the type and the operations that
    [fast_compound_math] and its caller use.  [float_of_Decimal] is
    [float(d)], the double nearest to a decimal, which is also how a
    float literal is read; [fpow x n] is [x ** n] and [fdiv] is [/], which
    raise on overflow and on a zero divisor; [Decimal_of_str x] is
    [Decimal(str(x))], and a number that is not finite yields no
    response. *)
Variable float : Type.
Variable float_of_Decimal : Decimal -> float.
Variables fadd fmul : float -> float -> float.
Variable fdiv : float -> float -> option float.
Variable fpow : float -> Z -> option float.
Variable Decimal_of_str : float -> option Decimal.

Definition float_1_0 : float := float_of_Decimal (Decimal.dec 10 1).
Definition float_100_0 : float := float_of_Decimal (Decimal.dec 1000 1).

Definition fast_compound_math (period_amount rate inflation_rate : float)
    (years : Z) : option (float * float) :=
  growth ← fpow (fadd float_1_0 rate) years;
  let future_value := fmul period_amount growth in
  pct ← fdiv inflation_rate float_100_0;
  deflator ← fpow (fadd float_1_0 pct) years;
  real_value ← fdiv future_value deflator;
  Some (future_value, real_value).

(** [sum(gen, start)]: a left fold of [+]. *)
Fixpoint sum_from (start : Decimal) (l : list Decimal) : option Decimal :=
  match l with
  | [] => Some start
  | x :: l' => s ← Decimal.add start x; sum_from s l'
  end.

(** Python's [min] of three: the first of the smallest. *)
Definition min3 (a b c : Decimal) : Decimal :=
  let m := if Decimal.ltb b a then b else a in
  if Decimal.ltb c m then c else m.

(** The state of the first loop of [calculate_returns]. *)
Record accepted : Type := {
  valid_txs : list (datetime * Decimal);
  seen_dates : gset string;
  total_tx_amount : Decimal;
  total_ceiling : Decimal
}.

Fixpoint returns_loop (parsed_q : list parsed_q_rule)
    (parsed_p : list parsed_p_rule) (txs : list TransactionOutput)
    (st : accepted) : option accepted :=
  match txs with
  | [] => Some st
  | tx :: rest =>
      if Decimal.leb (Decimal.of_Z 0) (amount tx)
         && negb (bool_decide (date tx ∈ seen_dates st))
      then
        tx_dt ← parse_date (date tx);
        r ← process_transaction_rules_fast tx_dt (remanent tx) parsed_q parsed_p;
        a ← Decimal.add (total_tx_amount st) (amount tx);
        c ← Decimal.add (total_ceiling st) (ceiling tx);
        returns_loop parsed_q parsed_p rest
          {| valid_txs := valid_txs st ++ [(tx_dt, r)];
             seen_dates := {[date tx]} ∪ seen_dates st;
             total_tx_amount := a;
             total_ceiling := c |}
      else returns_loop parsed_q parsed_p rest st
  end.

Definition years_to_invest (age : Z) : Z := Z.max (60 - age) 5.

Definition period_amount_of (valid_txs : list (datetime * Decimal))
    (k_start_dt k_end_dt : datetime) : option Decimal :=
  sum_from (Decimal.dec 0 1)
    (flat_map (fun '(dt, rem) =>
                 if between k_start_dt dt k_end_dt then [rem] else [])
              valid_txs).

Definition tax_benefit (yearly_income period_amount : Decimal)
    : option Decimal :=
  tenth ← Decimal.mul (Decimal.dec 10 2) yearly_income;
  let deduction := min3 period_amount tenth (Decimal.dec 2000000 1) in
  base_tax ← calculate_tax yearly_income;
  reduced ← Decimal.sub yearly_income deduction;
  new_tax ← calculate_tax reduced;
  d ← Decimal.sub base_tax new_tax;
  Decimal.quantize d TWO_PLACES Decimal.ROUND_HALF_UP.

Definition compute_profit (period_amount : Decimal) (rate : float)
    (inf_rate_float : float) (years : Z) : option Decimal :=
  '(_, real_value) ←
    fast_compound_math (float_of_Decimal period_amount) rate inf_rate_float
      years;
  real ← Decimal_of_str real_value;
  d ← Decimal.sub real period_amount;
  Decimal.quantize d TWO_PLACES Decimal.ROUND_HALF_UP.

(** The body of the loop over the windows. *)
Definition savings_entry (valid_txs : list (datetime * Decimal))
    (yearly_income : Decimal) (years : Z) (inf_rate_float rate : float)
    (is_nps : bool) (pk : datetime * datetime * string * string)
    : option SavingsByDate :=
  let '(k_start_dt, k_end_dt, k_start_str, k_end_str) := pk in
  period_amount ← period_amount_of valid_txs k_start_dt k_end_dt;
  profit ← compute_profit period_amount rate inf_rate_float years;
  tax_benefit ←
    (if is_nps then tax_benefit yearly_income period_amount
     else Some (Decimal.dec 0 1));
  amount ← Decimal.quantize period_amount TWO_PLACES Decimal.ROUND_HALF_UP;
  Some {| s_start := k_start_str; s_end := k_end_str; s_amount := amount;
          profit := Some profit;
          taxBenefit := if is_nps then Some tax_benefit else None |}.

Definition parse_k_returns (ks : list PeriodK)
    : option (list (datetime * datetime * string * string)) :=
  mapM (fun k =>
          k_start_dt ← parse_date (k_start k);
          k_end_dt ← parse_date (k_end k);
          Some (k_start_dt, k_end_dt, k_start k, k_end k))
       ks.

Definition calculate_returns (payload : ReturnsRequest) (rate : float)
    (is_nps : bool) : option ReturnsResponse :=
  parsed_q ← parse_q (q payload);
  parsed_p ← parse_p (p payload);
  parsed_k ← parse_k_returns (k payload);
  st ← returns_loop parsed_q parsed_p (transactions payload)
         {| valid_txs := []; seen_dates := ∅;
            total_tx_amount := Decimal.dec 0 1;
            total_ceiling := Decimal.dec 0 1 |};
  yearly_income ← Decimal.mul (wage payload) (Decimal.of_Z 12);
  let years := years_to_invest (age payload) in
  let inf_rate_float := float_of_Decimal (inflation payload) in
  savings_by_dates ←
    mapM (savings_entry (valid_txs st) yearly_income years inf_rate_float
            rate is_nps)
         parsed_k;
  total ← Decimal.quantize (total_tx_amount st) TWO_PLACES Decimal.ROUND_HALF_UP;
  ceil ← Decimal.quantize (total_ceiling st) TWO_PLACES Decimal.ROUND_HALF_UP;
  Some {| totalTransactionAmount := total; totalCeiling := ceil;
          savingsByDates := savings_by_dates |}.

(** The two presets, with the rates [0.0711] and [0.1449]. *)
Definition returns_nps (payload : ReturnsRequest) : option ReturnsResponse :=
  calculate_returns payload (float_of_Decimal (Decimal.dec 711 4)) true.

Definition returns_index (payload : ReturnsRequest) : option ReturnsResponse :=
  calculate_returns payload (float_of_Decimal (Decimal.dec 1449 4)) false.

End Endpoints.

Arguments float_1_0 {float} float_of_Decimal.
Arguments float_100_0 {float} float_of_Decimal.
Arguments fast_compound_math {float} _ _ _ _ _ _ _ _ _.
Arguments compute_profit {float} _ _ _ _ _ _ _ _ _ _.
Arguments savings_entry {float} _ _ _ _ _ _ _ _ _ _ _ _ _.
Arguments calculate_returns _ {float} _ _ _ _ _ _ _ _ _.
Arguments returns_nps _ {float} _ _ _ _ _ _ _.
Arguments returns_index _ {float} _ _ _ _ _ _ _.

(** * Definitions for the specification and the proofs *)

(** ** The specification, on rational numbers *)

Module Spec.

Local Open Scope Q_scope.

(** Rounding half-up to two fraction digits: ties go away from zero. *)
Definition round2 (x : Q) : Q :=
  if Qle_bool 0 x then inject_Z (Qfloor (x * 100 + (1 # 2))) / 100
  else - (inject_Z (Qfloor (- x * 100 + (1 # 2))) / 100).

(** [x mod m] for a positive [m]. *)
Definition Qmod (x m : Q) : Q := x - m * inject_Z (Qfloor (x / m)).

(** [(100 - (amount mod 100)) mod 100], rounded. *)
Definition remanent (amount : Q) : Q :=
  round2 (Qmod (100 - Qmod amount 100) 100).

Definition thresholds : list Q := [700000; 1000000; 1200000; 1500000].

Definition previousThreshold : list Q :=
  [0; 700000; 1000000; 1200000; 1500000].

Definition baseTax : list Q := [0; 0; 30000; 60000; 120000].

Definition rate : list Q := [0; 10 # 100; 15 # 100; 20 # 100; 30 # 100].

(** The number of thresholds that are less than or equal to the income. *)
Definition bracket (income : Q) : nat :=
  length (List.filter (fun th => Qle_bool th income) thresholds).

(** The tax before rounding, and the tax. *)
Definition tax_unrounded (income : Q) : Q :=
  let idx := bracket income in
  nth idx baseTax 0
  + (income - nth idx previousThreshold 0) * nth idx rate 0.

Definition tax (income : Q) : Q := round2 (tax_unrounded income).

End Spec.

(** ** Rules, acceptance and responses *)

Definition rule_start (r : parsed_q_rule) : datetime := fst (fst (fst r)).

Definition rule_end (r : parsed_q_rule) : datetime := snd (fst (fst r)).

Definition rule_fixed (r : parsed_q_rule) : Decimal := snd (fst r).

Definition rule_idx (r : parsed_q_rule) : Z := snd r.

(** The closed interval of [r] contains [t]. *)
Definition contains (t : datetime) (r : parsed_q_rule) : Prop :=
  rule_start r <= t <= rule_end r.

(** [r] does not beat [w]: it starts earlier, or at the same time with an
    ordinal that is not higher. *)
Definition not_above (r w : parsed_q_rule) : Prop :=
  rule_start r < rule_start w
  \/ (rule_start r = rule_start w /\ rule_idx r <= rule_idx w).

Definition to_candidate (r : parsed_q_rule) : candidate :=
  (rule_start r, rule_idx r, rule_fixed r).

(** Two candidates have the same sort key. *)
Definition same_key (a b : candidate) : bool :=
  (cand_start a =? cand_start b) && (cand_idx a =? cand_idx b).

(** ** Acceptance by the loops *)

(** The transactions of [l] whose flag in [mask] is [b], in order. *)
Fixpoint select {A : Type} (mask : list bool) (l : list A) (b : bool) : list A :=
  match mask, l with
  | m :: mask', x :: l' =>
      if Bool.eqb m b then x :: select mask' l' b else select mask' l' b
  | _, _ => []
  end.

(** Which transactions the validation loop accepts, given the dates seen
    so far. *)
Fixpoint accept_mask (seen : gset string) (txs : list TransactionOutput)
    : list bool :=
  match txs with
  | [] => []
  | tx :: rest =>
      if is_negative tx then false :: accept_mask seen rest
      else if bool_decide (date tx ∈ seen) then false :: accept_mask seen rest
      else true :: accept_mask ({[date tx]} ∪ seen) rest
  end.

(** The message a rejected transaction gets. *)
Definition rejection (tx : TransactionOutput) : string :=
  if is_negative tx then NEGATIVE else DUPLICATE.

(** The dates of the transactions with a non-negative amount. *)
Fixpoint dates_of_non_negative (txs : list TransactionOutput) : gset string :=
  match txs with
  | [] => ∅
  | tx :: rest =>
      if is_negative tx then dates_of_non_negative rest
      else {[date tx]} ∪ dates_of_non_negative rest
  end.

Definition accepted_of (s : gset string) (txs : list TransactionOutput)
    : list TransactionOutput :=
  select (accept_mask s txs) txs true.

Definition set_transactions (txs : list TransactionOutput)
    (payload : ReturnsRequest) : ReturnsRequest :=
  {| age := age payload; wage := wage payload; inflation := inflation payload;
     q := q payload; p := p payload; k := k payload; transactions := txs |}.

(** The state in which the first loop of [calculate_returns] starts. *)
Definition nothing_accepted : accepted :=
  {| valid_txs := []; seen_dates := ∅;
     total_tx_amount := Decimal.dec 0 1; total_ceiling := Decimal.dec 0 1 |}.

(** What the loops of the endpoints do with a transaction they accept. *)
Section LoopBodies.

Variable parse_date : string -> option datetime.
Variables (parsed_q : list parsed_q_rule) (parsed_p : list parsed_p_rule)
          (parsed_k : list (datetime * datetime)).

(** What the filter does to a transaction it accepts. *)
Definition resolved (tx : TransactionOutput) : option TransactionOutput :=
  tx_dt ← parse_date (date tx);
  r ← process_transaction_rules_fast tx_dt (remanent tx) parsed_q parsed_p;
  Some (set_inkPeriod
          (existsb (fun '(k_start, k_end) => between k_start tx_dt k_end)
                   parsed_k)
          (set_remanent r tx)).

(** What the returns loop does with a transaction it accepts. *)
Definition accept_step (st : accepted) (tx : TransactionOutput)
    : option accepted :=
  tx_dt ← parse_date (date tx);
  r ← process_transaction_rules_fast tx_dt (remanent tx) parsed_q parsed_p;
  a ← Decimal.add (total_tx_amount st) (amount tx);
  c ← Decimal.add (total_ceiling st) (ceiling tx);
  Some {| valid_txs := valid_txs st ++ [(tx_dt, r)];
          seen_dates := {[date tx]} ∪ seen_dates st;
          total_tx_amount := a;
          total_ceiling := c |}.

Fixpoint accept_all (st : accepted) (l : list TransactionOutput)
    : option accepted :=
  match l with
  | [] => Some st
  | tx :: l' => st' ← accept_step st tx; accept_all st' l'
  end.

End LoopBodies.

(** ** Rounding and exactness of decimal operations *)

Module Rounding.
Import Decimal.

(** The value after dropping digits, at any lower common scale [s]:
    for [s <= e] and [s <= E], rounding [c * 10^e] to the exponent [E] is
    rounding [c * 10^(e - s)] by [E - s] digits. *)
Definition round_to (r : rounding) (c e E s : Z) : Z :=
  round_div r (c * 10 ^ (e - s)) (E - s).

(** The exponent to which [_fix] rounds a positive coefficient. *)
Definition quantum (c e : Z) : Z := Z.max (ndigits c + e - prec) Etiny.

(** *** Exact operations *)

Definition fits (d : t) : Prop :=
  Z.abs (coeff d) < 10 ^ prec /\ Etiny <= exp d <= Etop.

(** The coefficient, in hundredths, of a non-negative number rounded
    half-up to two places. *)
Definition to_cents (c e : Z) : Z :=
  if e <=? -2 then round_div ROUND_HALF_UP c (-2 - e) else c * 10 ^ (e + 2).

End Rounding.

(** ** Domains and scaled forms of the computations *)

Section Domains.
Import Decimal Rounding.

(** The amounts on which every step of [calculate_remanent] is exact:
    not negative, at most 28 digits when written without an exponent, at
    most 25 of them fraction digits. *)
Definition remanent_domain (a : Decimal) : Prop :=
  0 <= coeff a /\ coeff a * 10 ^ Z.max (exp a) 0 < 10 ^ 28 /\ -25 <= exp a.

(** The incomes on which every step of [calculate_tax] is exact: not
    negative and at most 26 digits, integer and fraction digits together,
    when written without an exponent. *)
Definition tax_domain (y : Decimal) : Prop :=
  0 <= coeff y /\ coeff y * 10 ^ Z.max (exp y) 0 < 10 ^ 26 /\ -26 <= exp y.

(** The bracket of an income [X / P]. *)
Definition bracket_of (X P : Z) : nat :=
  if X <? 700000 * P then 0%nat
  else if X <? 1000000 * P then 1%nat
  else if X <? 1200000 * P then 2%nat
  else if X <? 1500000 * P then 3%nat
  else 4%nat.

(** The exact tax of an income [X / P] in the bracket [idx], in units of
    [1 / (100 * P)]. *)
Definition tax_units (idx : nat) (X P : Z) : Z :=
  match idx with
  | 0%nat => 0
  | 1%nat => (X - 700000 * P) * 10
  | 2%nat => 30000 * 100 * P + (X - 1000000 * P) * 15
  | 3%nat => 60000 * 100 * P + (X - 1200000 * P) * 20
  | _ => 120000 * 100 * P + (X - 1500000 * P) * 30
  end.

(** The computation of one bracket. *)
Definition tax_chain (prev base rate yearly_income : Decimal)
    : option Decimal :=
  excess ← sub yearly_income prev;
  marginal ← mul excess rate;
  tax ← add base marginal;
  quantize tax TWO_PLACES ROUND_HALF_UP.

(** The tax computed with the table entries of bracket [idx]. *)
Definition tax_in_bracket (idx : nat) (yearly_income : Decimal)
    : option Decimal :=
  base ← BASE_TAX !! idx;
  prev ← PREV_THRESHOLDS !! idx;
  rate ← RATES !! idx;
  tax_chain prev base rate yearly_income.

(** The extras of exactly the P rules whose interval contains [t], each
    once, in the order of the rules. *)
Definition extras_at (t : datetime) (parsed_p : list parsed_p_rule)
    : list Decimal :=
  map snd
    (List.filter (fun r : parsed_p_rule => between (fst (fst r)) t (snd (fst r)))
                 parsed_p).

(** The exact sum of the values of a list. *)
Definition Qsum (l : list Decimal) : Q :=
  fold_right (fun d acc => (value d + acc)%Q) 0%Q l.

(** The size of [d] in units of [10^u], and the total size of a list. *)
Definition magnitude (u : Z) (d : Decimal) : Z :=
  Z.abs (coeff d) * 10 ^ (exp d - u).

Definition total (u : Z) (l : list Decimal) : Z :=
  fold_right (fun d acc => magnitude u d + acc) 0 l.

(** The numbers of [l] are multiples of a common unit [10^u] within the
    exponent range, and their sizes in that unit add up to less than
    [10^28]: no addition of them, in any order, needs rounding. *)
Definition small_sum (l : list Decimal) : Prop :=
  exists u, Etiny <= u
            /\ Forall (fun d => u <= exp d <= Etop) l
            /\ total u l < 10 ^ prec.

Definition min_exp (start : Decimal) (l : list Decimal) : Z :=
  fold_right (fun d m => Z.min (exp d) m) (exp start) l.

End Domains.

(** ** Notions for the further properties *)

(** The amounts of money in cents: not negative, at most two fraction
    digits, and small enough for the ceiling to fit 28 digits. *)
Definition cents_domain (a : Decimal) : Prop :=
  0 <= Decimal.coeff a /\ -2 <= Decimal.exp a
  /\ Decimal.coeff a * 10 ^ (Decimal.exp a + 2) <= 10 ^ 28 - 10000.

(** The rules whose closed interval contains [t], in their order. *)
Definition containing_q (t : datetime) (parsed_q : list parsed_q_rule)
    : list parsed_q_rule :=
  List.filter (fun r => between (rule_start r) t (rule_end r)) parsed_q.

Definition containing_p (t : datetime) (parsed_p : list parsed_p_rule)
    : list parsed_p_rule :=
  List.filter (fun r : parsed_p_rule => between (fst (fst r)) t (snd (fst r)))
              parsed_p.

(** What an entry of a response shows whatever the preset. *)
Definition window_of (entry : SavingsByDate) : string * string * Decimal :=
  (s_start entry, s_end entry, s_amount entry).

(** The remanents of the transactions of [l] whose date is in the window
    from [k_start_dt] to [k_end_dt], in order. *)
Definition remanents_within (parse_date : string -> option datetime)
    (k_start_dt k_end_dt : datetime) (l : list TransactionOutput)
    : list Decimal :=
  flat_map (fun tx =>
              match parse_date (date tx) with
              | Some dt =>
                  if between k_start_dt dt k_end_dt then [remanent tx] else []
              | None => []
              end)
           l.

(** ** An instance of the library operations, for the examples

    The endpoints take [datetime.strptime] and the floating-point
    operations as parameters.  The examples run them with a reader of
    timestamps and with exact rational arithmetic in the place of binary
    floating point. *)

Module Sample.

Definition digit_of (a : ascii) : option Z :=
  let n := Z.of_N (N_of_ascii a) in
  if (48 <=? n) && (n <=? 57) then Some (n - 48) else None.

(** Reads [s] along [pattern], in which [d] stands for a digit and every
    other character for itself; the digits read are one number. *)
Fixpoint read (pattern s : string) (acc : Z) : option Z :=
  match pattern, s with
  | EmptyString, EmptyString => Some acc
  | String c pattern', String a s' =>
      if Ascii.eqb c "d"%char then
        n ← digit_of a; read pattern' s' (10 * acc + n)
      else if Ascii.eqb c a then read pattern' s' acc
      else None
  | _, _ => None
  end.

(** A timestamp [YYYY-MM-DD HH:MM:SS] as the number [YYYYMMDDHHMMSS],
    which orders timestamps as [datetime] does. *)
Definition parse_date (s : string) : option datetime :=
  read "dddd-dd-dd dd:dd:dd" s 0.

Definition float : Type := Q.

Definition float_of_Decimal (d : Decimal) : float := Qred (Decimal.value d).

Definition fadd (x y : float) : float := Qred (x + y).

Definition fmul (x y : float) : float := Qred (x * y).

Definition fdiv (x y : float) : option float :=
  if Qeq_bool y 0 then None else Some (Qred (x / y)).

Definition fpow (x : float) (n : Z) : option float :=
  if Qeq_bool x 0 && (n <? 0) then None else Some (Qred (x ^ n)).

(** Six fraction digits of [x]. *)
Definition Decimal_of_str (x : float) : option Decimal :=
  Some (Decimal.mk (Qfloor (x * inject_Z (10 ^ 6))) (-6)).

Definition transaction (date : string) (amount ceiling remanent : Z)
    : TransactionOutput :=
  {| date := date; amount := Decimal.of_Z amount;
     ceiling := Decimal.of_Z ceiling; remanent := Decimal.of_Z remanent;
     inkPeriod := None; message := None |}.

(** A request of the test suite: one transaction inside one window. *)
Definition request : ReturnsRequest :=
  {| age := 30; wage := Decimal.of_Z 100000; inflation := Decimal.of_Z 5;
     q := []; p := [];
     k := [{| k_start := "2023-01-01 00:00:00";
              k_end := "2023-12-31 23:59:59" |}];
     transactions := [transaction "2023-06-01 10:00:00" 50 100 50] |}.

Definition returns : ReturnsRequest -> float -> bool -> option ReturnsResponse :=
  calculate_returns parse_date float_of_Decimal fadd fmul fdiv fpow
    Decimal_of_str.

Definition returns_nps : ReturnsRequest -> option ReturnsResponse :=
  returns_nps parse_date float_of_Decimal fadd fmul fdiv fpow Decimal_of_str.

Definition returns_index : ReturnsRequest -> option ReturnsResponse :=
  returns_index parse_date float_of_Decimal fadd fmul fdiv fpow
    Decimal_of_str.

End Sample.

(** * Verification *)

(** ** The fixed-override stage of the resolver *)

Section Resolver.

Lemma between_spec (a t b : datetime) :
  between a t b = true <-> a <= t <= b.
Proof. unfold between. rewrite andb_true_iff, !Z.leb_le. tauto. Qed.

Lemma key_ltb_false_iff (r w : parsed_q_rule) :
  key_ltb (to_candidate w) (to_candidate r) = false <-> not_above r w.
Proof.
  unfold key_ltb, not_above, to_candidate, cand_start, cand_idx; simpl.
  rewrite orb_false_iff, andb_false_iff, Z.ltb_ge, Z.eqb_neq, Z.ltb_ge. lia.
Qed.

Lemma in_applicable_qs (t : datetime) (parsed_q : list parsed_q_rule)
    (c : candidate) :
  In c (applicable_qs t parsed_q)
  <-> exists r, In r parsed_q /\ contains t r /\ c = to_candidate r.
Proof.
  unfold applicable_qs. rewrite in_flat_map. split.
  - intros ([[[s e] f] i] & Hin & Hc).
    destruct (between s t e) eqn:Hb; [|destruct Hc].
    destruct Hc as [<-|[]]. exists (s, e, f, i).
    split; [exact Hin|]. split; [|reflexivity].
    apply between_spec in Hb. exact Hb.
  - intros ([[[s e] f] i] & Hin & Hc & ->). exists (s, e, f, i).
    split; [exact Hin|]. apply between_spec in Hc. unfold rule_start, rule_end in Hc.
    simpl in Hc. rewrite Hc. left. reflexivity.
Qed.

Lemma in_insert_desc (x c : candidate) (l : list candidate) :
  In c (insert_desc x l) <-> c = x \/ In c l.
Proof.
  induction l as [|y l IH]; simpl.
  - intuition congruence.
  - destruct (key_ltb x y); simpl; [rewrite IH|]; intuition congruence.
Qed.

Lemma in_sort_desc (c : candidate) (l : list candidate) :
  In c (sort_desc l) <-> In c l.
Proof.
  induction l as [|x l IH]; simpl; [tauto|].
  rewrite in_insert_desc, IH. intuition congruence.
Qed.

(** The head of the sorted candidates has a largest key. *)
Lemma sort_desc_head (l : list candidate) (w : candidate) (rest : list candidate) :
  sort_desc l = w :: rest -> forall c, In c l -> key_ltb w c = false.
Proof.
  revert w rest. induction l as [|x l IH]; intros w rest Hs c Hc; [destruct Hc|].
  simpl in Hs. destruct (sort_desc l) as [|y ys] eqn:Hl.
  - assert (l = []) as ->.
    { destruct l as [|z l]; [reflexivity|].
      assert (In z (sort_desc (z :: l))) as Hz by (apply in_sort_desc; left; reflexivity).
      rewrite Hl in Hz. destruct Hz. }
    simpl in Hs. injection Hs as <- <-. destruct Hc as [<-|[]].
    unfold key_ltb. rewrite Z.ltb_irrefl, Z.ltb_irrefl, andb_false_r. reflexivity.
  - simpl in Hs. specialize (IH y ys eq_refl).
    destruct (key_ltb x y) eqn:Hxy; injection Hs as <- <-.
    + destruct Hc as [<-|Hc]; [|apply IH; exact Hc].
      revert Hxy. unfold key_ltb.
      rewrite orb_true_iff, orb_false_iff, andb_true_iff, andb_false_iff,
        !Z.ltb_lt, !Z.ltb_ge, Z.eqb_eq, Z.eqb_neq. lia.
    + destruct Hc as [<-|Hc].
      * unfold key_ltb. rewrite Z.ltb_irrefl, Z.ltb_irrefl, andb_false_r. reflexivity.
      * specialize (IH c Hc). revert Hxy IH. unfold key_ltb.
        rewrite !orb_false_iff, !andb_false_iff, !Z.ltb_ge, !Z.eqb_neq. lia.
Qed.

(** [sort_desc] is the stable sort into descending key order: its result
    is a permutation of the candidates, no candidate is followed by one
    with a larger key, and candidates with the same key keep their
    order. *)
Lemma insert_desc_Permutation (x : candidate) (l : list candidate) :
  Permutation (insert_desc x l) (x :: l).
Proof.
  induction l as [|y l IH]; simpl; [reflexivity|].
  destruct (key_ltb x y); [|reflexivity].
  rewrite IH. apply perm_swap.
Qed.

Lemma sort_desc_Permutation (l : list candidate) :
  Permutation (sort_desc l) l.
Proof.
  induction l as [|x l IH]; simpl; [reflexivity|].
  rewrite insert_desc_Permutation, IH. reflexivity.
Qed.

Lemma key_ltb_spec (a b : candidate) :
  key_ltb a b = true
  <-> cand_start a < cand_start b
      \/ (cand_start a = cand_start b /\ cand_idx a < cand_idx b).
Proof.
  unfold key_ltb.
  rewrite orb_true_iff, andb_true_iff, !Z.ltb_lt, Z.eqb_eq. reflexivity.
Qed.

Lemma key_ltb_false_spec (a b : candidate) :
  key_ltb a b = false
  <-> cand_start b < cand_start a
      \/ (cand_start a = cand_start b /\ cand_idx b <= cand_idx a).
Proof.
  unfold key_ltb.
  rewrite orb_false_iff, andb_false_iff, !Z.ltb_ge, Z.eqb_neq. lia.
Qed.

Lemma insert_desc_sorted (x : candidate) (l : list candidate) :
  StronglySorted (fun a b => key_ltb a b = false) l ->
  StronglySorted (fun a b => key_ltb a b = false) (insert_desc x l).
Proof.
  induction 1 as [|y l Hl IH Hy]; simpl.
  - repeat constructor.
  - destruct (key_ltb x y) eqn:Hxy.
    + constructor; [exact IH|].
      rewrite insert_desc_Permutation. constructor; [|exact Hy].
      apply key_ltb_spec in Hxy. apply key_ltb_false_spec. lia.
    + constructor; [constructor; assumption|].
      constructor; [exact Hxy|].
      eapply Forall_impl; [exact Hy|]. cbv beta. intros z Hz.
      apply key_ltb_false_spec in Hxy, Hz. apply key_ltb_false_spec. lia.
Qed.

Lemma sort_desc_sorted (l : list candidate) :
  StronglySorted (fun a b => key_ltb a b = false) (sort_desc l).
Proof.
  induction l as [|x l IH]; simpl; [constructor|].
  apply insert_desc_sorted, IH.
Qed.

Lemma insert_desc_stable (k x : candidate) (l : list candidate) :
  List.filter (same_key k) (insert_desc x l) = List.filter (same_key k) (x :: l).
Proof.
  induction l as [|y l IH]; [reflexivity|].
  cbn [insert_desc]. destruct (key_ltb x y) eqn:Hxy; [|reflexivity].
  cbn [List.filter] in *. rewrite IH.
  destruct (same_key k x) eqn:Hx, (same_key k y) eqn:Hy; try reflexivity.
  exfalso. apply key_ltb_spec in Hxy. unfold same_key in Hx, Hy.
  rewrite andb_true_iff, !Z.eqb_eq in Hx, Hy. lia.
Qed.

Lemma sort_desc_stable (k : candidate) (l : list candidate) :
  List.filter (same_key k) (sort_desc l) = List.filter (same_key k) l.
Proof.
  induction l as [|x l IH]; [reflexivity|].
  cbn [sort_desc]. rewrite insert_desc_stable. cbn [List.filter].
  rewrite IH. reflexivity.
Qed.

(** What [apply_fixed] returns: the base value when no rule contains
    the timestamp, the fixed value of a rule that nothing beats
    otherwise. *)
Lemma apply_fixed_spec (t : datetime) (b : Decimal) (parsed_q : list parsed_q_rule) :
  ((forall r, In r parsed_q -> ~ contains t r) /\ apply_fixed t b parsed_q = b)
  \/ (exists w, In w parsed_q /\ contains t w
        /\ (forall r, In r parsed_q -> contains t r -> not_above r w)
        /\ apply_fixed t b parsed_q = rule_fixed w).
Proof.
  unfold apply_fixed.
  destruct (sort_desc (applicable_qs t parsed_q)) as [|w rest] eqn:Hs.
  - left. split; [|reflexivity]. intros r Hin Hc.
    assert (In (to_candidate r) (sort_desc (applicable_qs t parsed_q))) as H.
    { apply in_sort_desc, in_applicable_qs. eauto. }
    rewrite Hs in H. destruct H.
  - right.
    assert (In w (applicable_qs t parsed_q)) as Hw.
    { apply in_sort_desc. rewrite Hs. left. reflexivity. }
    apply in_applicable_qs in Hw as (rw & Hin & Hc & ->).
    exists rw. repeat split; try assumption; try apply Hc.
    intros r Hr Hcr. apply key_ltb_false_iff.
    apply (sort_desc_head _ _ _ Hs), in_applicable_qs. eauto.
Qed.

End Resolver.

(** The ordinals that [parse_q] gives to the rules are their positions in
    the request, so no two rules share one. *)
Section Ordinals.

Variable parse_date : string -> option datetime.

Lemma parse_q_ordinals (qs : list PeriodQ) (rules : list parsed_q_rule) :
  parse_q parse_date qs = Some rules ->
  forall (i : nat) (r : parsed_q_rule),
    rules !! i = Some r -> rule_idx r = Z.of_nat i.
Proof.
  unfold parse_q. intros H i r Hr. apply mapM_Some in H.
  destruct (Forall2_lookup_r _ _ _ _ _ H Hr) as ([j x] & Hx & Hp).
  rewrite list_lookup_imap in Hx.
  destruct (qs !! i); simpl in Hx; [|discriminate].
  injection Hx as <- <-. simpl in Hp.
  destruct (parse_date (q_start p0)); simpl in Hp; [|discriminate].
  destruct (parse_date (q_end p0)); simpl in Hp; [|discriminate].
  injection Hp as <-. reflexivity.
Qed.

Lemma parse_q_NoDup (qs : list PeriodQ) (rules : list parsed_q_rule) :
  parse_q parse_date qs = Some rules -> List.NoDup (map rule_idx rules).
Proof.
  intros H. change (map rule_idx rules) with (rule_idx <$> rules).
  apply NoDup_ListNoDup, NoDup_alt. intros i j x Hi Hj.
  rewrite list_lookup_fmap in Hi, Hj.
  destruct (rules !! i) as [ri|] eqn:Ei; [|discriminate].
  destruct (rules !! j) as [rj|] eqn:Ej; [|discriminate].
  simpl in Hi, Hj. injection Hi as <-. injection Hj as Hj.
  rewrite (parse_q_ordinals _ _ H _ _ Ei), (parse_q_ordinals _ _ H _ _ Ej)
    in Hj.
  lia.
Qed.

End Ordinals.

Lemma same_ordinal_same_rule (l : list parsed_q_rule) (a b : parsed_q_rule) :
  List.NoDup (map rule_idx l) -> In a l -> In b l -> rule_idx a = rule_idx b ->
  a = b.
Proof.
  induction l as [|x l IH]; intros Hnd Ha Hb Hab; [destruct Ha|].
  simpl in Hnd. inversion Hnd as [|? ? Hx Hl]; subst.
  destruct Ha as [->|Ha], Hb as [->|Hb].
  - reflexivity.
  - exfalso. apply Hx. rewrite Hab. apply in_map. exact Hb.
  - exfalso. apply Hx. rewrite <- Hab. apply in_map. exact Ha.
  - apply IH; assumption.
Qed.

Lemma apply_fixed_replaces (t : datetime) (b b' : Decimal)
    (parsed_q : list parsed_q_rule) (r : parsed_q_rule) :
  In r parsed_q -> contains t r ->
  apply_fixed t b' parsed_q = apply_fixed t b parsed_q.
Proof.
  intros Hin Hc. unfold apply_fixed.
  destruct (sort_desc (applicable_qs t parsed_q)) as [|w rest] eqn:Hs;
    [|reflexivity].
  assert (In (to_candidate r) (sort_desc (applicable_qs t parsed_q))) as H.
  { apply in_sort_desc, in_applicable_qs. eauto. }
  rewrite Hs in H. destruct H.
Qed.

(** C1. For every timestamp, base remanent and lists of rules: when no Q
    rule's closed interval contains the timestamp the base remanent goes on
    unchanged; otherwise the resolver continues from the fixed value of one
    winner among the Q rules that contain it, a rule with the latest start
    and, among equal starts, the highest ordinal.  The fixed value replaces
    the base remanent (the result does not depend on it), and with distinct
    ordinals the winner is the only rule that nothing beats. *)
Theorem resolve_fixed_winner (t : datetime) (b : Decimal)
    (parsed_q : list parsed_q_rule) (parsed_p : list parsed_p_rule) :
  ((forall r, In r parsed_q -> ~ contains t r) ->
     process_transaction_rules_fast t b parsed_q parsed_p
       = apply_extras t b parsed_p
     /\ process_transaction_rules_fast t b parsed_q [] = Some b)
  /\ ((exists r, In r parsed_q /\ contains t r) ->
      exists w,
        In w parsed_q /\ contains t w
        /\ (forall r, In r parsed_q -> contains t r -> not_above r w)
        /\ process_transaction_rules_fast t b parsed_q parsed_p
             = apply_extras t (rule_fixed w) parsed_p
        /\ process_transaction_rules_fast t b parsed_q [] = Some (rule_fixed w)
        /\ (forall b', process_transaction_rules_fast t b' parsed_q parsed_p
                       = process_transaction_rules_fast t b parsed_q parsed_p)
        /\ (List.NoDup (map rule_idx parsed_q) ->
            forall w', In w' parsed_q -> contains t w' ->
              (forall r, In r parsed_q -> contains t r -> not_above r w') ->
              w' = w)).
Proof.
  unfold process_transaction_rules_fast. split.
  - intros Hnone.
    destruct (apply_fixed_spec t b parsed_q) as [[_ ->]|(w & Hin & Hc & _)].
    + split; reflexivity.
    + destruct (Hnone w Hin Hc).
  - intros (r0 & Hin0 & Hc0).
    destruct (apply_fixed_spec t b parsed_q)
      as [[Hnone _]|(w & Hin & Hc & Hmax & Hw)].
    { destruct (Hnone r0 Hin0 Hc0). }
    exists w. rewrite Hw. repeat split; try assumption; try apply Hc.
    + intros b'. rewrite (apply_fixed_replaces t b b' parsed_q r0 Hin0 Hc0), Hw.
      reflexivity.
    + intros Hnd w' Hin' Hc' Hmax'.
      apply (same_ordinal_same_rule parsed_q); try assumption.
      specialize (Hmax w' Hin' Hc'). specialize (Hmax' w Hin Hc).
      unfold not_above in *. lia.
Qed.

(** Three overlapping rules: at the timestamp 5 the one that starts last
    and was declared last wins; the timestamp 50 is in no interval. *)
Lemma resolve_fixed_winner_witness :
  let rules : list parsed_q_rule :=
    [(0, 10, Decimal.of_Z 100, 0); (3, 8, Decimal.of_Z 200, 1);
     (3, 9, Decimal.of_Z 300, 2)] in
  (process_transaction_rules_fast 50 (Decimal.of_Z 50) rules []
     = apply_extras 50 (Decimal.of_Z 50) []
   /\ process_transaction_rules_fast 50 (Decimal.of_Z 50) rules []
        = Some (Decimal.of_Z 50))
  /\ exists w,
       In w rules /\ contains 5 w
       /\ (forall r, In r rules -> contains 5 r -> not_above r w)
       /\ process_transaction_rules_fast 5 (Decimal.of_Z 50) rules []
            = apply_extras 5 (rule_fixed w) []
       /\ process_transaction_rules_fast 5 (Decimal.of_Z 50) rules []
            = Some (rule_fixed w)
       /\ (forall b', process_transaction_rules_fast 5 b' rules []
                      = process_transaction_rules_fast 5 (Decimal.of_Z 50)
                          rules [])
       /\ (List.NoDup (map rule_idx rules) ->
           forall w', In w' rules -> contains 5 w' ->
             (forall r, In r rules -> contains 5 r -> not_above r w') ->
             w' = w).
Proof.
  intros rules. split.
  - apply (proj1 (resolve_fixed_winner 50 (Decimal.of_Z 50) rules [])).
    intros r Hin [_ Hend]. unfold rule_end in Hend.
    destruct Hin as [<-|[<-|[<-|[]]]]; simpl in Hend; lia.
  - apply (proj2 (resolve_fixed_winner 5 (Decimal.of_Z 50) rules [])).
    exists (0, 10, Decimal.of_Z 100, 0). split.
    + left. reflexivity.
    + unfold contains, rule_start, rule_end. simpl. lia.
Defined.

Example resolve_fixed_latest_start :
  process_transaction_rules_fast 5 (Decimal.of_Z 50)
    [(0, 10, Decimal.of_Z 100, 0); (3, 8, Decimal.of_Z 200, 1);
     (3, 9, Decimal.of_Z 300, 2)] []
  = Some (Decimal.of_Z 300).
Proof. reflexivity. Qed.

(** ** The validator: a partition that keeps the order *)

Lemma validate_loop_acc (txs v i : list TransactionOutput) (s : gset string) :
  validate_loop txs v i s
  = {| valid := v ++ valid (validate_loop txs [] [] s);
       invalid := i ++ invalid (validate_loop txs [] [] s) |}.
Proof.
  revert v i s. induction txs as [|tx rest IH]; intros v i s; simpl.
  - rewrite !app_nil_r. reflexivity.
  - destruct (is_negative tx); [|destruct (bool_decide (date tx ∈ s))].
    + rewrite (IH v (i ++ _)), (IH [] [_]). simpl.
      rewrite <- app_assoc. reflexivity.
    + rewrite (IH v (i ++ _)), (IH [] [_]). simpl.
      rewrite <- app_assoc. reflexivity.
    + rewrite (IH (v ++ _) i), (IH [_] []). simpl.
      rewrite <- app_assoc. reflexivity.
Qed.

Lemma validate_loop_mask (txs : list TransactionOutput) (s : gset string) :
  let r := validate_loop txs [] [] s in
  valid r = select (accept_mask s txs) txs true
  /\ invalid r
     = map (fun tx => set_message (rejection tx) tx)
           (select (accept_mask s txs) txs false).
Proof.
  revert s. induction txs as [|tx rest IH]; intros s; simpl; [split; reflexivity|].
  destruct (is_negative tx) eqn:Hn; [|destruct (bool_decide (date tx ∈ s))]; simpl;
    rewrite validate_loop_acc; simpl.
  - destruct (IH s) as [-> ->].
    assert (rejection tx = NEGATIVE) as -> by (unfold rejection; rewrite Hn; reflexivity).
    split; reflexivity.
  - destruct (IH s) as [-> ->].
    assert (rejection tx = DUPLICATE) as -> by (unfold rejection; rewrite Hn; reflexivity).
    split; reflexivity.
  - destruct (IH ({[date tx]} ∪ s)) as [-> ->]. split; reflexivity.
Qed.

Lemma accept_mask_length (s : gset string) (txs : list TransactionOutput) :
  length (accept_mask s txs) = length txs.
Proof.
  revert s. induction txs as [|tx rest IH]; intros s; simpl; [reflexivity|].
  destruct (is_negative tx); [|destruct (bool_decide (date tx ∈ s))]; simpl;
    rewrite IH; reflexivity.
Qed.

Lemma select_length {A : Type} (mask : list bool) (l : list A) :
  length mask = length l ->
  (length (select mask l true) + length (select mask l false))%nat = length l.
Proof.
  revert l. induction mask as [|m mask IH]; intros [|x l] H; simpl in *; try lia.
  specialize (IH l ltac:(lia)). destruct m; simpl; lia.
Qed.

Lemma select_sublist {A : Type} (mask : list bool) (l : list A) (b : bool) :
  select mask l b `sublist_of` l.
Proof.
  revert l. induction mask as [|m mask IH]; intros [|x l]; simpl;
    try apply sublist_nil_l.
  destruct (Bool.eqb m b); [apply sublist_skip|apply sublist_cons]; apply IH.
Qed.

Lemma validate_loop_app (pre l v i : list TransactionOutput) (s : gset string) :
  validate_loop (pre ++ l) v i s
  = validate_loop l (valid (validate_loop pre v i s))
      (invalid (validate_loop pre v i s)) (dates_of_non_negative pre ∪ s).
Proof.
  revert v i s. induction pre as [|tx pre IH]; intros v i s; simpl.
  - rewrite (left_id_L ∅ (∪)). reflexivity.
  - destruct (is_negative tx) eqn:Hn;
      [|destruct (bool_decide_reflect (date tx ∈ s)) as [Hs|Hs]]; rewrite IH.
    + reflexivity.
    + replace ({[date tx]} ∪ dates_of_non_negative pre ∪ s)
        with (dates_of_non_negative pre ∪ s) by set_solver.
      reflexivity.
    + replace ({[date tx]} ∪ dates_of_non_negative pre ∪ s)
        with (dates_of_non_negative pre ∪ ({[date tx]} ∪ s)) by set_solver.
      reflexivity.
Qed.

(** C9. For every input sequence the validator partitions it: the sizes of
    the two lists add up to the size of the input, and there is one flag
    per input transaction such that the valid list is the flagged
    transactions in input order and the invalid list is the others in
    input order, each with its rejection message; both are therefore
    subsequences of the input. *)
Theorem validate_partition (txs : list TransactionOutput) :
  let r := validate_transactions txs in
  (length (valid r) + length (invalid r))%nat = length txs
  /\ exists mask : list bool,
       length mask = length txs
       /\ valid r = select mask txs true
       /\ invalid r
          = map (fun tx => set_message (rejection tx) tx) (select mask txs false)
       /\ valid r `sublist_of` txs
       /\ select mask txs false `sublist_of` txs.
Proof.
  intros r. subst r. unfold validate_transactions.
  destruct (validate_loop_mask txs ∅) as [Hv Hi].
  pose proof (accept_mask_length ∅ txs) as Hlen.
  split.
  - rewrite Hv, Hi, length_map. apply select_length. exact Hlen.
  - exists (accept_mask ∅ txs). repeat split; try assumption.
    + rewrite Hv. apply select_sublist.
    + apply select_sublist.
Qed.

(** ** The loops of the three endpoints accept the same transactions *)

Lemma is_negative_set_message (m : string) (tx : TransactionOutput) :
  is_negative (set_message m tx) = is_negative tx.
Proof. reflexivity. Qed.

Lemma select_false_negative (s : gset string) (txs : list TransactionOutput)
    (tx : TransactionOutput) :
  In tx txs -> is_negative tx = true -> In tx (select (accept_mask s txs) txs false).
Proof.
  revert s. induction txs as [|x rest IH]; intros s Hin Hn; [destruct Hin|].
  simpl. destruct Hin as [->|Hin].
  - rewrite Hn. simpl. left. reflexivity.
  - destruct (is_negative x); [|destruct (bool_decide (date x ∈ s))]; simpl;
      try right; apply IH; assumption.
Qed.

Lemma select_true_non_negative (s : gset string) (txs : list TransactionOutput)
    (tx : TransactionOutput) :
  In tx (select (accept_mask s txs) txs true) -> is_negative tx = false.
Proof.
  revert s. induction txs as [|x rest IH]; intros s Hin; [destruct Hin|].
  simpl in Hin. destruct (is_negative x) eqn:Hx;
    [|destruct (bool_decide (date x ∈ s))]; simpl in Hin.
  - apply (IH s Hin).
  - apply (IH s Hin).
  - destruct Hin as [<-|Hin]; [exact Hx|apply (IH _ Hin)].
Qed.

Lemma select_In {A : Type} (mask : list bool) (l : list A) (b : bool) (x : A) :
  In x (select mask l b) -> In x l.
Proof.
  revert l. induction mask as [|m mask IH]; intros [|y l] H; simpl in *;
    try contradiction.
  destruct (Bool.eqb m b); [destruct H as [->|H]|]; auto.
Qed.

Lemma non_negative_not_negative (tx : TransactionOutput) :
  Decimal.leb (Decimal.of_Z 0) (amount tx) = negb (is_negative tx).
Proof.
  unfold is_negative, Decimal.leb, Decimal.ltb, Decimal.align. simpl.
  rewrite (Z.min_comm 0), Z.leb_antisym. reflexivity.
Qed.

Section Loops.

Variable parse_date : string -> option datetime.

Variables (parsed_q : list parsed_q_rule) (parsed_p : list parsed_p_rule)
          (parsed_k : list (datetime * datetime)).

Local Abbreviation floop := (filter_loop parse_date parsed_q parsed_p parsed_k).
Local Abbreviation resolve := (resolved parse_date parsed_q parsed_p parsed_k).
Local Abbreviation step := (accept_step parse_date parsed_q parsed_p).
Local Abbreviation run := (accept_all parse_date parsed_q parsed_p).
#[local] Arguments resolved : simpl never.
#[local] Arguments accept_step : simpl never.

Lemma filter_loop_acc (txs v i : list TransactionOutput) (s : gset string) :
  floop txs v i s
  = r ← floop txs [] [] s;
    Some {| valid := v ++ valid r; invalid := i ++ invalid r |}.
Proof.
  revert v i s. induction txs as [|tx rest IH]; intros v i s; simpl.
  - rewrite !app_nil_r. reflexivity.
  - destruct (is_negative tx); [|destruct (bool_decide (date tx ∈ s))].
    + rewrite (IH v (i ++ _)), (IH [] [_]).
      destruct (floop rest [] [] s); simpl; [|reflexivity].
      rewrite <- app_assoc. reflexivity.
    + rewrite (IH v (i ++ _)), (IH [] [_]).
      destruct (floop rest [] [] s); simpl; [|reflexivity].
      rewrite <- app_assoc. reflexivity.
    + destruct (parse_date (date tx)) as [dt|]; simpl; [|reflexivity].
      destruct (process_transaction_rules_fast dt (remanent tx) parsed_q parsed_p)
        as [r|]; simpl; [|reflexivity].
      rewrite (IH (v ++ _) i), (IH [_] []).
      destruct (floop rest [] [] _); simpl; [|reflexivity].
      rewrite <- app_assoc. reflexivity.
Qed.

(** The filter accepts and rejects the same transactions as the
    validator, with the same messages; the accepted ones are resolve. *)
Lemma filter_loop_mask (txs : list TransactionOutput) (s : gset string) :
  floop txs [] [] s
  = v ← mapM resolve (select (accept_mask s txs) txs true);
    Some {| valid := v;
            invalid := map (fun tx => set_message (rejection tx) tx)
                           (select (accept_mask s txs) txs false) |}.
Proof.
  revert s. induction txs as [|tx rest IH]; intros s; simpl; [reflexivity|].
  destruct (is_negative tx) eqn:Hn; [|destruct (bool_decide (date tx ∈ s))];
    simpl.
  - rewrite filter_loop_acc, IH.
    assert (rejection tx = NEGATIVE) as ->
        by (unfold rejection; rewrite Hn; reflexivity).
    destruct (mapM resolve _); reflexivity.
  - rewrite filter_loop_acc, IH.
    assert (rejection tx = DUPLICATE) as ->
        by (unfold rejection; rewrite Hn; reflexivity).
    destruct (mapM resolve _); reflexivity.
  - unfold resolved.
    destruct (parse_date (date tx)) as [dt|]; simpl; [|reflexivity].
    destruct (process_transaction_rules_fast dt (remanent tx) parsed_q parsed_p)
      as [x|]; simpl; [|reflexivity].
    rewrite filter_loop_acc, IH. unfold resolved.
    destruct (mapM _ _); reflexivity.
Qed.

Lemma accept_step_seen (st st' : accepted) (tx : TransactionOutput) :
  step st tx = Some st' -> seen_dates st' = {[date tx]} ∪ seen_dates st.
Proof.
  unfold accept_step.
  destruct (parse_date (date tx)); simpl; [|discriminate].
  destruct (process_transaction_rules_fast _ _ _ _); simpl; [|discriminate].
  destruct (Decimal.add (total_tx_amount st) _); simpl; [|discriminate].
  destruct (Decimal.add (total_ceiling st) _); simpl; [|discriminate].
  intros [= <-]. reflexivity.
Qed.

(** The returns loop accepts the same transactions as the validator. *)
Lemma returns_loop_mask (txs : list TransactionOutput) (st : accepted) :
  returns_loop parse_date parsed_q parsed_p txs st
  = run st (select (accept_mask (seen_dates st) txs) txs true).
Proof.
  revert st. induction txs as [|tx rest IH]; intros st; simpl; [reflexivity|].
  rewrite non_negative_not_negative.
  destruct (is_negative tx) eqn:Hn;
    [|destruct (bool_decide (date tx ∈ seen_dates st))]; simpl.
  - apply IH.
  - apply IH.
  - unfold accept_step.
    destruct (parse_date (date tx)); simpl; [|reflexivity].
    destruct (process_transaction_rules_fast _ _ _ _); simpl; [|reflexivity].
    destruct (Decimal.add (total_tx_amount st) _); simpl; [|reflexivity].
    destruct (Decimal.add (total_ceiling st) _); simpl; [|reflexivity].
    rewrite IH. reflexivity.
Qed.

Lemma resolved_keeps (tx o : TransactionOutput) :
  resolve tx = Some o ->
  date o = date tx /\ amount o = amount tx /\ ceiling o = ceiling tx
  /\ message o = message tx.
Proof.
  unfold resolved.
  destruct (parse_date (date tx)) as [dt|]; simpl; [|discriminate].
  destruct (process_transaction_rules_fast dt (remanent tx) parsed_q parsed_p);
    simpl; [|discriminate].
  intros [= <-]. repeat split; reflexivity.
Qed.

Lemma mapM_resolved_In (l k : list TransactionOutput) (o : TransactionOutput) :
  mapM resolve l = Some k -> In o k ->
  exists tx, In tx l /\ resolve tx = Some o.
Proof.
  revert k. induction l as [|x l IH]; intros k; simpl.
  - intros [= <-] [].
  - destruct (resolve x) as [y|] eqn:Hx; simpl; [|discriminate].
    destruct (mapM resolve l) as [k'|]; simpl; [|discriminate].
    intros [= <-] [<-|Ho].
    + exists x. split; [left; reflexivity|exact Hx].
    + destruct (IH k' eq_refl Ho) as (tx & Hin & Hr).
      exists tx. split; [right; exact Hin|exact Hr].
Qed.

End Loops.

(** ** Negativity is checked before duplication *)

Lemma validate_negative_at (pre post : list TransactionOutput)
    (tx : TransactionOutput) :
  is_negative tx = true ->
  let r := validate_transactions (pre ++ tx :: post) in
  let after := validate_loop post [] [] (dates_of_non_negative pre) in
  invalid r
  = invalid (validate_transactions pre) ++ set_message NEGATIVE tx :: invalid after
  /\ valid r = valid (validate_transactions pre) ++ valid after.
Proof.
  intros Hn. unfold validate_transactions. rewrite validate_loop_app. simpl.
  rewrite Hn, validate_loop_acc, (right_id_L ∅ (∪)). simpl.
  rewrite <- app_assoc. split; reflexivity.
Qed.

Lemma NEGATIVE_not_DUPLICATE : NEGATIVE <> DUPLICATE.
Proof. discriminate. Qed.

(** C3. Negativity is checked before duplication.  For every input
    sequence, a transaction with a negative amount is put in the invalid
    list, at its place, with the message "Negative amounts are not
    allowed", whatever dates came before it; no negative entry of the
    invalid list carries "Duplicate transaction", and no entry of the valid
    list is negative.  The filter endpoint, when it answers, rejects the same
    transactions with the same messages. *)
Theorem negative_before_duplicate (txs : list TransactionOutput) :
  let r := validate_transactions txs in
  (forall pre tx post,
      txs = pre ++ tx :: post -> is_negative tx = true ->
      exists rest,
        invalid r
        = invalid (validate_transactions pre) ++ set_message NEGATIVE tx :: rest)
  /\ (forall o, In o (invalid r) -> is_negative o = true ->
        message o = Some NEGATIVE /\ message o <> Some DUPLICATE)
  /\ (forall o, In o (valid r) -> is_negative o = false)
  /\ (forall parse_date q p k rf,
        filter_transactions parse_date q p k txs = Some rf ->
        invalid rf = invalid r
        /\ (forall o, In o (valid rf) -> is_negative o = false)).
Proof.
  intros r. subst r.
  destruct (validate_loop_mask txs ∅) as [Hv Hi].
  fold (validate_transactions txs) in Hv, Hi.
  split; [|split; [|split]].
  - intros pre tx post -> Hn.
    destruct (validate_negative_at pre post tx Hn) as [-> _]. eauto.
  - intros o Ho Hn. rewrite Hi in Ho. apply in_map_iff in Ho as (tx & <- & Htx).
    rewrite is_negative_set_message in Hn. simpl. unfold rejection. rewrite Hn.
    split; [reflexivity|]. discriminate.
  - intros o Ho. rewrite Hv in Ho. apply (select_true_non_negative _ _ _ Ho).
  - intros parse_date q p k rf. unfold filter_transactions.
    destruct (parse_q parse_date q) as [pq|]; simpl; [|discriminate].
    destruct (parse_p parse_date p) as [pp|]; simpl; [|discriminate].
    destruct (parse_k parse_date k) as [pk|]; simpl; [|discriminate].
    rewrite filter_loop_mask.
    destruct (mapM _ _) as [v|] eqn:Hfv; simpl; [|discriminate].
    intros [= <-]. simpl.
    split; [rewrite Hi; reflexivity|].
    intros o Ho.
    destruct (mapM_resolved_In _ _ _ _ _ _ _ Hfv Ho) as (tx & Htx & Hres).
    apply resolved_keeps in Hres as (_ & Ha & _). unfold is_negative.
    rewrite Ha. apply (select_true_non_negative _ _ _ Htx).
Qed.

Lemma negative_before_duplicate_witness :
  let first := {| date := "2023-01-01 10:00:00"; amount := Decimal.dec 500 1;
                  ceiling := Decimal.dec 1000 1; remanent := Decimal.dec 500 1;
                  inkPeriod := None; message := None |} in
  let again := {| date := "2023-01-01 10:00:00"; amount := Decimal.dec (-100) 1;
                  ceiling := Decimal.dec 0 1; remanent := Decimal.dec 0 1;
                  inkPeriod := None; message := None |} in
  exists rest,
    invalid (validate_transactions [first; again])
    = invalid (validate_transactions [first]) ++ set_message NEGATIVE again :: rest.
Proof.
  intros first again.
  apply (proj1 (negative_before_duplicate [first; again]) [first] again []);
    reflexivity.
Defined.

(** ** Only accepted transactions mark their date as seen *)

Lemma select_accept_app (s : gset string) (pre l : list TransactionOutput)
    (b : bool) :
  select (accept_mask s (pre ++ l)) (pre ++ l) b
  = select (accept_mask s pre) pre b
    ++ select (accept_mask (dates_of_non_negative pre ∪ s) l) l b.
Proof.
  revert s. induction pre as [|tx pre IH]; intros s; simpl.
  - rewrite (left_id_L ∅ (∪)). reflexivity.
  - destruct (is_negative tx) eqn:Hn;
      [|destruct (bool_decide_reflect (date tx ∈ s)) as [Hs|Hs]]; simpl;
      rewrite IH.
    + destruct b; reflexivity.
    + replace ({[date tx]} ∪ dates_of_non_negative pre ∪ s)
        with (dates_of_non_negative pre ∪ s) by set_solver.
      destruct b; reflexivity.
    + replace ({[date tx]} ∪ dates_of_non_negative pre ∪ s)
        with (dates_of_non_negative pre ∪ ({[date tx]} ∪ s)) by set_solver.
      destruct b; reflexivity.
Qed.

(** A negative transaction leaves no trace among the accepted ones. *)
Lemma accepted_of_skip_negative (s : gset string)
    (pre post : list TransactionOutput) (neg : TransactionOutput) :
  is_negative neg = true ->
  accepted_of s (pre ++ neg :: post) = accepted_of s (pre ++ post).
Proof.
  intros Hn. unfold accepted_of. rewrite !select_accept_app. simpl.
  rewrite Hn. reflexivity.
Qed.

Lemma elem_of_dates_of_non_negative (d : string) (l : list TransactionOutput) :
  d ∈ dates_of_non_negative l
  <-> exists tx, In tx l /\ is_negative tx = false /\ date tx = d.
Proof.
  induction l as [|x l IH]; simpl.
  - split; [set_solver|intros (? & [] & _)].
  - destruct (is_negative x) eqn:Hx.
    + rewrite IH. split.
      * intros (tx & Hin & H). exists tx. tauto.
      * intros (tx & [->|Hin] & Hn & Hd); [congruence|]. exists tx. tauto.
    + rewrite elem_of_union, elem_of_singleton, IH. split.
      * intros [->|(tx & Hin & H)]; [exists x; tauto|exists tx; tauto].
      * intros (tx & [->|Hin] & Hn & Hd); [left; congruence|].
        right. exists tx. tauto.
Qed.

(** A transaction that is not negative, after a prefix in which its date
    occurs on negative transactions only, is accepted. *)
Lemma accepted_of_fresh (pre post : list TransactionOutput)
    (tx : TransactionOutput) :
  is_negative tx = false ->
  (forall t', In t' pre -> date t' = date tx -> is_negative t' = true) ->
  accepted_of ∅ (pre ++ tx :: post)
  = accepted_of ∅ pre
    ++ tx :: accepted_of ({[date tx]} ∪ (dates_of_non_negative pre ∪ ∅)) post.
Proof.
  intros Hn Hpre. unfold accepted_of. rewrite select_accept_app. simpl.
  rewrite Hn.
  destruct (bool_decide_reflect (date tx ∈ dates_of_non_negative pre ∪ ∅))
    as [Hs|Hs]; [|reflexivity].
  exfalso. rewrite (right_id_L ∅ (∪)) in Hs.
  apply elem_of_dates_of_non_negative in Hs as (t' & Hin & Hneg & Hd).
  rewrite (Hpre t' Hin Hd) in Hneg. discriminate.
Qed.

Section Acceptance.

Variable parse_date : string -> option datetime.

Variables (parsed_q : list parsed_q_rule) (parsed_p : list parsed_p_rule).

Local Abbreviation step := (accept_step parse_date parsed_q parsed_p).

Local Abbreviation run := (accept_all parse_date parsed_q parsed_p).

Lemma accept_all_app (st : accepted) (l1 l2 : list TransactionOutput) :
  run st (l1 ++ l2) = st1 ← run st l1; run st1 l2.
Proof.
  revert st. induction l1 as [|x l1 IH]; intros st; simpl; [reflexivity|].
  destruct (step st x) as [st'|]; simpl; [apply IH|reflexivity].
Qed.

Lemma accept_all_extends (st st' : accepted) (l : list TransactionOutput) :
  run st l = Some st' -> exists rest, valid_txs st' = valid_txs st ++ rest.
Proof.
  revert st. induction l as [|x l IH]; intros st; simpl.
  - intros [= <-]. exists []. rewrite app_nil_r. reflexivity.
  - destruct (step st x) as [st1|] eqn:H1; simpl; [|discriminate].
    intros H. destruct (IH _ H) as [rest ->].
    unfold accept_step in H1.
    destruct (parse_date (date x)); simpl in H1; [|discriminate].
    destruct (process_transaction_rules_fast _ _ _ _); simpl in H1; [|discriminate].
    destruct (Decimal.add (total_tx_amount st) _); simpl in H1; [|discriminate].
    destruct (Decimal.add (total_ceiling st) _); simpl in H1; [|discriminate].
    injection H1 as <-. simpl. rewrite <- app_assoc. eauto.
Qed.

Lemma accept_all_at (st st' : accepted) (l1 l2 : list TransactionOutput)
    (tx : TransactionOutput) :
  run st (l1 ++ tx :: l2) = Some st' ->
  exists dt r before rest,
    parse_date (date tx) = Some dt
    /\ process_transaction_rules_fast dt (remanent tx) parsed_q parsed_p = Some r
    /\ valid_txs st' = before ++ (dt, r) :: rest.
Proof.
  rewrite accept_all_app.
  destruct (run st l1) as [st1|]; simpl; [|discriminate].
  destruct (step st1 tx) as [st2|] eqn:H2; simpl; [|discriminate].
  intros H. destruct (accept_all_extends _ _ _ H) as [rest ->].
  unfold accept_step in H2.
  destruct (parse_date (date tx)) as [dt|]; simpl in H2; [|discriminate].
  destruct (process_transaction_rules_fast _ _ _ _) as [r|] eqn:Hr; simpl in H2;
    [|discriminate].
  destruct (Decimal.add (total_tx_amount st1) _); simpl in H2; [|discriminate].
  destruct (Decimal.add (total_ceiling st1) _); simpl in H2; [|discriminate].
  injection H2 as <-. simpl. exists dt, r, (valid_txs st1), rest.
  rewrite <- app_assoc. split; [reflexivity|]. split; [exact Hr|reflexivity].
Qed.

End Acceptance.

Section Returns.

Variable parse_date : string -> option datetime.

Variable float : Type.

Variable float_of_Decimal : Decimal -> float.

Variables fadd fmul : float -> float -> float.

Variable fdiv : float -> float -> option float.

Variable fpow : float -> Z -> option float.

Variable Decimal_of_str : float -> option Decimal.

Local Abbreviation returns :=
  (calculate_returns parse_date float_of_Decimal fadd fmul fdiv fpow
     Decimal_of_str).

(** C10. A transaction rejected for its negative amount does not mark its
    date as seen.  Taking a negative transaction out of the input changes
    neither the valid list of the validator, nor that of the filter, nor
    the response of the returns endpoints; and a later transaction with
    the same date and an amount that is not negative, whose date occurred
    before it on negative transactions only, is accepted by the three
    loops. *)
Theorem negative_does_not_mark_seen (pre post : list TransactionOutput)
    (neg : TransactionOutput) :
  is_negative neg = true ->
  valid (validate_transactions (pre ++ neg :: post))
    = valid (validate_transactions (pre ++ post))
  /\ (forall q p k,
        valid <$> filter_transactions parse_date q p k (pre ++ neg :: post)
        = valid <$> filter_transactions parse_date q p k (pre ++ post))
  /\ (forall payload rate is_nps,
        returns (set_transactions (pre ++ neg :: post) payload) rate is_nps
        = returns (set_transactions (pre ++ post) payload) rate is_nps)
  /\ (forall mid tx post',
        post = mid ++ tx :: post' ->
        date tx = date neg -> is_negative tx = false ->
        (forall t', In t' (pre ++ mid) -> date t' = date tx ->
                    is_negative t' = true) ->
        (exists rest,
            valid (validate_transactions (pre ++ neg :: post))
            = valid (validate_transactions (pre ++ neg :: mid)) ++ tx :: rest)
        /\ (forall q p k rf,
              filter_transactions parse_date q p k (pre ++ neg :: post)
                = Some rf ->
              exists tx' before rest,
                valid rf = before ++ tx' :: rest
                /\ date tx' = date tx /\ amount tx' = amount tx
                /\ ceiling tx' = ceiling tx /\ message tx' = message tx)
        /\ (forall parsed_q parsed_p st,
              returns_loop parse_date parsed_q parsed_p (pre ++ neg :: post)
                nothing_accepted = Some st ->
              exists dt r before rest,
                parse_date (date tx) = Some dt
                /\ process_transaction_rules_fast dt (remanent tx)
                     parsed_q parsed_p = Some r
                /\ valid_txs st = before ++ (dt, r) :: rest)).
Proof.
  intros Hn.
  assert (forall l, valid (validate_transactions l) = accepted_of ∅ l) as Hval.
  { intros l. apply (validate_loop_mask l ∅). }
  split; [|split; [|split]].
  - rewrite !Hval. apply accepted_of_skip_negative. exact Hn.
  - intros q p k. unfold filter_transactions.
    destruct (parse_q parse_date q) as [pq|]; simpl; [|reflexivity].
    destruct (parse_p parse_date p) as [pp|]; simpl; [|reflexivity].
    destruct (parse_k parse_date k) as [pk|]; simpl; [|reflexivity].
    rewrite !filter_loop_mask.
    fold (accepted_of ∅ (pre ++ neg :: post)) (accepted_of ∅ (pre ++ post)).
    rewrite (accepted_of_skip_negative _ _ _ _ Hn).
    destruct (mapM _ _); reflexivity.
  - intros payload rate is_nps. unfold calculate_returns. simpl.
    destruct (parse_q parse_date (q payload)) as [pq|]; simpl; [|reflexivity].
    destruct (parse_p parse_date (p payload)) as [pp|]; simpl; [|reflexivity].
    destruct (parse_k_returns parse_date (k payload)) as [pk|]; simpl;
      [|reflexivity].
    rewrite !returns_loop_mask. simpl.
    fold (accepted_of ∅ (pre ++ neg :: post)) (accepted_of ∅ (pre ++ post)).
    rewrite (accepted_of_skip_negative _ _ _ _ Hn). reflexivity.
  - intros mid tx post' -> Hd Hnt Hall.
    assert (accepted_of ∅ (pre ++ neg :: mid ++ tx :: post')
            = accepted_of ∅ (pre ++ neg :: mid)
              ++ tx :: accepted_of
                         ({[date tx]}
                          ∪ (dates_of_non_negative (pre ++ neg :: mid) ∪ ∅))
                         post') as Hacc.
    { replace (pre ++ neg :: mid ++ tx :: post')
        with ((pre ++ neg :: mid) ++ tx :: post')
        by (rewrite <- app_assoc; reflexivity).
      apply accepted_of_fresh; [exact Hnt|].
      intros t' Hin Ht'. apply in_app_or in Hin as [Hin|[<-|Hin]].
      - apply Hall; [apply in_or_app; left; exact Hin|exact Ht'].
      - exact Hn.
      - apply Hall; [apply in_or_app; right; exact Hin|exact Ht']. }
    split; [|split].
    + rewrite !Hval, Hacc. eauto.
    + intros q p k rf. unfold filter_transactions.
      destruct (parse_q parse_date q) as [pq|]; simpl; [|discriminate].
      destruct (parse_p parse_date p) as [pp|]; simpl; [|discriminate].
      destruct (parse_k parse_date k) as [pk|]; simpl; [|discriminate].
      rewrite filter_loop_mask.
      fold (accepted_of ∅ (pre ++ neg :: mid ++ tx :: post')). rewrite Hacc.
      destruct (mapM _ _) as [v|] eqn:Hv; simpl; [|discriminate].
      intros [= <-]. simpl.
      apply mapM_Some, Forall2_app_inv_l in Hv as (v1 & v2 & _ & H2 & ->).
      apply Forall2_cons_inv_l in H2 as (tx' & v2' & Hres & _ & ->).
      exists tx', v1, v2'. split; [reflexivity|].
      apply (resolved_keeps _ _ _ _ _ _ Hres).
    + intros parsed_q parsed_p st. rewrite returns_loop_mask. simpl.
      fold (accepted_of ∅ (pre ++ neg :: mid ++ tx :: post')). rewrite Hacc.
      apply accept_all_at.
Qed.

End Returns.

Lemma negative_does_not_mark_seen_witness :
  let neg := Sample.transaction "2023-06-01 10:00:00" (-10) 0 0 in
  let tx := Sample.transaction "2023-06-01 10:00:00" 50 100 50 in
  is_negative neg = true
  /\ valid (validate_transactions [neg; tx]) = valid (validate_transactions [tx])
  /\ (valid <$> filter_transactions Sample.parse_date [] [] [] [neg; tx]
      = valid <$> filter_transactions Sample.parse_date [] [] [] [tx])
  /\ (Sample.returns (set_transactions [neg; tx] Sample.request)
        (Sample.float_of_Decimal (Decimal.dec 711 4)) true
      = Sample.returns (set_transactions [tx] Sample.request)
          (Sample.float_of_Decimal (Decimal.dec 711 4)) true)
  /\ (exists rest,
        valid (validate_transactions [neg; tx])
        = valid (validate_transactions [neg]) ++ tx :: rest).
Proof.
  intros neg tx.
  assert (is_negative neg = true) as Hneg by reflexivity.
  destruct (negative_does_not_mark_seen Sample.parse_date Sample.float
              Sample.float_of_Decimal Sample.fadd Sample.fmul Sample.fdiv
              Sample.fpow Sample.Decimal_of_str [] [tx] neg Hneg)
    as (Hv & Hf & Hr & Hlater).
  split; [exact Hneg|]. split; [exact Hv|].
  split; [exact (Hf [] [] [])|]. split; [apply Hr|].
  assert (forall t', In t' ([] ++ []) -> date t' = date tx ->
                     is_negative t' = true) as Hnone
    by (intros t' []).
  exact (proj1 (Hlater [] tx [] eq_refl eq_refl eq_refl Hnone)).
Defined.

(** ** Decimal arithmetic: when an operation is exact *)

Module DecimalFacts.

Import Decimal Rounding.

Lemma pow10_pos (k : Z) : 0 <= k -> 0 < 10 ^ k.
Proof. intros. apply Z.pow_pos_nonneg; lia. Qed.

Lemma size_nat_bound (p : positive) :
  Z.pos p < 2 ^ Z.of_nat (Pos.size_nat p).
Proof.
  induction p as [p IH|p IH|]; cbn [Pos.size_nat];
    rewrite ?Nat2Z.inj_succ, ?Z.pow_succ_r by lia; lia.
Qed.

Lemma ndigits_fuel_spec (fuel : nat) (n : Z) :
  0 < n < 2 ^ Z.of_nat fuel ->
  10 ^ (ndigits_fuel fuel n - 1) <= n < 10 ^ ndigits_fuel fuel n
  /\ 1 <= ndigits_fuel fuel n.
Proof.
  revert n. induction fuel as [|fuel IH]; intros n Hn.
  - simpl in Hn. lia.
  - cbn [ndigits_fuel]. destruct (Z.ltb_spec n 10) as [Hlt|Hge].
    + simpl. lia.
    + rewrite Nat2Z.inj_succ, Z.pow_succ_r in Hn by lia.
      assert (0 < n / 10 < 2 ^ Z.of_nat fuel) as Hq.
      { split; [apply Z.div_str_pos; lia|].
        apply Z.div_lt_upper_bound; lia. }
      destruct (IH _ Hq) as [[Hlo Hhi] H1].
      replace (1 + ndigits_fuel fuel (n / 10) - 1)
        with (Z.succ (ndigits_fuel fuel (n / 10) - 1)) by lia.
      replace (1 + ndigits_fuel fuel (n / 10))
        with (Z.succ (ndigits_fuel fuel (n / 10))) by lia.
      rewrite !Z.pow_succ_r by lia.
      pose proof (Z.div_mod n 10 ltac:(lia)).
      pose proof (Z.mod_pos_bound n 10 ltac:(lia)). lia.
Qed.

(** [ndigits n] is the number of decimal digits of a positive [n]. *)
Lemma ndigits_spec (n : Z) :
  0 < n -> 10 ^ (ndigits n - 1) <= n < 10 ^ ndigits n /\ 1 <= ndigits n.
Proof.
  intros Hn. destruct n as [|p|p]; try lia.
  unfold ndigits. apply ndigits_fuel_spec. split; [lia|apply size_nat_bound].
Qed.

Lemma ndigits_ge_1 (n : Z) : 1 <= ndigits n.
Proof.
  destruct n as [|p|p]; simpl; try lia.
  apply (ndigits_spec (Z.pos p)). lia.
Qed.

Lemma ndigits_le (n k : Z) : 0 <= n < 10 ^ k -> 1 <= k -> ndigits n <= k.
Proof.
  intros [H0 Hk] H1. destruct (Z.eq_dec n 0) as [->|Hne]; [simpl; lia|].
  destruct (ndigits_spec n ltac:(lia)) as [[Hlo _] Hd].
  destruct (Z.le_gt_cases (ndigits n) k) as [|Hgt]; [assumption|exfalso].
  assert (10 ^ k <= 10 ^ (ndigits n - 1)) by (apply Z.pow_le_mono_r; lia).
  lia.
Qed.

(** A number that fits the precision and the exponent range is left as
    it is. *)
Lemma fix_exact (c e : Z) :
  Z.abs c < 10 ^ prec -> Etiny <= e <= Etop -> _fix (mk c e) = Some (mk c e).
Proof.
  intros Hc He. unfold _fix. cbn [coeff exp].
  destruct (Z.eqb_spec c 0) as [->|Hne].
  - f_equal. f_equal. unfold Etop, Emax, Etiny, Emin, prec in *. lia.
  - assert (ndigits (Z.abs c) <= prec) as Hd
        by (apply ndigits_le; unfold prec in *; lia).
    pose proof (ndigits_ge_1 (Z.abs c)).
    destruct (Z.ltb_spec Etop (ndigits (Z.abs c) + e - prec)); [lia|].
    destruct (Z.ltb_spec e (Z.max (ndigits (Z.abs c) + e - prec) Etiny));
      [lia|reflexivity].
Qed.

(** *** The value of a decimal *)

Local Open Scope Q_scope.

Lemma ten_neq_0 : ~ (10 # 1) == 0.
Proof. discriminate. Qed.

Lemma Qpow10_pos (e : Z) : 0 < (10 # 1) ^ e.
Proof. apply Qpower_0_lt. reflexivity. Qed.

Lemma Qpow10_inject (k : Z) : (0 <= k)%Z -> inject_Z (10 ^ k) == (10 # 1) ^ k.
Proof. intros. apply (Zpower_Qpower 10 k). assumption. Qed.

(** Padding the coefficient with [k] zeros and lowering the exponent
    by [k] keeps the value. *)
Lemma value_pad (c e k : Z) :
  (0 <= k)%Z -> value (mk (c * 10 ^ k) (e - k)) == value (mk c e).
Proof.
  intros Hk. unfold value. cbn [coeff exp].
  rewrite inject_Z_mult, Qpow10_inject by assumption.
  rewrite <- Qmult_assoc, <- Qpower_plus by apply ten_neq_0.
  replace (k + (e - k))%Z with e by lia. reflexivity.
Qed.

Lemma value_align (a b : t) :
  let '(ca, cb, e) := align a b in
  value a == inject_Z ca * (10 # 1) ^ e /\ value b == inject_Z cb * (10 # 1) ^ e.
Proof.
  unfold align. split.
  - rewrite <- (value_pad (coeff a) (exp a) (exp a - Z.min (exp a) (exp b)))
      by lia.
    unfold value. cbn [coeff exp].
    replace (exp a - (exp a - Z.min (exp a) (exp b)))%Z
      with (Z.min (exp a) (exp b)) by lia.
    reflexivity.
  - rewrite <- (value_pad (coeff b) (exp b) (exp b - Z.min (exp a) (exp b)))
      by lia.
    unfold value. cbn [coeff exp].
    replace (exp b - (exp b - Z.min (exp a) (exp b)))%Z
      with (Z.min (exp a) (exp b)) by lia.
    reflexivity.
Qed.

Lemma value_neg (a : t) : value (neg a) == - value a.
Proof.
  unfold value, neg. cbn [coeff exp]. rewrite inject_Z_opp. ring.
Qed.

Lemma value_add_exact (a b : t) : value (add_exact a b) == value a + value b.
Proof.
  pose proof (value_align a b) as H. unfold add_exact.
  destruct (align a b) as [[ca cb] e]. destruct H as [-> ->].
  unfold value. cbn [coeff exp]. rewrite inject_Z_plus. ring.
Qed.

Lemma value_sub_exact (a b : t) : value (sub_exact a b) == value a - value b.
Proof.
  unfold sub_exact. rewrite value_add_exact, value_neg. ring.
Qed.

Lemma value_mul_exact (a b : t) : value (mul_exact a b) == value a * value b.
Proof.
  unfold value, mul_exact. cbn [coeff exp].
  rewrite inject_Z_mult, Qpower_plus by apply ten_neq_0. ring.
Qed.

Lemma value_of_Z (n : Z) : value (of_Z n) == inject_Z n.
Proof. unfold value, of_Z. cbn [coeff exp]. simpl. ring. Qed.

(** The comparisons decide the order of the values. *)
Lemma ltb_value (a b : t) : ltb a b = true <-> value a < value b.
Proof.
  pose proof (value_align a b) as H. unfold ltb.
  destruct (align a b) as [[ca cb] e]. destruct H as [-> ->].
  rewrite Z.ltb_lt, Zlt_Qlt. pose proof (Qpow10_pos e) as Hp. split.
  - intros H. apply Qmult_lt_compat_r; assumption.
  - intros H. apply Qmult_lt_r in H; assumption.
Qed.

Lemma leb_value (a b : t) : leb a b = true <-> value a <= value b.
Proof.
  pose proof (value_align a b) as H. unfold leb.
  destruct (align a b) as [[ca cb] e]. destruct H as [-> ->].
  rewrite Z.leb_le, Zle_Qle. pose proof (Qpow10_pos e) as Hp. split.
  - intros H. apply Qmult_le_compat_r; [assumption|apply Qlt_le_weak, Hp].
  - intros H. apply Qmult_le_r in H; assumption.
Qed.

Lemma eqb_value (a b : t) : eqb a b = true <-> value a == value b.
Proof.
  pose proof (value_align a b) as H. unfold eqb.
  destruct (align a b) as [[ca cb] e]. destruct H as [-> ->].
  rewrite Z.eqb_eq. pose proof (Qpow10_pos e) as Hp. split.
  - intros ->. reflexivity.
  - intros H. apply Qmult_inj_r in H; [|intros E; rewrite E in Hp; discriminate].
    apply inject_Z_injective. assumption.
Qed.

Lemma ltb_false_value (a b : t) : ltb a b = false <-> value b <= value a.
Proof.
  rewrite <- Bool.not_true_iff_false, ltb_value. split.
  - apply Qnot_lt_le.
  - apply Qle_not_lt.
Qed.

Local Close Scope Q_scope.

(** *** Rounding *)

Lemma round_div_bounds (r : rounding) (n k : Z) :
  0 <= n -> 0 <= k ->
  n / 10 ^ k <= round_div r n k <= n / 10 ^ k + 1.
Proof.
  intros Hn Hk. unfold round_div.
  destruct r;
    [destruct (_ || _)|destruct (Z.leb_spec (10 ^ k) (2 * (n mod 10 ^ k)))]; lia.
Qed.

Lemma round_div_0 (r : rounding) (k : Z) : 0 <= k -> round_div r 0 k = 0.
Proof.
  intros Hk. pose proof (pow10_pos k Hk). unfold round_div.
  rewrite Z.div_0_l, Z.mod_0_l by lia.
  replace (2 * 0) with 0 by lia.
  destruct (Z.leb_spec (10 ^ k) 0); [lia|].
  destruct (Z.ltb_spec (10 ^ k) 0); [lia|].
  destruct (Z.eqb_spec (10 ^ k) 0); [lia|].
  destruct r; reflexivity.
Qed.

Lemma round_div_exact (r : rounding) (n : Z) : round_div r n 0 = n.
Proof.
  unfold round_div. rewrite Z.pow_0_r, Z.div_1_r, Z.mod_1_r.
  destruct r; reflexivity.
Qed.

(** Half-up rounding of a non-negative quotient, as a floor. *)
Lemma round_half_up_floor (n k : Z) :
  0 <= n -> 0 <= k ->
  round_div ROUND_HALF_UP n k = (2 * n + 10 ^ k) / (2 * 10 ^ k).
Proof.
  intros Hn Hk. pose proof (pow10_pos k Hk) as Hp.
  unfold round_div.
  pose proof (Z.div_mod n (10 ^ k) ltac:(lia)) as Hdm.
  pose proof (Z.mod_pos_bound n (10 ^ k) Hp) as Hm.
  destruct (Z.leb_spec (10 ^ k) (2 * (n mod 10 ^ k))).
  - apply (Z.div_unique _ _ _ (2 * (n mod 10 ^ k) - 10 ^ k)); nia.
  - apply (Z.div_unique _ _ _ (2 * (n mod 10 ^ k) + 10 ^ k)); nia.
Qed.

(** When [quantize] to two places succeeds on a non-negative number. *)
Lemma quantize_two_places (c e : Z) :
  0 <= c < 10 ^ prec -> Etiny <= e <= -2 ->
  quantize (mk c e) (-2) ROUND_HALF_UP
  = Some (mk (round_div ROUND_HALF_UP c (-2 - e)) (-2)).
Proof.
  intros Hc He. unfold quantize. cbn [coeff exp].
  assert ((Etiny <=? -2) && (-2 <=? Emax) = true) as -> by reflexivity.
  cbn [negb].
  assert (Etiny <= -2 <= Etop) as Hr by (unfold Etiny, Etop, Emin, Emax, prec; lia).
  destruct (Z.eqb_spec c 0) as [->|Hne].
  { rewrite round_div_0 by lia. apply fix_exact; [reflexivity|exact Hr]. }
  assert (ndigits (Z.abs c) <= prec) as Hd
      by (apply ndigits_le; unfold prec in *; lia).
  pose proof (ndigits_ge_1 (Z.abs c)) as Hd1.
  unfold adjusted. cbn [coeff exp].
  destruct (Z.ltb_spec Emax (e + ndigits (Z.abs c) - 1));
    [unfold Emax, prec in *; lia|].
  destruct (Z.ltb_spec prec (e + ndigits (Z.abs c) - 1 - -2 + 1)); [lia|].
  assert (0 <= round_div ROUND_HALF_UP c (-2 - e) < 10 ^ prec) as Hb.
  { pose proof (round_div_bounds ROUND_HALF_UP c (-2 - e) ltac:(lia) ltac:(lia)) as B.
    destruct (Z.eq_dec e (-2)) as [->|Hne2].
    - rewrite round_div_exact. lia.
    - assert (c / 10 ^ (-2 - e) <= c / 10 ^ 1) as Hq.
      { apply Z.div_le_compat_l; [lia|].
        split; [lia|apply Z.pow_le_mono_r; lia]. }
      assert (0 <= c / 10 ^ (-2 - e))
        by (apply Z.div_pos; [lia|apply pow10_pos; lia]).
      assert (c / 10 ^ 1 < 10 ^ (prec - 1)).
      { apply Z.div_lt_upper_bound; [lia|].
        change (10 ^ 1 * 10 ^ (prec - 1)) with (10 ^ prec). lia. }
      assert (10 ^ (prec - 1) + 1 < 10 ^ prec) by reflexivity. lia. }
  assert (_rescale (mk c e) (-2) ROUND_HALF_UP
          = mk (round_div ROUND_HALF_UP c (-2 - e)) (-2)) as ->.
  { unfold _rescale. cbn [coeff exp].
    destruct (Z.eqb_spec c 0) as [|_]; [contradiction|].
    destruct (Z.leb_spec (-2) e).
    - assert (e = -2) as -> by lia. rewrite round_div_exact.
      f_equal. simpl. lia.
    - rewrite Z.abs_eq, Z.sgn_pos by lia. f_equal. lia. }
  cbn [coeff exp].
  assert (ndigits (Z.abs (round_div ROUND_HALF_UP c (-2 - e))) <= prec) as Hd2
      by (apply ndigits_le; [rewrite Z.abs_eq by lia; lia|unfold prec; lia]).
  pose proof (ndigits_ge_1 (Z.abs (round_div ROUND_HALF_UP c (-2 - e)))).
  destruct (Z.ltb_spec Emax (-2 + ndigits (Z.abs (round_div ROUND_HALF_UP c (-2 - e))) - 1));
    [unfold Emax, prec in *; lia|].
  destruct (Z.ltb_spec prec (ndigits (Z.abs (round_div ROUND_HALF_UP c (-2 - e)))));
    [lia|].
  apply fix_exact; [rewrite Z.abs_eq by lia; lia|exact Hr].
Qed.

(** *** Rounding is monotone *)

Lemma round_div_mono (r : rounding) (n n' k : Z) :
  0 <= n <= n' -> 0 <= k -> round_div r n k <= round_div r n' k.
Proof.
  intros Hn Hk. pose proof (pow10_pos k Hk) as Hp.
  unfold round_div. set (p := 10 ^ k) in *.
  pose proof (Z.div_mod n p ltac:(lia)) as Dn.
  pose proof (Z.div_mod n' p ltac:(lia)) as Dn'.
  pose proof (Z.mod_pos_bound n p Hp) as Mn.
  pose proof (Z.mod_pos_bound n' p Hp) as Mn'.
  assert (n / p <= n' / p) as Hq by (apply Z.div_le_mono; lia).
  destruct (Z.eq_dec (n / p) (n' / p)) as [Eq|Ne].
  - assert (n mod p <= n' mod p) as Hm by nia.
    rewrite <- Eq. destruct r.
    + destruct (Z.ltb_spec p (2 * (n mod p)));
        destruct (Z.ltb_spec p (2 * (n' mod p))); cbn [orb]; try lia;
        destruct (Z.eqb_spec p (2 * (n mod p)));
        destruct (Z.eqb_spec p (2 * (n' mod p)));
        cbn [andb]; destruct (Z.odd (n / p)); lia.
    + destruct (Z.leb_spec p (2 * (n mod p)));
        destruct (Z.leb_spec p (2 * (n' mod p))); lia.
  - assert (n / p + 1 <= n' / p) by lia.
    destruct r;
      [destruct (_ || _); destruct (_ || _)
      |destruct (Z.leb_spec p (2 * (n mod p)));
       destruct (Z.leb_spec p (2 * (n' mod p)))]; lia.
Qed.

(** Appending [j] zeros and dropping [j] more digits changes nothing. *)
Lemma round_div_scale (r : rounding) (n k j : Z) :
  0 <= k -> 0 <= j -> round_div r (n * 10 ^ j) (k + j) = round_div r n k.
Proof.
  intros Hk Hj. pose proof (pow10_pos k Hk) as Hp.
  pose proof (pow10_pos j Hj) as HJ.
  unfold round_div. rewrite Z.pow_add_r by lia.
  set (p := 10 ^ k) in *. set (J := 10 ^ j) in *.
  rewrite Z.div_mul_cancel_r by lia.
  rewrite Z.mul_mod_distr_r by lia.
  pose proof (Z.mod_pos_bound n p Hp) as Mn.
  destruct r.
  - replace (p * J <? 2 * (n mod p * J)) with (p <? 2 * (n mod p)).
    + replace (p * J =? 2 * (n mod p * J)) with (p =? 2 * (n mod p)); [reflexivity|].
      destruct (Z.eqb_spec p (2 * (n mod p)));
        destruct (Z.eqb_spec (p * J) (2 * (n mod p * J))); try reflexivity; nia.
    + destruct (Z.ltb_spec p (2 * (n mod p)));
        destruct (Z.ltb_spec (p * J) (2 * (n mod p * J))); try reflexivity; nia.
  - replace (p * J <=? 2 * (n mod p * J)) with (p <=? 2 * (n mod p)); [reflexivity|].
    destruct (Z.leb_spec p (2 * (n mod p)));
      destruct (Z.leb_spec (p * J) (2 * (n mod p * J))); try reflexivity; nia.
Qed.

(** Dropping [k] zeros is exact. *)
Lemma round_div_mult (r : rounding) (m k : Z) :
  0 <= k -> round_div r (m * 10 ^ k) k = m.
Proof.
  intros Hk. pose proof (pow10_pos k Hk) as Hp.
  unfold round_div. rewrite Z.div_mul, Z.mod_mul by lia.
  replace (2 * 0) with 0 by lia.
  destruct (Z.leb_spec (10 ^ k) 0); [lia|].
  destruct (Z.ltb_spec (10 ^ k) 0); [lia|].
  destruct (Z.eqb_spec (10 ^ k) 0); [lia|].
  destruct r; reflexivity.
Qed.

Lemma round_to_below (r : rounding) (c e E s : Z) :
  s <= e -> e <= E -> round_to r c e E s = round_div r c (E - e).
Proof.
  intros Hs He. unfold round_to.
  replace (E - s) with ((E - e) + (e - s)) by lia.
  apply round_div_scale; lia.
Qed.

Lemma round_to_above (r : rounding) (c e E s : Z) :
  s <= E -> E <= e -> round_to r c e E s = c * 10 ^ (e - E).
Proof.
  intros Hs He. unfold round_to.
  replace (e - s) with ((e - E) + (E - s)) by lia.
  rewrite Z.pow_add_r, Z.mul_assoc by lia.
  apply round_div_mult. lia.
Qed.

(** *** Rounding to the precision is monotone *)

Lemma pow10_le (a b : Z) : 0 <= a <= b -> 10 ^ a <= 10 ^ b.
Proof. intros. apply Z.pow_le_mono_r; lia. Qed.

Lemma pow10_lt_inv (a b : Z) : 0 <= b -> 10 ^ a < 10 ^ b -> a < b.
Proof. intros Hb H. apply (Z.pow_lt_mono_r_iff 10); lia. Qed.

Lemma pow10_split (a b : Z) : 0 <= a -> 0 <= b -> 10 ^ (a + b) = 10 ^ a * 10 ^ b.
Proof. intros. apply Z.pow_add_r; lia. Qed.

(** The core of the argument, on integers: [XA <= XB] rounded by [ka]
    and by [kb >= ka] digits, where [XA] has at most [ka + prec] digits
    and, if [ka < kb], [XB] has more than [kb + prec - 1]. *)
Lemma round_scaled_mono (XA XB ka kb : Z) :
  0 <= XA <= XB -> 0 <= ka <= kb ->
  XA < 10 ^ (ka + prec) ->
  (ka < kb -> 10 ^ (kb + (prec - 1)) <= XB) ->
  round_div ROUND_HALF_EVEN XA ka * 10 ^ ka
  <= round_div ROUND_HALF_EVEN XB kb * 10 ^ kb.
Proof.
  intros HX Hk HA HB.
  pose proof (pow10_pos ka ltac:(lia)) as Hpa.
  pose proof (pow10_pos kb ltac:(lia)) as Hpb.
  destruct (Z.eq_dec ka kb) as [<-|Hne].
  - apply Z.mul_le_mono_nonneg_r; [lia|].
    apply round_div_mono; lia.
  - specialize (HB ltac:(lia)).
    pose proof (round_div_bounds ROUND_HALF_EVEN XA ka ltac:(lia) ltac:(lia)) as BA.
    pose proof (round_div_bounds ROUND_HALF_EVEN XB kb ltac:(lia) ltac:(lia)) as BB.
    assert (XA / 10 ^ ka < 10 ^ prec) as QA.
    { apply Z.div_lt_upper_bound; [lia|].
      rewrite <- pow10_split by (unfold prec; lia). exact HA. }
    assert (10 ^ (prec - 1) <= XB / 10 ^ kb) as QB.
    { apply Z.div_le_lower_bound; [lia|].
      rewrite <- pow10_split by (unfold prec; lia). exact HB. }
    assert (10 ^ prec * 10 ^ ka <= 10 ^ (prec - 1) * 10 ^ kb) as Hmid.
    { rewrite <- !pow10_split by (unfold prec; lia).
      apply pow10_le. unfold prec. lia. }
    assert (0 < 10 ^ prec) by reflexivity.
    assert (0 < 10 ^ (prec - 1)) by reflexivity.
    transitivity (10 ^ prec * 10 ^ ka); [nia|].
    transitivity (10 ^ (prec - 1) * 10 ^ kb); [exact Hmid|nia].
Qed.

(** More digits before the decimal point, larger value: the position of
    the leading digit is monotone. *)
Lemma digits_scaled_mono (ca ea cb eb s : Z) :
  0 < ca -> 0 < cb -> s <= ea -> s <= eb ->
  ca * 10 ^ (ea - s) <= cb * 10 ^ (eb - s) ->
  ndigits ca + ea <= ndigits cb + eb.
Proof.
  intros Ha Hb Hsa Hsb Hle.
  destruct (ndigits_spec ca Ha) as [[La _] Na].
  destruct (ndigits_spec cb Hb) as [[_ Ub] Nb].
  pose proof (pow10_pos (ea - s) ltac:(lia)) as Hpa.
  pose proof (pow10_pos (eb - s) ltac:(lia)) as Hpb.
  assert (10 ^ (ndigits ca - 1 + (ea - s)) < 10 ^ (ndigits cb + (eb - s))) as H.
  { rewrite !pow10_split by lia. nia. }
  apply pow10_lt_inv in H; lia.
Qed.

Lemma quotient_below_precision (c e : Z) :
  0 < c -> e <= quantum c e -> c / 10 ^ (quantum c e - e) < 10 ^ prec.
Proof.
  intros Hc He. unfold quantum in *.
  destruct (ndigits_spec c Hc) as [[_ Hu] Hn].
  set (E := Z.max (ndigits c + e - prec) Etiny) in *.
  pose proof (pow10_pos (E - e) ltac:(lia)) as Hp.
  apply Z.div_lt_upper_bound; [lia|].
  rewrite <- pow10_split by (unfold prec; lia).
  eapply Z.lt_le_trans; [exact Hu|]. apply pow10_le. lia.
Qed.

(** The result of [_fix] on a positive coefficient, as an integer at
    any scale [s] below the exponents. *)
Lemma fix_pos (c e s : Z) (r : t) :
  0 < c -> _fix (mk c e) = Some r -> s <= e -> s <= quantum c e ->
  coeff r * 10 ^ (exp r - s)
  = round_to ROUND_HALF_EVEN c e (quantum c e) s * 10 ^ (quantum c e - s)
  /\ s <= exp r /\ 0 <= coeff r.
Proof.
  intros Hc Hfix Hs HsE. unfold _fix in Hfix. cbn [coeff exp] in Hfix.
  destruct (Z.eqb_spec c 0) as [|_]; [lia|].
  rewrite (Z.abs_eq c), (Z.sgn_pos c) in Hfix by lia.
  destruct (Z.ltb_spec Etop (ndigits c + e - prec)); [discriminate|].
  fold (quantum c e) in Hfix. set (E := quantum c e) in *.
  destruct (Z.ltb_spec e E) as [Hlt|Hge].
  - rewrite round_to_below by lia.
    pose proof (quotient_below_precision c e Hc ltac:(fold E; lia)) as Hq.
    fold E in Hq.
    pose proof (round_div_bounds ROUND_HALF_EVEN c (E - e) ltac:(lia) ltac:(lia)) as B.
    pose proof (pow10_pos (E - e) ltac:(lia)) as Hp.
    assert (0 <= c / 10 ^ (E - e)) by (apply Z.div_pos; lia).
    set (c' := round_div ROUND_HALF_EVEN c (E - e)) in *.
    destruct (Z.leb_spec (10 ^ prec) c') as [Hcarry|Hno].
    + destruct (Z.ltb_spec Etop (E + 1)); [discriminate|].
      injection Hfix as <-. cbn [coeff exp].
      assert (c' = 10 ^ prec) as -> by lia.
      split; [|split; [lia|]].
      * replace (E + 1 - s) with (1 + (E - s)) by lia.
        rewrite pow10_split by lia.
        change (10 ^ prec / 10) with (10 ^ (prec - 1)).
        change (10 ^ prec) with (10 ^ (prec - 1) * 10 ^ 1). ring.
      * change (10 ^ prec / 10) with (10 ^ (prec - 1)).
        rewrite Z.mul_1_l. apply Z.lt_le_incl. reflexivity.
    + destruct (Z.ltb_spec Etop E); [discriminate|].
      injection Hfix as <-. cbn [coeff exp].
      split; [rewrite Z.mul_1_l; reflexivity|]. split; lia.
  - injection Hfix as <-. cbn [coeff exp].
    rewrite round_to_above by lia.
    split; [|split; lia].
    rewrite <- Z.mul_assoc, <- pow10_split by lia.
    f_equal. f_equal. lia.
Qed.

Lemma fix_zero (e : Z) (r : t) : _fix (mk 0 e) = Some r -> coeff r = 0.
Proof. unfold _fix. cbn [coeff exp]. intros [= <-]. reflexivity. Qed.

Lemma fix_mono_pos (ca ea cb eb s : Z) (ra rb : t) :
  0 < ca -> 0 < cb -> s <= ea -> s <= eb ->
  s <= quantum ca ea -> s <= quantum cb eb ->
  ca * 10 ^ (ea - s) <= cb * 10 ^ (eb - s) ->
  _fix (mk ca ea) = Some ra -> _fix (mk cb eb) = Some rb ->
  coeff ra * 10 ^ (exp ra - s) <= coeff rb * 10 ^ (exp rb - s).
Proof.
  intros Ha Hb Hsa Hsb HsA HsB Hle Hfa Hfb.
  destruct (fix_pos ca ea s ra Ha Hfa Hsa HsA) as (-> & _ & _).
  destruct (fix_pos cb eb s rb Hb Hfb Hsb HsB) as (-> & _ & _).
  pose proof (digits_scaled_mono ca ea cb eb s Ha Hb Hsa Hsb Hle) as Hd.
  destruct (ndigits_spec ca Ha) as [[_ Ua] Na].
  destruct (ndigits_spec cb Hb) as [[Lb _] Nb].
  pose proof (pow10_pos (ea - s) ltac:(lia)) as Hpa.
  pose proof (pow10_pos (eb - s) ltac:(lia)) as Hpb.
  unfold round_to, quantum in *.
  set (EA := Z.max (ndigits ca + ea - prec) Etiny) in *.
  set (EB := Z.max (ndigits cb + eb - prec) Etiny) in *.
  apply round_scaled_mono.
  - nia.
  - subst EA EB. lia.
  - apply Z.lt_le_trans with (10 ^ (ndigits ca + (ea - s))).
    + rewrite pow10_split by lia. nia.
    + apply pow10_le. subst EA. unfold prec in *. lia.
  - intros Hk.
    assert (EB = ndigits cb + eb - prec) as -> by (subst EA EB; lia).
    replace (ndigits cb + eb - prec - s + (prec - 1))
      with ((ndigits cb - 1) + (eb - s)) by lia.
    rewrite pow10_split by lia. nia.
Qed.

Local Open Scope Q_scope.

Lemma value_scaled (d : t) (s : Z) :
  (s <= exp d)%Z ->
  value d == inject_Z (coeff d * 10 ^ (exp d - s)) * (10 # 1) ^ s.
Proof.
  intros Hs. destruct d as [c e]. cbn [coeff exp] in *.
  rewrite <- (value_pad c e (e - s)) by lia.
  unfold value. cbn [coeff exp].
  replace (e - (e - s))%Z with s by lia. reflexivity.
Qed.

Lemma value_le_scaled (a b : t) (s : Z) :
  (s <= exp a)%Z -> (s <= exp b)%Z ->
  (value a <= value b
   <-> (coeff a * 10 ^ (exp a - s) <= coeff b * 10 ^ (exp b - s))%Z).
Proof.
  intros Ha Hb. rewrite (value_scaled a s Ha), (value_scaled b s Hb).
  rewrite Zle_Qle. pose proof (Qpow10_pos s) as Hp. split.
  - intros H. apply Qmult_le_r in H; assumption.
  - intros H. apply Qmult_le_compat_r; [assumption|apply Qlt_le_weak, Hp].
Qed.

Lemma value_nonneg (d : t) : (0 <= coeff d)%Z <-> 0 <= value d.
Proof.
  unfold value. pose proof (Qpow10_pos (exp d)) as Hp. split.
  - intros H. apply Qmult_le_0_compat; [|apply Qlt_le_weak, Hp].
    change (inject_Z 0 <= inject_Z (coeff d)). rewrite <- Zle_Qle. exact H.
  - intros H. rewrite <- (Qmult_0_l ((10 # 1) ^ exp d)) in H.
    apply Qmult_le_r in H; [|exact Hp].
    change (inject_Z 0 <= inject_Z (coeff d)) in H. rewrite <- Zle_Qle in H.
    exact H.
Qed.

Lemma value_pos (d : t) : (0 < coeff d)%Z <-> 0 < value d.
Proof.
  unfold value. pose proof (Qpow10_pos (exp d)) as Hp. split.
  - intros H. apply Qmult_lt_0_compat; [|exact Hp].
    change (inject_Z 0 < inject_Z (coeff d)). rewrite <- Zlt_Qlt. exact H.
  - intros H. rewrite <- (Qmult_0_l ((10 # 1) ^ exp d)) in H.
    apply Qmult_lt_r in H; [|exact Hp].
    change (inject_Z 0 < inject_Z (coeff d)) in H. rewrite <- Zlt_Qlt in H.
    exact H.
Qed.

(** [_fix] keeps the order of numbers that are not negative. *)
Lemma fix_mono (a b ra rb : t) :
  (0 <= coeff a)%Z -> value a <= value b ->
  _fix a = Some ra -> _fix b = Some rb ->
  value ra <= value rb /\ (0 <= coeff ra)%Z /\ (0 <= coeff rb)%Z.
Proof.
  intros Ha Hab Hfa Hfb.
  assert (0 <= coeff b)%Z as Hb.
  { apply value_nonneg. apply value_nonneg in Ha. lra. }
  destruct a as [ca ea], b as [cb eb]. cbn [coeff] in Ha, Hb.
  assert (forall c e r, (0 <= c)%Z -> _fix (mk c e) = Some r -> (0 <= coeff r)%Z)
    as Hsign.
  { intros c e r Hc Hf. destruct (Z.eq_dec c 0%Z) as [->|Hne].
    - rewrite (fix_zero e r Hf). lia.
    - assert (Z.min e (quantum c e) <= e)%Z as H1 by lia.
      assert (Z.min e (quantum c e) <= quantum c e)%Z as H2 by lia.
      apply (fix_pos c e _ r ltac:(lia) Hf H1 H2). }
  pose proof (Hsign _ _ _ Ha Hfa) as Hra.
  pose proof (Hsign _ _ _ Hb Hfb) as Hrb.
  split; [|split; assumption].
  destruct (Z.eq_dec ca 0%Z) as [->|Hne].
  { apply fix_zero in Hfa. apply value_nonneg in Hrb.
    unfold value at 1. rewrite Hfa. change (inject_Z 0) with 0.
    rewrite Qmult_0_l. exact Hrb. }
  assert (0 < ca)%Z as Hca by lia.
  assert (0 < cb)%Z as Hcb.
  { apply (value_pos (mk cb eb)).
    apply (proj1 (value_pos (mk ca ea))) in Hca. lra. }
  set (s := Z.min (Z.min ea eb) (Z.min (quantum ca ea) (quantum cb eb))).
  destruct (fix_pos ca ea s ra Hca Hfa ltac:(lia) ltac:(lia)) as (_ & Hsa & _).
  destruct (fix_pos cb eb s rb Hcb Hfb ltac:(lia) ltac:(lia)) as (_ & Hsb & _).
  apply (value_le_scaled ra rb s Hsa Hsb).
  apply (fix_mono_pos ca ea cb eb s); try assumption; try lia.
  apply (value_le_scaled (mk ca ea) (mk cb eb) s); cbn [exp]; try lia.
  exact Hab.
Qed.

Local Close Scope Q_scope.

(** *** [quantize] is monotone *)

Lemma ndigits_bound (n : Z) : 0 <= n -> ndigits n <= prec -> n < 10 ^ prec.
Proof.
  intros Hn Hd. destruct (Z.eq_dec n 0) as [->|Hne]; [reflexivity|].
  destruct (ndigits_spec n ltac:(lia)) as [[_ Hu] H1].
  eapply Z.lt_le_trans; [exact Hu|]. apply pow10_le. lia.
Qed.

(** The result of quantizing a coefficient that is not negative to two
    places, as an integer at any scale [s] below the exponents. *)
Lemma quantize_nonneg (r : rounding) (c e s : Z) (x : t) :
  0 <= c -> quantize (mk c e) (-2) r = Some x -> s <= e -> s <= -2 ->
  coeff x * 10 ^ (exp x - s) = round_to r c e (-2) s * 10 ^ (-2 - s)
  /\ exp x = -2 /\ 0 <= coeff x.
Proof.
  intros Hc Hq Hs Hs2. unfold quantize in Hq. cbn [coeff exp] in Hq.
  assert ((Etiny <=? -2) && (-2 <=? Emax) = true) as E by reflexivity.
  rewrite E in Hq. cbn [negb] in Hq.
  assert (Etiny <= -2 <= Etop) as Hr by (unfold Etiny, Etop, Emin, Emax, prec; lia).
  destruct (Z.eqb_spec c 0) as [->|Hne].
  { rewrite (fix_exact 0 (-2)) in Hq by (try reflexivity; exact Hr).
    injection Hq as <-. cbn [coeff exp]. unfold round_to.
    rewrite Z.mul_0_l, round_div_0 by lia. repeat split; lia. }
  destruct (Emax <? adjusted (mk c e)); [discriminate|].
  destruct (prec <? adjusted (mk c e) - -2 + 1); [discriminate|].
  set (ans := _rescale (mk c e) (-2) r) in *.
  destruct (Emax <? adjusted ans); [discriminate|].
  destruct (Z.ltb_spec prec (ndigits (Z.abs (coeff ans)))) as [|Hd];
    [discriminate|].
  assert (exp ans = -2 /\ coeff ans = round_to r c e (-2) s /\ 0 <= coeff ans)
    as (Hea & Hca & Hpos).
  { subst ans. unfold _rescale. cbn [coeff exp].
    destruct (Z.eqb_spec c 0) as [|_]; [contradiction|].
    destruct (Z.leb_spec (-2) e); cbn [coeff exp].
    - rewrite round_to_above by lia.
      pose proof (pow10_pos (e - -2) ltac:(lia)). repeat split; nia.
    - rewrite round_to_below by lia.
      rewrite Z.abs_eq, Z.sgn_pos, Z.mul_1_l by lia.
      pose proof (round_div_bounds r c (-2 - e) ltac:(lia) ltac:(lia)).
      pose proof (pow10_pos (-2 - e) ltac:(lia)).
      assert (0 <= c / 10 ^ (-2 - e)) by (apply Z.div_pos; lia).
      repeat split; lia. }
  rewrite Z.abs_eq in Hd by exact Hpos.
  destruct ans as [ca ea]. cbn [coeff exp] in *. subst ea.
  rewrite fix_exact in Hq;
    [|rewrite Z.abs_eq by lia; apply ndigits_bound; assumption|exact Hr].
  injection Hq as <-. cbn [coeff exp]. rewrite Hca. repeat split; lia.
Qed.

Local Open Scope Q_scope.

Lemma quantize_mono (r : rounding) (a b xa xb : t) :
  (0 <= coeff a)%Z -> value a <= value b ->
  quantize a (-2) r = Some xa -> quantize b (-2) r = Some xb ->
  value xa <= value xb /\ (0 <= coeff xa)%Z.
Proof.
  intros Ha Hab Hqa Hqb.
  assert (0 <= coeff b)%Z as Hb.
  { apply value_nonneg. apply value_nonneg in Ha. lra. }
  destruct a as [ca ea], b as [cb eb]. cbn [coeff] in Ha, Hb.
  set (s := Z.min (Z.min ea eb) (-2)).
  destruct (quantize_nonneg r ca ea s xa Ha Hqa ltac:(lia) ltac:(lia))
    as (Ea & Hea & Hpa).
  destruct (quantize_nonneg r cb eb s xb Hb Hqb ltac:(lia) ltac:(lia))
    as (Eb & Heb & _).
  split; [|exact Hpa].
  apply (value_le_scaled xa xb s); [lia|lia|].
  rewrite Ea, Eb.
  pose proof (pow10_pos (-2 - s) ltac:(lia)).
  pose proof (pow10_pos (ea - s) ltac:(lia)).
  apply Z.mul_le_mono_nonneg_r; [lia|].
  unfold round_to. apply round_div_mono; [|lia].
  split; [nia|].
  apply (value_le_scaled (mk ca ea) (mk cb eb) s); cbn [exp]; try lia.
  exact Hab.
Qed.

Local Close Scope Q_scope.

Lemma fix_fits (d : t) : fits d -> _fix d = Some d.
Proof. destruct d as [c e]. intros [Hc He]. apply fix_exact; assumption. Qed.

Lemma add_fits (a b : t) : fits (add_exact a b) -> add a b = Some (add_exact a b).
Proof. apply fix_fits. Qed.

Lemma sub_fits (a b : t) : fits (sub_exact a b) -> sub a b = Some (sub_exact a b).
Proof. apply fix_fits. Qed.

Lemma mul_fits (a b : t) : fits (mul_exact a b) -> mul a b = Some (mul_exact a b).
Proof. apply fix_fits. Qed.

Lemma rem_fits (a b : t) :
  coeff b <> 0 ->
  (let '(ca, cb, _) := align a b in Z.abs ca / Z.abs cb < 10 ^ prec) ->
  fits (rem_exact a b) -> rem a b = Some (rem_exact a b).
Proof.
  intros Hb Hq Hf. unfold rem.
  destruct (Z.eqb_spec (coeff b) 0); [contradiction|].
  destruct (align a b) as [[ca cb] e].
  destruct (Z.leb_spec (10 ^ prec) (Z.abs ca / Z.abs cb)); [lia|].
  apply fix_fits. exact Hf.
Qed.

(** [quantize] to two places when zeros are appended. *)
Lemma quantize_pad (c e : Z) :
  -2 <= e <= Etop -> Z.abs c * 10 ^ (e + 2) < 10 ^ prec ->
  quantize (mk c e) (-2) ROUND_HALF_UP = Some (mk (c * 10 ^ (e + 2)) (-2)).
Proof.
  intros He Hc. pose proof (pow10_pos (e + 2) ltac:(lia)) as Hp.
  unfold quantize. cbn [coeff exp].
  assert ((Etiny <=? -2) && (-2 <=? Emax) = true) as -> by reflexivity.
  cbn [negb].
  assert (Etiny <= -2 <= Etop) as Hr by (unfold Etiny, Etop, Emin, Emax, prec; lia).
  destruct (Z.eqb_spec c 0) as [->|Hne].
  { rewrite Z.mul_0_l. apply fix_exact; [reflexivity|exact Hr]. }
  assert (0 < Z.abs c) as Hpos by lia.
  destruct (ndigits_spec (Z.abs c) Hpos) as [[Hlo Hhi] Hd1].
  assert (ndigits (Z.abs c) + (e + 2) <= prec) as Hd.
  { destruct (Z.le_gt_cases (ndigits (Z.abs c) + (e + 2)) prec); [assumption|].
    exfalso.
    assert (10 ^ prec <= 10 ^ (ndigits (Z.abs c) - 1) * 10 ^ (e + 2)).
    { rewrite <- Z.pow_add_r by lia. apply Z.pow_le_mono_r; lia. }
    nia. }
  unfold adjusted. cbn [coeff exp].
  destruct (Z.ltb_spec Emax (e + ndigits (Z.abs c) - 1));
    [unfold Emax, Etop, prec in *; lia|].
  destruct (Z.ltb_spec prec (e + ndigits (Z.abs c) - 1 - -2 + 1)); [lia|].
  assert (_rescale (mk c e) (-2) ROUND_HALF_UP = mk (c * 10 ^ (e + 2)) (-2)) as ->.
  { unfold _rescale. cbn [coeff exp].
    destruct (Z.eqb_spec c 0) as [|_]; [contradiction|].
    destruct (Z.leb_spec (-2) e); [|lia].
    replace (e - -2) with (e + 2) by lia. reflexivity. }
  cbn [coeff exp].
  assert (Z.abs (c * 10 ^ (e + 2)) < 10 ^ prec) as Hab
      by (rewrite Z.abs_mul, (Z.abs_eq (10 ^ (e + 2))) by lia; exact Hc).
  assert (ndigits (Z.abs (c * 10 ^ (e + 2))) <= prec) as Hd2
      by (apply ndigits_le; [lia|unfold prec; lia]).
  pose proof (ndigits_ge_1 (Z.abs (c * 10 ^ (e + 2)))).
  destruct (Z.ltb_spec Emax (-2 + ndigits (Z.abs (c * 10 ^ (e + 2))) - 1));
    [unfold Emax, prec in *; lia|].
  destruct (Z.ltb_spec prec (ndigits (Z.abs (c * 10 ^ (e + 2))))); [lia|].
  apply fix_exact; [exact Hab|exact Hr].
Qed.

Lemma quantize_cents (c e : Z) :
  0 <= c < 10 ^ prec -> Etiny <= e <= Etop ->
  c * 10 ^ (e + 2) < 10 ^ prec ->
  quantize (mk c e) (-2) ROUND_HALF_UP = Some (mk (to_cents c e) (-2)).
Proof.
  intros Hc He Hp. unfold to_cents. destruct (Z.leb_spec e (-2)).
  - apply quantize_two_places; lia.
  - apply quantize_pad; [lia|]. rewrite Z.abs_eq by lia. exact Hp.
Qed.

End DecimalFacts.

(** ** The remanent *)

Section Remanent.

Import Decimal Rounding DecimalFacts.

Lemma rem_hundred (c e : Z) :
  0 <= c -> c * 10 ^ Z.max e 0 < 10 ^ 28 -> -25 <= e ->
  rem (mk c e) (of_Z 100)
  = Some (mk ((c * 10 ^ Z.max e 0) mod 10 ^ (2 - Z.min e 0)) (Z.min e 0)).
Proof.
  intros Hc Hb He.
  pose proof (pow10_pos (2 - Z.min e 0) ltac:(lia)) as HH.
  pose proof (pow10_pos (Z.max e 0) ltac:(lia)) as HP.
  assert (rem_exact (mk c e) (of_Z 100)
          = mk ((c * 10 ^ Z.max e 0) mod 10 ^ (2 - Z.min e 0)) (Z.min e 0)) as Hex.
  { unfold rem_exact, align, of_Z. cbn [coeff exp].
    replace (e - Z.min e 0) with (Z.max e 0) by lia.
    replace (100 * 10 ^ (0 - Z.min e 0)) with (10 ^ (2 - Z.min e 0)).
    - rewrite Z.rem_mod_nonneg by nia. reflexivity.
    - replace (2 - Z.min e 0) with (2 + (0 - Z.min e 0)) by lia.
      rewrite Z.pow_add_r by lia. reflexivity. }
  rewrite <- Hex. apply rem_fits.
  - discriminate.
  - unfold align, of_Z. cbn [coeff exp].
    replace (e - Z.min e 0) with (Z.max e 0) by lia.
    assert (0 < 100 * 10 ^ (0 - Z.min e 0))
      by (pose proof (pow10_pos (0 - Z.min e 0) ltac:(lia)); lia).
    rewrite !Z.abs_eq by nia.
    apply Z.div_lt_upper_bound; [lia|]. unfold prec.
    assert (0 < 10 ^ 28) by reflexivity.
    set (B := 10 ^ 28) in *. nia.
  - rewrite Hex. unfold fits. cbn [coeff exp].
    pose proof (Z.mod_pos_bound (c * 10 ^ Z.max e 0) (10 ^ (2 - Z.min e 0)) HH).
    assert ((c * 10 ^ Z.max e 0) mod 10 ^ (2 - Z.min e 0) <= c * 10 ^ Z.max e 0)
      by (apply Z.mod_le; nia).
    unfold Etiny, Etop, Emin, Emax, prec. lia.
Qed.

(** The rest of the computation, from a remainder [r] at an exponent
    [e] between -25 and 0. *)
Lemma complement_hundred (r e : Z) :
  -25 <= e <= 0 -> 0 <= r < 10 ^ (2 - e) ->
  (c ← sub (of_Z 100) (mk r e);
   remanent ← rem c (of_Z 100);
   quantize remanent TWO_PLACES ROUND_HALF_UP)
  = Some (mk (to_cents ((10 ^ (2 - e) - r) mod 10 ^ (2 - e)) e) (-2)).
Proof.
  intros He Hr.
  pose proof (pow10_pos (2 - e) ltac:(lia)) as HH.
  assert (10 ^ (2 - e) <= 10 ^ 27) as H27 by (apply Z.pow_le_mono_r; lia).
  assert (100 * 10 ^ (0 - e) = 10 ^ (2 - e)) as E100.
  { replace (2 - e) with (2 + (0 - e)) by lia.
    rewrite Z.pow_add_r by lia. reflexivity. }
  assert (sub_exact (of_Z 100) (mk r e) = mk (10 ^ (2 - e) - r) e) as Hsub.
  { unfold sub_exact, add_exact, align, neg, of_Z. cbn [coeff exp].
    rewrite Z.min_r by lia. rewrite E100.
    replace (e - e) with 0 by lia. rewrite Z.pow_0_r. f_equal. lia. }
  rewrite sub_fits; rewrite Hsub;
    [|unfold fits, Etiny, Etop, Emin, Emax, prec; cbn [coeff exp]; lia].
  cbn [mbind option_bind].
  assert (rem_exact (mk (10 ^ (2 - e) - r) e) (of_Z 100)
          = mk ((10 ^ (2 - e) - r) mod 10 ^ (2 - e)) e) as Hrem.
  { unfold rem_exact, align, of_Z. cbn [coeff exp].
    rewrite Z.min_l by lia. rewrite E100.
    replace (e - e) with 0 by lia. rewrite Z.pow_0_r, Z.mul_1_r.
    rewrite Z.rem_mod_nonneg by lia. reflexivity. }
  pose proof (Z.mod_pos_bound (10 ^ (2 - e) - r) (10 ^ (2 - e)) HH) as Hm.
  rewrite rem_fits; rewrite ?Hrem.
  - cbn [mbind option_bind]. unfold TWO_PLACES.
    apply quantize_cents.
    + unfold prec. lia.
    + unfold Etiny, Etop, Emin, Emax, prec. lia.
    + destruct (Z.lt_ge_cases (e + 2) 0) as [Hlt|Hge].
      * rewrite (Z.pow_neg_r 10 (e + 2)) by lia. rewrite Z.mul_0_r. reflexivity.
      * assert (10 ^ (2 - e) * 10 ^ (e + 2) = 10 ^ 4) as E4
            by (rewrite <- Z.pow_add_r by lia; f_equal; lia).
        pose proof (pow10_pos (e + 2) Hge).
        assert (10 ^ 4 < 10 ^ prec) by reflexivity. nia.
  - discriminate.
  - unfold align, of_Z. cbn [coeff exp].
    rewrite Z.min_l by lia. rewrite E100.
    replace (e - e) with 0 by lia. rewrite Z.pow_0_r, Z.mul_1_r.
    rewrite !Z.abs_eq by lia.
    apply Z.div_lt_upper_bound; [lia|]. unfold prec.
    assert (0 < 10 ^ 28) by reflexivity.
    set (B := 10 ^ 28) in *. nia.
  - unfold fits, Etiny, Etop, Emin, Emax, prec. cbn [coeff exp]. lia.
Qed.

End Remanent.

Module SpecFacts.

Import Decimal Rounding DecimalFacts Spec.

Local Open Scope Q_scope.

Lemma round2_comp (x y : Q) : x == y -> round2 x == round2 y.
Proof.
  intros E. unfold round2.
  assert (Qle_bool 0 x = Qle_bool 0 y) as -> by (rewrite E; reflexivity).
  assert (Qfloor (x * 100 + (1 # 2)) = Qfloor (y * 100 + (1 # 2))) as ->
      by (apply Qfloor_comp; rewrite E; reflexivity).
  assert (Qfloor (- x * 100 + (1 # 2)) = Qfloor (- y * 100 + (1 # 2))) as ->
      by (apply Qfloor_comp; rewrite E; reflexivity).
  reflexivity.
Qed.

Lemma Qmod_comp (x y m : Q) : x == y -> Qmod x m == Qmod y m.
Proof.
  intros E. unfold Qmod.
  assert (Qfloor (x / m) = Qfloor (y / m)) as ->
      by (apply Qfloor_comp; rewrite E; reflexivity).
  rewrite E. reflexivity.
Qed.

Lemma Qfloor_half (n : Z) : Qfloor (inject_Z n + (1 # 2)) = n.
Proof.
  unfold Qfloor, Qplus, inject_Z. cbn [Qnum Qden].
  symmetry. apply (Z.div_unique _ _ _ 1); lia.
Qed.

(** An amount in whole hundredths is its own rounding. *)
Lemma round2_cents (n : Z) : (0 <= n)%Z -> round2 (inject_Z n / 100) == inject_Z n / 100.
Proof.
  intros Hn. unfold round2.
  assert (Qle_bool 0 (inject_Z n / 100) = true) as ->.
  { apply Qle_bool_iff. apply Qle_shift_div_l; [reflexivity|].
    rewrite Qmult_0_l. change (inject_Z 0 <= inject_Z n).
    rewrite <- Zle_Qle. exact Hn. }
  assert (inject_Z n / 100 * 100 + (1 # 2) == inject_Z n + (1 # 2)) as -> by field.
  rewrite Qfloor_half. reflexivity.
Qed.

Lemma Qpow10_opp (e : Z) : (10 # 1) ^ e * (10 # 1) ^ (- e) == 1.
Proof.
  rewrite <- Qpower_plus by apply ten_neq_0.
  replace (e + - e)%Z with 0%Z by lia. reflexivity.
Qed.

Lemma Qpow10_shift (e k : Z) :
  (0 <= k)%Z -> (10 # 1) ^ (e + k) == (10 # 1) ^ e * inject_Z (10 ^ k).
Proof.
  intros Hk. rewrite Qpow10_inject by assumption.
  apply Qpower_plus, ten_neq_0.
Qed.

(** Half-up rounding of [c * 10^e] for a non-negative [c]. *)
Lemma value_to_cents (c e : Z) :
  (0 <= c)%Z -> value (mk (to_cents c e) (-2)) == round2 (value (mk c e)).
Proof.
  intros Hc. unfold to_cents, value. cbn [coeff exp].
  change ((10 # 1) ^ (-2)) with (1 # 100).
  destruct (Z.leb_spec e (-2)) as [He|He].
  - pose proof (pow10_pos (-2 - e) ltac:(lia)) as HP.
    rewrite round_half_up_floor by lia.
    unfold round2.
    assert (Qle_bool 0 (inject_Z c * (10 # 1) ^ e) = true) as ->.
    { apply Qle_bool_iff. apply Qmult_le_0_compat.
      - change (inject_Z 0 <= inject_Z c). rewrite <- Zle_Qle. exact Hc.
      - apply Qlt_le_weak, Qpow10_pos. }
    rewrite Zdiv_Qdiv.
    assert (inject_Z c * (10 # 1) ^ e * 100 + (1 # 2)
            == inject_Z (2 * c + 10 ^ (-2 - e)) / inject_Z (2 * 10 ^ (-2 - e))) as ->.
    { rewrite !inject_Z_plus, !inject_Z_mult.
      pose proof (Qpow10_opp (-2 - e)) as Ho.
      rewrite Qpow10_inject by lia.
      assert (~ (10 # 1) ^ (-2 - e) == 0)
        by (apply Qpower_not_0, ten_neq_0).
      assert ((10 # 1) ^ e == (10 # 1) ^ (- (-2 - e)) * (1 # 100)) as ->.
      { replace (- (-2 - e))%Z with (e + 2)%Z by lia.
        rewrite Qpower_plus by apply ten_neq_0.
        change ((10 # 1) ^ 2) with 100. field. }
      set (P := (10 # 1) ^ (-2 - e)) in *.
      set (P' := (10 # 1) ^ (- (-2 - e))) in *.
      assert (P' == / P) as -> by (apply Qmult_inj_l with P; [assumption|];
                                    rewrite Ho; field; assumption).
      change (inject_Z 2) with 2. field. assumption. }
    field.
  - pose proof (pow10_pos (e + 2) ltac:(lia)) as HP.
    assert (inject_Z c * (10 # 1) ^ e == inject_Z (c * 10 ^ (e + 2)) / 100) as E.
    { rewrite inject_Z_mult, Qpow10_inject by lia.
      rewrite Qpower_plus by apply ten_neq_0.
      change ((10 # 1) ^ 2) with 100. field. }
    rewrite (round2_comp _ _ E), round2_cents by lia. field.
Qed.

(** [x mod 100] on a number with the unit [10^e], [e <= 0]. *)
Lemma Qmod_scaled (n e : Z) :
  (e <= 0)%Z ->
  Qmod (inject_Z n * (10 # 1) ^ e) 100
  == inject_Z (n mod 10 ^ (2 - e)) * (10 # 1) ^ e.
Proof.
  intros He. pose proof (pow10_pos (2 - e) ltac:(lia)) as HH.
  assert (inject_Z (10 ^ (2 - e)) * (10 # 1) ^ e == 100) as E100.
  { rewrite Qpow10_inject by lia.
    rewrite <- Qpower_plus by apply ten_neq_0.
    replace (2 - e + e)%Z with 2%Z by lia. reflexivity. }
  assert (~ inject_Z (10 ^ (2 - e)) == 0) as HH0.
  { change 0 with (inject_Z 0). rewrite inject_Z_injective. lia. }
  unfold Qmod.
  assert (Qfloor (inject_Z n * (10 # 1) ^ e / 100) = (n / 10 ^ (2 - e))%Z) as ->.
  { rewrite Zdiv_Qdiv. apply Qfloor_comp. rewrite <- E100. field.
    repeat split; solve [exact HH0|apply Qpower_not_0, ten_neq_0]. }
  rewrite Z.mod_eq by lia.
  replace (n - 10 ^ (2 - e) * (n / 10 ^ (2 - e)))%Z
    with (n + - (10 ^ (2 - e) * (n / 10 ^ (2 - e))))%Z by lia.
  rewrite inject_Z_plus, inject_Z_opp, inject_Z_mult.
  rewrite <- E100. ring.
Qed.

Lemma hundred_scaled (e : Z) :
  (e <= 0)%Z -> 100 == inject_Z (10 ^ (2 - e)) * (10 # 1) ^ e.
Proof.
  intros He. rewrite Qpow10_inject by lia.
  rewrite <- Qpower_plus by apply ten_neq_0.
  replace (2 - e + e)%Z with 2%Z by lia. reflexivity.
Qed.

(** A decimal at the exponent [min e 0]. *)
Lemma value_split (c e : Z) :
  value (mk c e) == inject_Z (c * 10 ^ Z.max e 0) * (10 # 1) ^ Z.min e 0.
Proof.
  rewrite <- (value_pad c e (Z.max e 0)) by lia.
  unfold value. cbn [coeff exp].
  replace (e - Z.max e 0)%Z with (Z.min e 0) by lia. reflexivity.
Qed.

Lemma to_cents_bound (r e : Z) :
  (e <= 0)%Z -> (0 <= r < 10 ^ (2 - e))%Z ->
  (0 <= to_cents r e <= 10000)%Z /\ ((-2 <= e)%Z -> (to_cents r e < 10000)%Z).
Proof.
  intros He Hr. unfold to_cents. destruct (Z.leb_spec e (-2)) as [H2|H2].
  - pose proof (pow10_pos (-2 - e) ltac:(lia)) as HP.
    pose proof (round_div_bounds ROUND_HALF_UP r (-2 - e) ltac:(lia) ltac:(lia)) as B.
    assert (10 ^ (2 - e) = 10000 * 10 ^ (-2 - e))%Z as EH.
    { replace (2 - e)%Z with (4 + (-2 - e))%Z by lia.
      rewrite Z.pow_add_r by lia. reflexivity. }
    assert (0 <= r / 10 ^ (-2 - e) < 10000)%Z.
    { split; [apply Z.div_pos; lia|].
      apply Z.div_lt_upper_bound; lia. }
    split; [lia|]. intros Hge. assert (e = -2)%Z as -> by lia.
    rewrite round_div_exact. simpl in Hr. lia.
  - pose proof (pow10_pos (e + 2) ltac:(lia)) as HP.
    assert (10 ^ (2 - e) * 10 ^ (e + 2) = 10000)%Z as E4.
    { rewrite <- Z.pow_add_r by lia. replace (2 - e + (e + 2))%Z with 4%Z by lia.
      reflexivity. }
    split; [nia|]. intros _. nia.
Qed.

(** *** The tax of the specification is non-decreasing *)

Lemma bracket_cases (x : Q) :
  (x < 700000 /\ bracket x = 0%nat)
  \/ (700000 <= x < 1000000 /\ bracket x = 1%nat)
  \/ (1000000 <= x < 1200000 /\ bracket x = 2%nat)
  \/ (1200000 <= x < 1500000 /\ bracket x = 3%nat)
  \/ (1500000 <= x /\ bracket x = 4%nat).
Proof.
  unfold bracket, thresholds. cbn [List.filter].
  destruct (Qle_bool 700000 x) eqn:H1; destruct (Qle_bool 1000000 x) eqn:H2;
    destruct (Qle_bool 1200000 x) eqn:H3; destruct (Qle_bool 1500000 x) eqn:H4;
    repeat match goal with
           | H : Qle_bool _ _ = true |- _ => apply Qle_bool_iff in H
           | H : Qle_bool _ _ = false |- _ =>
               apply Bool.not_true_iff_false in H; rewrite Qle_bool_iff in H;
               apply Qnot_le_lt in H
           end;
    cbn [length]; try lra; intuition lra.
Qed.

Lemma tax_unrounded_mono (x y : Q) :
  x <= y -> tax_unrounded x <= tax_unrounded y.
Proof.
  intros Hxy. unfold tax_unrounded.
  destruct (bracket_cases x) as [[Hx ->]|[[Hx ->]|[[Hx ->]|[[Hx ->]|[Hx ->]]]]];
    destruct (bracket_cases y) as [[Hy ->]|[[Hy ->]|[[Hy ->]|[[Hy ->]|[Hy ->]]]]];
    cbn [nth baseTax previousThreshold rate]; lra.
Qed.

Lemma tax_unrounded_nonneg (x : Q) : 0 <= tax_unrounded x.
Proof.
  unfold tax_unrounded.
  destruct (bracket_cases x) as [[Hx ->]|[[Hx ->]|[[Hx ->]|[[Hx ->]|[Hx ->]]]]];
    cbn [nth baseTax previousThreshold rate]; lra.
Qed.

Lemma round2_mono (x y : Q) : 0 <= x -> x <= y -> round2 x <= round2 y.
Proof.
  intros Hx Hxy. unfold round2.
  assert (Qle_bool 0 x = true) as -> by (apply Qle_bool_iff; exact Hx).
  assert (Qle_bool 0 y = true) as -> by (apply Qle_bool_iff; lra).
  apply Qmult_le_compat_r; [|discriminate].
  rewrite <- Zle_Qle. apply Qfloor_resp_le. lra.
Qed.

Lemma tax_mono (x y : Q) : x <= y -> tax x <= tax y.
Proof.
  intros Hxy. apply round2_mono;
    [apply tax_unrounded_nonneg|apply tax_unrounded_mono; exact Hxy].
Qed.

End SpecFacts.

Section RemanentCorrect.

Import Decimal Rounding DecimalFacts SpecFacts.

Lemma calculate_remanent_exact (a : Decimal) :
  remanent_domain a ->
  let H := 10 ^ (2 - Z.min (exp a) 0) in
  let A := coeff a * 10 ^ Z.max (exp a) 0 in
  calculate_remanent a
  = Some (mk (to_cents ((H - A mod H) mod H) (Z.min (exp a) 0)) (-2)).
Proof.
  destruct a as [c e]. unfold remanent_domain. cbn [coeff exp].
  intros (Hc & Hb & He). unfold calculate_remanent.
  rewrite rem_hundred by assumption. cbn [mbind option_bind].
  apply complement_hundred; [lia|].
  apply Z.mod_pos_bound, pow10_pos. lia.
Qed.

(** C5, on the amounts of [remanent_domain].  The remanent is
    [(100 - (amount mod 100)) mod 100] rounded half-up to two places; it
    lies between 0 and 100, below 100 when the amount has at most two
    fraction digits, and it is 0 for a multiple of 100;
    [remanent(10.50) = 89.50] and [remanent(150.00) = 50.00]. *)
Theorem remanent_correct :
  (forall a : Decimal,
      remanent_domain a ->
      exists r,
        calculate_remanent a = Some r
        /\ exp r = -2
        /\ (value r == Spec.remanent (value a))%Q
        /\ (0 <= value r <= 100)%Q
        /\ (-2 <= exp a -> (value r < 100)%Q)
        /\ (forall n : Z, (value a == inject_Z (100 * n))%Q -> (value r == 0)%Q))
  /\ calculate_remanent (dec 1050 2) = Some (dec 8950 2)
  /\ calculate_remanent (dec 15000 2) = Some (dec 5000 2).
Proof.
  split; [|split; reflexivity].
  intros a Hdom. pose proof (calculate_remanent_exact a Hdom) as Hex.
  destruct a as [c e]. destruct Hdom as (Hc & Hb & He).
  cbn [coeff exp] in *. cbv zeta in Hex.
  set (e' := Z.min e 0) in *. set (H := 10 ^ (2 - e')) in *.
  set (A := c * 10 ^ Z.max e 0) in *.
  assert (e' <= 0) as He' by (subst e'; lia).
  assert (0 < H) as HH by (apply pow10_pos; lia).
  pose proof (Z.mod_pos_bound A H HH) as HR1.
  pose proof (Z.mod_pos_bound (H - A mod H) H HH) as HR2.
  set (R := (H - A mod H) mod H) in *.
  destruct (to_cents_bound R e' He' HR2) as [Hcb Hclt].
  assert (forall n : Z, (value (mk n (-2)) == inject_Z n / 100)%Q) as Hval.
  { intros n. unfold value. cbn [coeff exp].
    change ((10 # 1) ^ (-2))%Q with (1 # 100)%Q. field. }
  eexists. split; [exact Hex|]. split; [reflexivity|].
  split; [|split; [|split]].
  - rewrite value_to_cents by lia. unfold Spec.remanent.
    apply round2_comp. symmetry.
    rewrite (Qmod_comp _ (inject_Z (H - A mod H) * (10 # 1) ^ e')).
    + unfold R, H. apply Qmod_scaled. exact He'.
    + rewrite (Qmod_comp _ (inject_Z A * (10 # 1) ^ e'))
        by (apply value_split).
      rewrite Qmod_scaled by exact He'. fold H.
      rewrite (hundred_scaled e' He') at 1. fold H.
      replace (H - A mod H) with (H + - (A mod H)) by lia.
      rewrite inject_Z_plus, inject_Z_opp. ring.
  - rewrite Hval. split.
    + apply Qle_shift_div_l; [reflexivity|]. rewrite Qmult_0_l.
      change (inject_Z 0 <= inject_Z (to_cents R e'))%Q.
      rewrite <- Zle_Qle. lia.
    + apply Qle_shift_div_r; [reflexivity|].
      change (inject_Z (to_cents R e') <= inject_Z 10000)%Q.
      rewrite <- Zle_Qle. lia.
  - intros H2. rewrite Hval. apply Qlt_shift_div_r; [reflexivity|].
    change (inject_Z (to_cents R e') < inject_Z 10000)%Q.
    rewrite <- Zlt_Qlt. apply Hclt. subst e'. lia.
  - intros n Hn.
    assert (A = n * H) as HA.
    { apply inject_Z_injective.
      rewrite value_split in Hn. fold A e' in Hn.
      rewrite inject_Z_mult in Hn |- *.
      change (inject_Z 100) with 100%Q in Hn.
      rewrite (hundred_scaled e' He') in Hn. fold H in Hn.
      apply Qmult_inj_r with ((10 # 1) ^ e')%Q;
        [apply Qpower_not_0, ten_neq_0|].
      rewrite Hn. ring. }
    assert (R = 0) as ->.
    { unfold R. rewrite HA, Z.mod_mul, Z.sub_0_r, Z.mod_same by lia.
      reflexivity. }
    assert (to_cents 0 e' = 0) as ->.
    { unfold to_cents.
      destruct (Z.leb_spec e' (-2)); [apply round_div_0; lia|apply Z.mul_0_l]. }
    rewrite Hval. reflexivity.
Qed.

Lemma remanent_correct_witness :
  remanent_domain (dec 1050 2)
  /\ exists r,
       calculate_remanent (dec 1050 2) = Some r
       /\ exp r = -2
       /\ (value r == Spec.remanent (value (dec 1050 2)))%Q
       /\ (0 <= value r <= 100)%Q
       /\ (-2 <= exp (dec 1050 2) -> (value r < 100)%Q)
       /\ (forall n : Z,
             (value (dec 1050 2) == inject_Z (100 * n))%Q -> (value r == 0)%Q).
Proof.
  assert (remanent_domain (dec 1050 2)) as Hdom
    by (repeat split; vm_compute; congruence).
  split; [exact Hdom|].
  exact (proj1 remanent_correct (dec 1050 2) Hdom).
Defined.

(** An amount of one thousandth has the remanent 100.00. *)
Lemma remanent_reaches_100 :
  calculate_remanent (dec 1 3) = Some (dec 10000 2)
  /\ ~ (value (dec 10000 2) < 100)%Q.
Proof. split; [reflexivity|]. intros H. discriminate H. Qed.

(** An amount of [1E+30] has no remanent: the quotient by 100 does not
    fit the precision. *)
Lemma remanent_of_1E30 : calculate_remanent (mk 1 30) = None.
Proof. reflexivity. Qed.

End RemanentCorrect.

(** ** The tax *)

Section Tax.

Import Decimal Rounding DecimalFacts.

Lemma ltb_threshold (c e th : Z) :
  ltb (mk c e) (of_Z th)
  = (c * 10 ^ Z.max e 0 <? th * 10 ^ (- Z.min e 0)).
Proof.
  unfold ltb, align, of_Z. cbn [coeff exp].
  replace (e - Z.min e 0) with (Z.max e 0) by lia.
  replace (0 - Z.min e 0) with (- Z.min e 0) by lia. reflexivity.
Qed.

Lemma bisect_right_thresholds (c e : Z) :
  bisect_right THRESHOLDS (mk c e)
  = Some (bracket_of (c * 10 ^ Z.max e 0) (10 ^ (- Z.min e 0))).
Proof.
  pose proof (pow10_pos (- Z.min e 0) ltac:(lia)) as HP.
  unfold bisect_right, THRESHOLDS, bracket_of. simpl.
  rewrite !ltb_threshold.
  set (X := c * 10 ^ Z.max e 0). set (P := 10 ^ (- Z.min e 0)) in *.
  destruct (Z.ltb_spec X (1200000 * P)); simpl.
  - destruct (Z.ltb_spec X (1000000 * P)); simpl.
    + destruct (Z.ltb_spec X (700000 * P)); reflexivity.
    + destruct (Z.ltb_spec X (700000 * P)); [lia|reflexivity].
  - destruct (Z.ltb_spec X (1500000 * P)); simpl;
      destruct (Z.ltb_spec X (700000 * P)); try lia;
      destruct (Z.ltb_spec X (1000000 * P)); try lia; reflexivity.
Qed.

(** One bracket with the previous threshold [prev], the base tax [base]
    and the rate [r] percent, on an income [c * 10^e] that is not below
    the threshold: the result is the exact tax, in units of
    [10^(min e 0 - 2)], rounded half-up to hundredths. *)
Lemma tax_bracket_exact (c e prev base r : Z) :
  tax_domain (mk c e) ->
  0 <= prev -> 0 <= base -> base * 10 <= prev -> 0 <= r <= 30 ->
  prev * 10 ^ (- Z.min e 0) <= c * 10 ^ Z.max e 0 ->
  (excess ← sub (mk c e) (of_Z prev);
   marginal ← mul excess (dec r 2);
   tax ← add (of_Z base) marginal;
   quantize tax TWO_PLACES ROUND_HALF_UP)
  = Some (mk (round_div ROUND_HALF_UP
                (base * 100 * 10 ^ (- Z.min e 0)
                 + (c * 10 ^ Z.max e 0 - prev * 10 ^ (- Z.min e 0)) * r)
                (- Z.min e 0))
             (-2)).
Proof.
  unfold tax_domain. cbn [coeff exp]. intros (Hc & Hb & He) Hprev Hbase Hbp Hr Hle.
  pose proof (pow10_pos (- Z.min e 0) ltac:(lia)) as HP.
  set (X := c * 10 ^ Z.max e 0) in *. set (e' := Z.min e 0) in *.
  set (P := 10 ^ (- e')) in *.
  assert (10 ^ 26 * 100 = 10 ^ 28) as E28 by reflexivity.
  assert (sub_exact (mk c e) (of_Z prev) = mk (X - prev * P) e') as Hsub.
  { unfold sub_exact, add_exact, align, neg, of_Z. cbn [coeff exp].
    fold e'. replace (e - e') with (Z.max e 0) by (subst e'; lia).
    replace (0 - e') with (- e') by lia. fold X P. f_equal. lia. }
  rewrite sub_fits; rewrite Hsub;
    [|unfold fits, Etiny, Etop, Emin, Emax, prec; cbn [coeff exp];
      subst e'; lia].
  cbn [mbind option_bind].
  assert (mul_exact (mk (X - prev * P) e') (dec r 2)
          = mk ((X - prev * P) * r) (e' - 2)) as Hmul by reflexivity.
  rewrite mul_fits; rewrite Hmul;
    [|unfold fits, Etiny, Etop, Emin, Emax, prec; cbn [coeff exp];
      subst e'; split; [nia|lia]].
  cbn [mbind option_bind].
  assert (add_exact (of_Z base) (mk ((X - prev * P) * r) (e' - 2))
          = mk (base * 100 * P + (X - prev * P) * r) (e' - 2)) as Hadd.
  { unfold add_exact, align, of_Z. cbn [coeff exp].
    rewrite Z.min_r by (subst e'; lia).
    replace (e' - 2 - (e' - 2)) with 0 by lia. rewrite Z.pow_0_r, Z.mul_1_r.
    replace (0 - (e' - 2)) with (2 + - e') by lia.
    rewrite Z.pow_add_r by (subst e'; lia). fold P. f_equal.
    change (10 ^ 2) with 100. lia. }
  assert (0 <= base * 100 * P + (X - prev * P) * r < 10 ^ 28) as HT by nia.
  rewrite add_fits; rewrite Hadd;
    [|unfold fits, Etiny, Etop, Emin, Emax, prec; cbn [coeff exp];
      subst e'; lia].
  cbn [mbind option_bind]. unfold TWO_PLACES.
  rewrite quantize_two_places;
    [|unfold prec; lia|unfold Etiny, Emin, prec; subst e'; lia].
  replace (-2 - (e' - 2)) with (- e') by lia. reflexivity.
Qed.

End Tax.

Section TaxCorrect.

Import Decimal Rounding DecimalFacts SpecFacts.

Lemma calculate_tax_exact (y : Decimal) :
  tax_domain y ->
  calculate_tax y
  = Some (mk (round_div ROUND_HALF_UP
                (tax_units (bracket_of (coeff y * 10 ^ Z.max (exp y) 0)
                                       (10 ^ (- Z.min (exp y) 0)))
                           (coeff y * 10 ^ Z.max (exp y) 0)
                           (10 ^ (- Z.min (exp y) 0)))
                (- Z.min (exp y) 0))
             (-2)).
Proof.
  destruct y as [c e]. intros Hdom. pose proof Hdom as (Hc & Hb & He).
  cbn [coeff exp] in *.
  pose proof (pow10_pos (- Z.min e 0) ltac:(lia)) as HP.
  unfold calculate_tax. rewrite bisect_right_thresholds.
  cbn [mbind option_bind]. unfold bracket_of.
  set (X := c * 10 ^ Z.max e 0) in *. set (P := 10 ^ (- Z.min e 0)) in *.
  destruct (Z.ltb_spec X (700000 * P)) as [H1|H1];
    [|destruct (Z.ltb_spec X (1000000 * P)) as [H2|H2];
      [|destruct (Z.ltb_spec X (1200000 * P)) as [H3|H3];
        [|destruct (Z.ltb_spec X (1500000 * P)) as [H4|H4]]]];
    cbn [lookup list_lookup BASE_TAX PREV_THRESHOLDS RATES mbind option_bind
         tax_units].
  - (* below the first threshold: the rate is 0.0 *)
    assert (sub_exact (mk c e) (of_Z 0) = mk X (Z.min e 0)) as Hsub.
    { unfold sub_exact, add_exact, align, neg, of_Z. cbn [coeff exp].
      replace (e - Z.min e 0) with (Z.max e 0) by lia. fold X. f_equal. lia. }
    rewrite sub_fits; rewrite Hsub;
      [|unfold fits, Etiny, Etop, Emin, Emax, prec; cbn [coeff exp]; lia].
    cbn [mbind option_bind].
    assert (mul_exact (mk X (Z.min e 0)) (dec 0 1) = mk 0 (Z.min e 0 - 1)) as Hmul.
    { unfold mul_exact, dec. cbn [coeff exp]. f_equal; lia. }
    rewrite mul_fits; rewrite Hmul;
      [|unfold fits, Etiny, Etop, Emin, Emax, prec; cbn [coeff exp]; lia].
    cbn [mbind option_bind].
    assert (add_exact (of_Z 0) (mk 0 (Z.min e 0 - 1)) = mk 0 (Z.min e 0 - 1)) as Hadd.
    { unfold add_exact, align, of_Z. cbn [coeff exp].
      rewrite Z.min_r by lia. reflexivity. }
    rewrite add_fits; rewrite Hadd;
      [|unfold fits, Etiny, Etop, Emin, Emax, prec; cbn [coeff exp]; lia].
    cbn [mbind option_bind]. rewrite round_div_0 by lia. reflexivity.
  - rewrite (tax_bracket_exact c e 700000 0 10 Hdom); try lia.
    reflexivity.
  - rewrite (tax_bracket_exact c e 1000000 30000 15 Hdom); try lia.
    reflexivity.
  - rewrite (tax_bracket_exact c e 1200000 60000 20 Hdom); try lia.
    reflexivity.
  - rewrite (tax_bracket_exact c e 1500000 120000 30 Hdom); try lia.
    reflexivity.
Qed.

Local Open Scope Q_scope.

(** Comparing a threshold with an income, on the values. *)
Lemma Qle_bool_threshold (c e th : Z) :
  Qle_bool (inject_Z th) (value (mk c e))
  = negb (c * 10 ^ Z.max e 0 <? th * 10 ^ (- Z.min e 0))%Z.
Proof.
  rewrite <- ltb_threshold. apply Bool.eq_iff_eq_true.
  rewrite Qle_bool_iff, Bool.negb_true_iff, ltb_false_value, value_of_Z.
  reflexivity.
Qed.

Lemma bracket_value (c e : Z) :
  Spec.bracket (value (mk c e))
  = bracket_of (c * 10 ^ Z.max e 0) (10 ^ (- Z.min e 0)).
Proof.
  pose proof (pow10_pos (- Z.min e 0) ltac:(lia)) as HP.
  unfold Spec.bracket, Spec.thresholds, bracket_of. cbn [List.filter].
  change 700000 with (inject_Z 700000). change 1000000 with (inject_Z 1000000).
  change 1200000 with (inject_Z 1200000). change 1500000 with (inject_Z 1500000).
  rewrite !Qle_bool_threshold.
  set (X := (c * 10 ^ Z.max e 0)%Z). set (P := (10 ^ (- Z.min e 0))%Z) in *.
  destruct (Z.ltb_spec X (700000 * P)); destruct (Z.ltb_spec X (1000000 * P));
    destruct (Z.ltb_spec X (1200000 * P)); destruct (Z.ltb_spec X (1500000 * P));
    try lia; reflexivity.
Qed.

(** The formula of one bracket, in units of [10^(e - 2)]. *)
Lemma tax_formula_scaled (X e prev base r : Z) :
  (e <= 0)%Z ->
  inject_Z base + (inject_Z X * (10 # 1) ^ e - inject_Z prev) * (r # 100)
  == inject_Z (base * 100 * 10 ^ (- e) + (X - prev * 10 ^ (- e)) * r)
     * (10 # 1) ^ (e - 2).
Proof.
  intros He.
  replace (X - prev * 10 ^ (- e))%Z with (X + - (prev * 10 ^ (- e)))%Z by lia.
  repeat (rewrite inject_Z_plus || rewrite inject_Z_mult
          || rewrite inject_Z_opp).
  rewrite Qpow10_inject by lia.
  pose proof (Qpow10_opp e) as Ho.
  assert ((10 # 1) ^ (e - 2) == (10 # 1) ^ e * (1 # 100)) as ->.
  { unfold Z.sub. rewrite Qpower_plus by apply ten_neq_0. reflexivity. }
  assert (~ (10 # 1) ^ e == 0) as Hne by (apply Qpower_not_0, ten_neq_0).
  assert ((10 # 1) ^ (- e) == / (10 # 1) ^ e) as ->.
  { apply Qmult_inj_l with ((10 # 1) ^ e); [exact Hne|].
    rewrite Ho. field. exact Hne. }
  rewrite (Qmake_Qdiv r 100). change (inject_Z (Z.pos 100)) with 100.
  change (inject_Z 100) with 100. field. exact Hne.
Qed.

Lemma tax_unrounded_scaled (c e : Z) :
  Spec.tax_unrounded (value (mk c e))
  == inject_Z (tax_units (bracket_of (c * 10 ^ Z.max e 0) (10 ^ (- Z.min e 0)))
                         (c * 10 ^ Z.max e 0) (10 ^ (- Z.min e 0)))
     * (10 # 1) ^ (Z.min e 0 - 2).
Proof.
  unfold Spec.tax_unrounded. rewrite bracket_value.
  pose proof (value_split c e) as Hv.
  set (X := (c * 10 ^ Z.max e 0)%Z) in *. set (e' := Z.min e 0) in *.
  assert (e' <= 0)%Z as He' by (subst e'; lia).
  unfold bracket_of.
  destruct (X <? 700000 * 10 ^ (- e'))%Z;
    [|destruct (X <? 1000000 * 10 ^ (- e'))%Z;
      [|destruct (X <? 1200000 * 10 ^ (- e'))%Z;
        [|destruct (X <? 1500000 * 10 ^ (- e'))%Z]]];
    cbn [nth Spec.baseTax Spec.previousThreshold Spec.rate tax_units];
    rewrite Hv.
  - change (inject_Z 0) with 0. ring.
  - rewrite <- (tax_formula_scaled X e' 700000 0 10 He').
    change (inject_Z 0) with 0. reflexivity.
  - apply (tax_formula_scaled X e' 1000000 30000 15 He').
  - apply (tax_formula_scaled X e' 1200000 60000 20 He').
  - apply (tax_formula_scaled X e' 1500000 120000 30 He').
Qed.

Local Close Scope Q_scope.

Lemma tax_units_nonneg (X P : Z) :
  0 <= X -> 0 < P -> 0 <= tax_units (bracket_of X P) X P.
Proof.
  intros HX HP. unfold bracket_of.
  destruct (Z.ltb_spec X (700000 * P)); [simpl; lia|].
  destruct (Z.ltb_spec X (1000000 * P)); [simpl; lia|].
  destruct (Z.ltb_spec X (1200000 * P)); [simpl; lia|].
  destruct (Z.ltb_spec X (1500000 * P)); simpl; lia.
Qed.

Lemma calculate_tax_value (y : Decimal) :
  tax_domain y ->
  exists t,
    calculate_tax y = Some t /\ exp t = -2
    /\ (value t == Spec.tax (value y))%Q.
Proof.
  intros Hdom. eexists. split; [apply calculate_tax_exact; exact Hdom|].
  split; [reflexivity|].
  destruct y as [c e]. destruct Hdom as (Hc & Hb & He). cbn [coeff exp] in *.
  pose proof (pow10_pos (- Z.min e 0) ltac:(lia)) as HP.
  pose proof (pow10_pos (Z.max e 0) ltac:(lia)) as HM.
  unfold Spec.tax. rewrite (round2_comp _ _ (tax_unrounded_scaled c e)).
  set (T := tax_units _ _ _).
  assert (0 <= T) as HT by (apply tax_units_nonneg; nia).
  rewrite <- (value_to_cents T (Z.min e 0 - 2) HT).
  unfold to_cents.
  destruct (Z.leb_spec (Z.min e 0 - 2) (-2)); [|lia].
  replace (-2 - (Z.min e 0 - 2)) with (- Z.min e 0) by lia. reflexivity.
Qed.

(** C2, on the incomes of [tax_domain].  The bracket index that the
    bisection finds is the number of thresholds less than or equal to the
    income, for every income; on the domain the tax is the formula of that
    bracket rounded half-up to two places; an income equal to a threshold
    is in the bracket above it; [tax(500000) = 0.00] and
    [tax(800000) = 10000.00]. *)
Theorem tax_correct :
  (forall y : Decimal,
      bisect_right THRESHOLDS y = Some (Spec.bracket (value y)))
  /\ (forall y : Decimal,
        tax_domain y ->
        exists t,
          calculate_tax y = Some t
          /\ exp t = -2
          /\ (value t == Spec.tax (value y))%Q)
  /\ Spec.bracket (value (of_Z 700000)) = 1%nat
  /\ calculate_tax (of_Z 500000) = Some (dec 0 2)
  /\ calculate_tax (of_Z 800000) = Some (dec 1000000 2).
Proof.
  split; [|split; [|split; [|split]]]; try reflexivity.
  - intros [c e]. rewrite bisect_right_thresholds, bracket_value. reflexivity.
  - apply calculate_tax_value.
Qed.

Lemma tax_correct_witness :
  tax_domain (dec 123456789 2)
  /\ exists t,
       calculate_tax (dec 123456789 2) = Some t
       /\ exp t = -2
       /\ (value t == Spec.tax (value (dec 123456789 2)))%Q.
Proof.
  assert (tax_domain (dec 123456789 2)) as Hdom
    by (repeat split; vm_compute; congruence).
  split; [exact Hdom|].
  exact (proj1 (proj2 tax_correct) (dec 123456789 2) Hdom).
Defined.

(** Two incomes outside the domain.  On [1E+30] the tax cannot be
    quantized to two places within the precision, so the call raises.  On
    [1500000.04999999999999999999999] the sum is rounded to 28 digits
    before it is quantized, and the double rounding gives one hundredth
    more than the formula. *)
Lemma tax_outside_domain :
  calculate_tax (mk 1 30) = None
  /\ calculate_tax (dec 150000004999999999999999999999 23)
     = Some (dec 12000002 2)
  /\ (Spec.tax (value (dec 150000004999999999999999999999 23))
      == value (dec 12000001 2))%Q
  /\ ~ (value (dec 12000002 2)
        == Spec.tax (value (dec 150000004999999999999999999999 23)))%Q.
Proof.
  split; [|split; [|split]]; try reflexivity.
  intros H. vm_compute in H. discriminate H.
Qed.

(** *** The tax is non-decreasing wherever it is defined *)

Local Open Scope Q_scope.

Lemma tax_chain_mono (prev base rate a b ta tb : Decimal) :
  (0 <= coeff base)%Z -> (0 <= coeff rate)%Z ->
  value prev <= value a -> value a <= value b ->
  tax_chain prev base rate a = Some ta ->
  tax_chain prev base rate b = Some tb ->
  value ta <= value tb.
Proof.
  intros Hbase Hrate Hpa Hab Ha Hb. unfold tax_chain in Ha, Hb.
  apply value_nonneg in Hbase. apply value_nonneg in Hrate.
  unfold sub, add, mul in Ha, Hb. fold (sub_exact a prev) in Ha.
  fold (sub_exact b prev) in Hb.
  destruct (_fix (sub_exact a prev)) as [xa|] eqn:Hxa;
    cbn [mbind option_bind] in Ha; [|discriminate].
  destruct (_fix (sub_exact b prev)) as [xb|] eqn:Hxb;
    cbn [mbind option_bind] in Hb; [|discriminate].
  assert (0 <= coeff (sub_exact a prev))%Z as Hs0
      by (apply value_nonneg; rewrite value_sub_exact; lra).
  assert (value (sub_exact a prev) <= value (sub_exact b prev)) as Hs1
      by (rewrite !value_sub_exact; lra).
  destruct (fix_mono _ _ _ _ Hs0 Hs1 Hxa Hxb) as (Hx & Hxa0 & Hxb0).
  apply value_nonneg in Hxa0. apply value_nonneg in Hxb0.
  destruct (_fix (mul_exact xa rate)) as [ma|] eqn:Hma;
    cbn [mbind option_bind] in Ha; [|discriminate].
  destruct (_fix (mul_exact xb rate)) as [mb|] eqn:Hmb;
    cbn [mbind option_bind] in Hb; [|discriminate].
  assert (0 <= value (mul_exact xa rate)) as Hm0
      by (rewrite value_mul_exact; apply Qmult_le_0_compat; assumption).
  assert (value (mul_exact xa rate) <= value (mul_exact xb rate)) as Hm1.
  { rewrite !value_mul_exact. apply Qmult_le_compat_r; assumption. }
  apply value_nonneg in Hm0.
  destruct (fix_mono _ _ _ _ Hm0 Hm1 Hma Hmb) as (Hm & Hma0 & Hmb0).
  apply value_nonneg in Hma0. apply value_nonneg in Hmb0.
  destruct (_fix (add_exact base ma)) as [sa|] eqn:Hsa;
    cbn [mbind option_bind] in Ha; [|discriminate].
  destruct (_fix (add_exact base mb)) as [sb|] eqn:Hsb;
    cbn [mbind option_bind] in Hb; [|discriminate].
  assert (0 <= coeff (add_exact base ma))%Z as Ha0
      by (apply value_nonneg; rewrite value_add_exact; lra).
  assert (value (add_exact base ma) <= value (add_exact base mb)) as Ha1
      by (rewrite !value_add_exact; lra).
  destruct (fix_mono _ _ _ _ Ha0 Ha1 Hsa Hsb) as (Hs & Hsa0 & _).
  apply (quantize_mono _ _ _ _ _ Hsa0 Hs Ha Hb).
Qed.

(** Below the first threshold the rate is zero, and so is the tax. *)
Lemma tax_chain_zero_rate (prev base y t : Decimal) :
  coeff base = 0%Z ->
  tax_chain prev base (dec 0 1) y = Some t -> coeff t = 0%Z.
Proof.
  intros Hbase H. unfold tax_chain in H.
  destruct (sub y prev) as [x|]; cbn [mbind option_bind] in H; [|discriminate].
  unfold mul, mul_exact, dec in H. cbn [coeff exp] in H.
  rewrite Z.mul_0_r in H.
  destruct (_fix (mk 0 _)) as [m|] eqn:Hm; cbn [mbind option_bind] in H;
    [|discriminate].
  apply fix_zero in Hm.
  unfold add, add_exact, align in H. rewrite Hbase, Hm in H.
  rewrite !Z.mul_0_l in H. change (0 + 0)%Z with 0%Z in H.
  destruct (_fix (mk 0 _)) as [s|] eqn:Hs; cbn [mbind option_bind] in H;
    [|discriminate].
  apply fix_zero in Hs. destruct s as [cs es]. cbn [coeff] in Hs. subst cs.
  unfold quantize, TWO_PLACES in H. cbn [coeff exp] in H.
  assert ((Etiny <=? -2) && (-2 <=? Emax) = true) as E by reflexivity.
  rewrite E in H. cbn [negb Z.eqb] in H.
  apply fix_zero in H. exact H.
Qed.

(** [calculate_tax] is the computation of the bracket of the income. *)
Lemma calculate_tax_bracket (y : Decimal) :
  calculate_tax y
  = match Spec.bracket (value y) with
    | 0%nat => tax_chain (of_Z 0) (of_Z 0) (dec 0 1) y
    | 1%nat => tax_chain (of_Z 700000) (of_Z 0) (dec 10 2) y
    | 2%nat => tax_chain (of_Z 1000000) (of_Z 30000) (dec 15 2) y
    | 3%nat => tax_chain (of_Z 1200000) (of_Z 60000) (dec 20 2) y
    | _ => tax_chain (of_Z 1500000) (of_Z 120000) (dec 30 2) y
    end.
Proof.
  destruct y as [c e]. unfold calculate_tax.
  rewrite bisect_right_thresholds, bracket_value. unfold bracket_of.
  cbn [mbind option_bind].
  destruct (_ <? _)%Z; [reflexivity|].
  destruct (_ <? _)%Z; [reflexivity|].
  destruct (_ <? _)%Z; [reflexivity|].
  destruct (_ <? _)%Z; reflexivity.
Qed.

Local Close Scope Q_scope.

Local Open Scope Q_scope.

Lemma value_dec2 (n : Z) : value (dec n 2) == inject_Z n / 100.
Proof.
  unfold value, dec. cbn [coeff exp].
  change (inject_Z n * (1 # 100) == inject_Z n / 100). field.
Qed.

(** The least and the largest tax of each bracket. *)
Lemma tax_bounds (y t : Decimal) :
  calculate_tax y = Some t ->
  match Spec.bracket (value y) with
  | 0%nat => value t == 0
  | 1%nat => 0 <= value t <= 30000
  | 2%nat => 30000 <= value t <= 60000
  | 3%nat => 60000 <= value t <= 120000
  | _ => 120000 <= value t
  end.
Proof.
  rewrite calculate_tax_bracket.
  destruct (SpecFacts.bracket_cases (value y))
    as [[Hy ->]|[[Hy ->]|[[Hy ->]|[[Hy ->]|[Hy ->]]]]]; intros H.
  - apply tax_chain_zero_rate in H; [|reflexivity].
    unfold value. rewrite H. change (inject_Z 0) with 0. ring.
  - split.
    + apply Qle_trans with (value (dec 0 2)); [vm_compute; discriminate|].
      refine (tax_chain_mono (of_Z 700000) (of_Z 0) (dec 10 2)
                (of_Z 700000) y _ _ _ _ _ _ eq_refl H);
        try (cbn; lia); rewrite ?value_of_Z; try apply Qle_refl; apply Hy.
    + apply Qle_trans with (value (dec 3000000 2)); [|vm_compute; discriminate].
      refine (tax_chain_mono (of_Z 700000) (of_Z 0) (dec 10 2) y
                (of_Z 1000000) _ _ _ _ _ _ H eq_refl);
        try (cbn; lia); rewrite ?value_of_Z; try apply Hy.
      apply Qlt_le_weak, Hy.
  - split.
    + apply Qle_trans with (value (dec 3000000 2)); [vm_compute; discriminate|].
      refine (tax_chain_mono (of_Z 1000000) (of_Z 30000) (dec 15 2)
                (of_Z 1000000) y _ _ _ _ _ _ eq_refl H);
        try (cbn; lia); rewrite ?value_of_Z; try apply Qle_refl; apply Hy.
    + apply Qle_trans with (value (dec 6000000 2)); [|vm_compute; discriminate].
      refine (tax_chain_mono (of_Z 1000000) (of_Z 30000) (dec 15 2) y
                (of_Z 1200000) _ _ _ _ _ _ H eq_refl);
        try (cbn; lia); rewrite ?value_of_Z; try apply Hy.
      apply Qlt_le_weak, Hy.
  - split.
    + apply Qle_trans with (value (dec 6000000 2)); [vm_compute; discriminate|].
      refine (tax_chain_mono (of_Z 1200000) (of_Z 60000) (dec 20 2)
                (of_Z 1200000) y _ _ _ _ _ _ eq_refl H);
        try (cbn; lia); rewrite ?value_of_Z; try apply Qle_refl; apply Hy.
    + apply Qle_trans with (value (dec 12000000 2)); [|vm_compute; discriminate].
      refine (tax_chain_mono (of_Z 1200000) (of_Z 60000) (dec 20 2) y
                (of_Z 1500000) _ _ _ _ _ _ H eq_refl);
        try (cbn; lia); rewrite ?value_of_Z; try apply Hy.
      apply Qlt_le_weak, Hy.
  - apply Qle_trans with (value (dec 12000000 2)); [vm_compute; discriminate|].
      refine (tax_chain_mono (of_Z 1500000) (of_Z 120000) (dec 30 2)
                (of_Z 1500000) y _ _ _ _ _ _ eq_refl H);
        try (cbn; lia); rewrite ?value_of_Z; try apply Qle_refl; apply Hy.
Qed.

(** Whenever the tax of two incomes is defined, it is in their order. *)
Lemma calculate_tax_mono_defined (a b ta tb : Decimal) :
  value a <= value b ->
  calculate_tax a = Some ta -> calculate_tax b = Some tb ->
  value ta <= value tb.
Proof.
  intros Hab Ha Hb.
  pose proof (tax_bounds a ta Ha) as Ba.
  pose proof (tax_bounds b tb Hb) as Bb.
  rewrite calculate_tax_bracket in Ha, Hb.
  destruct (SpecFacts.bracket_cases (value a))
    as [[Hya Ea]|[[Hya Ea]|[[Hya Ea]|[[Hya Ea]|[Hya Ea]]]]];
    destruct (SpecFacts.bracket_cases (value b))
      as [[Hyb Eb]|[[Hyb Eb]|[[Hyb Eb]|[[Hyb Eb]|[Hyb Eb]]]]];
    rewrite Ea in Ha, Ba; rewrite Eb in Hb, Bb;
    try (exfalso; lra); try lra.
  - refine (tax_chain_mono _ _ _ a b _ _ _ _ _ _ Ha Hb);
      try (cbn; lia); rewrite ?value_of_Z; try apply Hya; exact Hab.
  - refine (tax_chain_mono _ _ _ a b _ _ _ _ _ _ Ha Hb);
      try (cbn; lia); rewrite ?value_of_Z; try apply Hya; exact Hab.
  - refine (tax_chain_mono _ _ _ a b _ _ _ _ _ _ Ha Hb);
      try (cbn; lia); rewrite ?value_of_Z; try apply Hya; exact Hab.
  - refine (tax_chain_mono _ _ _ a b _ _ _ _ _ _ Ha Hb);
      try (cbn; lia); rewrite ?value_of_Z; try apply Hya; exact Hab.
Qed.

Local Close Scope Q_scope.

(** C8. The tax is non-decreasing: whenever the tax of two incomes
    [a <= b] is defined, [tax(a) <= tax(b)], and it is defined on the
    whole of [tax_domain].  It is continuous at the bracket boundaries: at
    every threshold the entries of the bracket below and of the bracket
    above give the same tax, which is the tax of the threshold, and the
    base tax of a bracket is the base tax of the bracket below plus the
    width of that bracket times its rate. *)
Theorem tax_monotone_continuous :
  (forall a b ta tb : Decimal,
      leb a b = true ->
      calculate_tax a = Some ta -> calculate_tax b = Some tb ->
      leb ta tb = true)
  /\ (forall a b : Decimal,
        tax_domain a -> tax_domain b -> leb a b = true ->
        exists ta tb,
          calculate_tax a = Some ta /\ calculate_tax b = Some tb
          /\ leb ta tb = true)
  /\ (forall (idx : nat) (th : Decimal),
        THRESHOLDS !! idx = Some th ->
        exists t,
          calculate_tax th = Some t
          /\ tax_in_bracket idx th = Some t
          /\ tax_in_bracket (S idx) th = Some t)
  /\ (forall (idx : nat) (th prev base rate next : Decimal),
        THRESHOLDS !! idx = Some th ->
        PREV_THRESHOLDS !! idx = Some prev ->
        BASE_TAX !! idx = Some base ->
        RATES !! idx = Some rate ->
        BASE_TAX !! S idx = Some next ->
        (value next == value base + (value th - value prev) * value rate)%Q).
Proof.
  split; [|split; [|split]].
  - intros a b ta tb Hab Ha Hb. apply leb_value.
    apply leb_value in Hab. apply (calculate_tax_mono_defined a b); assumption.
  - intros a b Ha Hb Hab.
    destruct (calculate_tax_value a Ha) as (ta & Hta & _).
    destruct (calculate_tax_value b Hb) as (tb & Htb & _).
    exists ta, tb. split; [exact Hta|]. split; [exact Htb|].
    apply leb_value. apply leb_value in Hab.
    apply (calculate_tax_mono_defined a b); assumption.
  - intros idx th H.
    destruct idx as [|[|[|[|idx]]]]; cbn in H; try discriminate;
      injection H as <-; eexists; repeat split; reflexivity.
  - intros idx th prev base rate next Hth Hprev Hbase Hrate Hnext.
    destruct idx as [|[|[|[|idx]]]]; cbn in Hth; try discriminate;
      cbn in Hprev, Hbase, Hrate, Hnext;
      injection Hth as <-; injection Hprev as <-; injection Hbase as <-;
      injection Hrate as <-; injection Hnext as <-; reflexivity.
Qed.

Lemma tax_monotone_continuous_witness :
  leb (of_Z 900000) (of_Z 1000000) = true
  /\ leb (dec 2000000 2) (dec 3000000 2) = true
  /\ (exists ta tb,
        calculate_tax (of_Z 900000) = Some ta
        /\ calculate_tax (of_Z 1000000) = Some tb
        /\ leb ta tb = true)
  /\ (exists t,
        calculate_tax (of_Z 1000000) = Some t
        /\ tax_in_bracket 1 (of_Z 1000000) = Some t
        /\ tax_in_bracket 2 (of_Z 1000000) = Some t)
  /\ (value (of_Z 30000)
      == value (of_Z 0)
         + (value (of_Z 1000000) - value (of_Z 700000)) * value (dec 10 2))%Q.
Proof.
  destruct tax_monotone_continuous as (Hmono & Htotal & Hcont & Htable).
  assert (tax_domain (of_Z 900000)) as Ha
    by (repeat split; vm_compute; congruence).
  assert (tax_domain (of_Z 1000000)) as Hb
    by (repeat split; vm_compute; congruence).
  split; [reflexivity|]. split.
  - exact (Hmono (of_Z 900000) (of_Z 1000000) (dec 2000000 2)
             (dec 3000000 2) eq_refl eq_refl eq_refl).
  - split; [exact (Htotal _ _ Ha Hb eq_refl)|]. split.
    + exact (Hcont 1%nat (of_Z 1000000) eq_refl).
    + exact (Htable 1%nat (of_Z 1000000) (of_Z 700000) (of_Z 0) (dec 10 2)
               (of_Z 30000) eq_refl eq_refl eq_refl eq_refl eq_refl).
Defined.

End TaxCorrect.

(** ** The additive rules *)

Section Additive.

Import Decimal Rounding DecimalFacts.

Lemma apply_extras_sum (t : datetime) (r : Decimal) (parsed_p : list parsed_p_rule) :
  apply_extras t r parsed_p = sum_from r (extras_at t parsed_p).
Proof.
  revert r. induction parsed_p as [|[[s e] x] parsed_p IH]; intros r;
    [reflexivity|].
  unfold extras_at in *. cbn [apply_extras List.filter fst snd].
  destruct (between s t e); cbn [map sum_from snd].
  - destruct (add r x); cbn [mbind option_bind]; [apply IH|reflexivity].
  - apply IH.
Qed.

Lemma magnitude_nonneg (u : Z) (d : Decimal) : 0 <= magnitude u d.
Proof.
  unfold magnitude. apply Z.mul_nonneg_nonneg; [lia|].
  apply Z.pow_nonneg. lia.
Qed.

Lemma total_nonneg (u : Z) (l : list Decimal) : 0 <= total u l.
Proof.
  induction l as [|d l IH]; simpl; [lia|].
  pose proof (magnitude_nonneg u d). lia.
Qed.

(** Adding two numbers of small size is exact, and the size of the sum
    is at most the sum of the sizes. *)
Lemma add_small (u : Z) (a b : Decimal) :
  Etiny <= u -> u <= exp a <= Etop -> u <= exp b <= Etop ->
  magnitude u a + magnitude u b < 10 ^ prec ->
  add a b = Some (add_exact a b)
  /\ exp (add_exact a b) = Z.min (exp a) (exp b)
  /\ magnitude u (add_exact a b) <= magnitude u a + magnitude u b.
Proof.
  intros Hu Ha Hb Hm. unfold magnitude in *.
  unfold add_exact, align. cbn [coeff exp].
  set (m := Z.min (exp a) (exp b)) in *.
  assert (10 ^ (exp a - u) = 10 ^ (exp a - m) * 10 ^ (m - u)) as Ea
      by (rewrite <- Z.pow_add_r by lia; f_equal; lia).
  assert (10 ^ (exp b - u) = 10 ^ (exp b - m) * 10 ^ (m - u)) as Eb
      by (rewrite <- Z.pow_add_r by lia; f_equal; lia).
  pose proof (pow10_pos (m - u) ltac:(lia)) as Hp.
  pose proof (pow10_pos (exp a - m) ltac:(lia)) as Hpa.
  pose proof (pow10_pos (exp b - m) ltac:(lia)) as Hpb.
  rewrite Ea, Eb in Hm |- *.
  set (A := coeff a * 10 ^ (exp a - m)) in *.
  set (B := coeff b * 10 ^ (exp b - m)) in *.
  assert (Z.abs (coeff a) * (10 ^ (exp a - m) * 10 ^ (m - u))
          = Z.abs A * 10 ^ (m - u)) as EA
      by (unfold A; rewrite Z.abs_mul, (Z.abs_eq (10 ^ _)) by lia; ring).
  assert (Z.abs (coeff b) * (10 ^ (exp b - m) * 10 ^ (m - u))
          = Z.abs B * 10 ^ (m - u)) as EB
      by (unfold B; rewrite Z.abs_mul, (Z.abs_eq (10 ^ _)) by lia; ring).
  rewrite EA, EB in Hm |- *.
  assert (Z.abs (A + B) * 10 ^ (m - u)
          <= Z.abs A * 10 ^ (m - u) + Z.abs B * 10 ^ (m - u)) as Htri.
  { rewrite <- Z.mul_add_distr_r. apply Z.mul_le_mono_nonneg_r; lia. }
  split; [|split; [reflexivity|exact Htri]].
  apply fix_exact; [|lia].
  assert (Z.abs (A + B) * 1 <= Z.abs (A + B) * 10 ^ (m - u))
    by (apply Z.mul_le_mono_nonneg_l; lia).
  lia.
Qed.

Lemma sum_from_exact (u : Z) (l : list Decimal) (start : Decimal) :
  Etiny <= u ->
  Forall (fun d => u <= exp d <= Etop) (start :: l) ->
  total u (start :: l) < 10 ^ prec ->
  exists r,
    sum_from start l = Some r
    /\ exp r = min_exp start l
    /\ (value r == value start + Qsum l)%Q.
Proof.
  intros Hu. revert start.
  induction l as [|d l IH]; intros start Hall Htot.
  - exists start. split; [reflexivity|]. split; [reflexivity|]. simpl. ring.
  - inversion Hall as [|? ? Hs Hall']; subst.
    inversion Hall' as [|? ? Hd Hl]; subst.
    cbn [total fold_right] in Htot.
    pose proof (total_nonneg u l) as Hn.
    fold (total u l) in Htot.
    destruct (add_small u start d Hu Hs Hd ltac:(lia)) as (Hadd & Hexp & Hmag).
    cbn [sum_from]. rewrite Hadd. cbn [mbind option_bind].
    destruct (IH (add_exact start d)) as (r & Hr & Her & Hvr).
    + constructor; [rewrite Hexp; lia|exact Hl].
    + cbn [total fold_right]. fold (total u l). lia.
    + exists r. split; [exact Hr|]. split.
      * rewrite Her. unfold min_exp. cbn [fold_right].
        fold (min_exp (add_exact start d) l) (min_exp start l).
        clear -Hexp. induction l as [|x l IHl]; simpl; lia.
      * rewrite Hvr, value_add_exact. simpl. ring.
Qed.

Lemma total_Permutation (u : Z) (l l' : list Decimal) :
  Permutation l l' -> total u l = total u l'.
Proof. induction 1; simpl; lia. Qed.

Lemma Qsum_Permutation (l l' : list Decimal) :
  Permutation l l' -> (Qsum l == Qsum l')%Q.
Proof.
  induction 1 as [|x l l' _ IH|x y l|l l' l'' _ IH1 _ IH2]; simpl.
  - reflexivity.
  - rewrite IH. reflexivity.
  - ring.
  - rewrite IH1. exact IH2.
Qed.

Lemma min_exp_Permutation (start : Decimal) (l l' : list Decimal) :
  Permutation l l' -> min_exp start l = min_exp start l'.
Proof. unfold min_exp. induction 1; simpl; lia. Qed.

Lemma extras_at_Permutation (t : datetime) (p p' : list parsed_p_rule) :
  Permutation p p' -> Permutation (extras_at t p) (extras_at t p').
Proof.
  intros H. unfold extras_at. apply Permutation_map.
  induction H as [|x l l' _ IH|x y l|l l' l'' _ IH1 _ IH2]; simpl.
  - constructor.
  - destruct (between _ _ _); [constructor|]; exact IH.
  - destruct (between (fst (fst x)) _ _), (between (fst (fst y)) _ _);
      try reflexivity. constructor.
  - etransitivity; eassumption.
Qed.

(** Two decimals with the same exponent and the same value are the same. *)
Lemma value_exp_inj (a b : Decimal) :
  exp a = exp b -> (value a == value b)%Q -> a = b.
Proof.
  destruct a as [ca ea], b as [cb eb]. cbn [exp]. intros <-.
  unfold value. cbn [coeff exp]. intros H. f_equal.
  apply inject_Z_injective.
  apply Qmult_inj_r with ((10 # 1) ^ ea)%Q;
    [apply Qpower_not_0, ten_neq_0|exact H].
Qed.

(** C4, with the condition under which decimal addition is exact (see
    [small_sum]).  The resolver returns the fixed-rule result (or the base
    remanent) to which the extras of exactly the P rules containing the
    timestamp are added, each once; with no rules at all the base remanent
    is returned unchanged; when the numbers are small the result is the
    exact sum and does not depend on the order of the rules; two
    overlapping extras of 10 and 20 add 30. *)
Theorem additive_rules_cumulative :
  (forall t b parsed_q parsed_p,
      process_transaction_rules_fast t b parsed_q parsed_p
      = sum_from (apply_fixed t b parsed_q) (extras_at t parsed_p))
  /\ (forall t b, process_transaction_rules_fast t b [] [] = Some b)
  /\ (forall t b parsed_q parsed_p,
        small_sum (apply_fixed t b parsed_q :: extras_at t parsed_p) ->
        exists r,
          process_transaction_rules_fast t b parsed_q parsed_p = Some r
          /\ (value r
              == value (apply_fixed t b parsed_q) + Qsum (extras_at t parsed_p))%Q
          /\ forall parsed_p',
              Permutation parsed_p parsed_p' ->
              process_transaction_rules_fast t b parsed_q parsed_p' = Some r)
  /\ process_transaction_rules_fast 5 (of_Z 50) []
       [(0, 10, of_Z 10); (0, 10, of_Z 20)] = Some (of_Z 80).
Proof.
  split; [|split; [|split]]; try reflexivity.
  - intros t b parsed_q parsed_p. apply apply_extras_sum.
  - intros t b parsed_q parsed_p (u & Hu & Hall & Htot).
    unfold process_transaction_rules_fast. rewrite apply_extras_sum.
    set (f := apply_fixed t b parsed_q) in *.
    destruct (sum_from_exact u _ f Hu Hall Htot) as (r & Hr & He & Hv).
    exists r. split; [exact Hr|]. split; [exact Hv|].
    intros parsed_p' Hperm. rewrite apply_extras_sum.
    pose proof (extras_at_Permutation t _ _ Hperm) as Hx.
    destruct (sum_from_exact u (extras_at t parsed_p') f Hu) as (r' & Hr' & He' & Hv').
    + inversion Hall; subst. constructor; [assumption|].
      eapply Permutation_Forall; eassumption.
    + cbn [total fold_right] in Htot |- *.
      fold (total u (extras_at t parsed_p)) in Htot.
      fold (total u (extras_at t parsed_p')).
      rewrite <- (total_Permutation u _ _ Hx). exact Htot.
    + rewrite Hr'. f_equal. apply value_exp_inj.
      * rewrite He, He'. symmetry. apply min_exp_Permutation. exact Hx.
      * rewrite Hv, Hv', (Qsum_Permutation _ _ Hx). reflexivity.
Qed.

Lemma additive_rules_cumulative_witness :
  let parsed_p : list parsed_p_rule :=
    [(0, 10, of_Z 10); (20, 30, of_Z 5); (0, 10, of_Z 20)] in
  small_sum (apply_fixed 5 (of_Z 50) [] :: extras_at 5 parsed_p)
  /\ exists r,
       process_transaction_rules_fast 5 (of_Z 50) [] parsed_p = Some r
       /\ (value r
           == value (apply_fixed 5 (of_Z 50) []) + Qsum (extras_at 5 parsed_p))%Q
       /\ forall parsed_p',
           Permutation parsed_p parsed_p' ->
           process_transaction_rules_fast 5 (of_Z 50) [] parsed_p' = Some r.
Proof.
  intros parsed_p.
  assert (small_sum (apply_fixed 5 (of_Z 50) [] :: extras_at 5 parsed_p))
    as Hsmall.
  { exists 0. split; [unfold Etiny, Etop, Emin, Emax, prec; lia|]. split.
    - repeat (apply Forall_cons; split;
              [cbn; unfold Etop, Emax, prec; lia|]).
      apply Forall_nil_2.
    - reflexivity. }
  split; [exact Hsmall|].
  exact (proj1 (proj2 (proj2 additive_rules_cumulative)) 5 (of_Z 50) []
           parsed_p Hsmall).
Defined.

(** Near the limit of the precision the order of the rules matters: the
    base remanent [1E+27] with the extras 0.5, 0.5 and -1E+27 gives 0 in
    this order (each addition of 0.5 is rounded away), and 1.0 when the
    large extra comes first. *)
Lemma additive_rules_order_matters :
  let big := mk (10 ^ 27) 0 in
  let half := (0, 10, dec 5 1) : parsed_p_rule in
  let minus_big := (0, 10, mk (- 10 ^ 27) 0) : parsed_p_rule in
  process_transaction_rules_fast 5 big [] [half; half; minus_big]
    = Some (mk 0 0)
  /\ process_transaction_rules_fast 5 big [] [minus_big; half; half]
     = Some (dec 10 1)
  /\ Permutation [half; half; minus_big] [minus_big; half; half]
  /\ ~ (value (mk 0 0) == value (dec 10 1))%Q.
Proof.
  cbv zeta. split; [reflexivity|]. split; [reflexivity|]. split.
  - apply Permutation_sym.
    apply (Permutation_cons_app [_; _] [] _ (Permutation_refl _)).
  - discriminate.
Qed.

End Additive.

(** ** The returns endpoints *)

(** Inversion of one step of a computation that succeeded. *)
Ltac bind_inv H :=
  match type of H with
  | mbind _ ?e = Some _ =>
      let E := fresh "E" in
      destruct e eqn:E; cbn [mbind option_bind] in H; [|discriminate H]
  end.

Section ReturnsCorrect.

Variable parse_date : string -> option datetime.

Variable float : Type.

Variable float_of_Decimal : Decimal -> float.

Variables fadd fmul : float -> float -> float.

Variable fdiv : float -> float -> option float.

Variable fpow : float -> Z -> option float.

Variable Decimal_of_str : float -> option Decimal.

Local Abbreviation returns :=
  (calculate_returns parse_date float_of_Decimal fadd fmul fdiv fpow
     Decimal_of_str).

Local Abbreviation entry_of :=
  (savings_entry float_of_Decimal fadd fmul fdiv fpow Decimal_of_str).

Local Abbreviation profit_of :=
  (compute_profit float_of_Decimal fadd fmul fdiv fpow Decimal_of_str).

Local Abbreviation compound :=
  (fast_compound_math float_of_Decimal fadd fmul fdiv fpow).

(** What a response of [calculate_returns] is made of. *)
Lemma calculate_returns_inv (payload : ReturnsRequest) (rate : float)
    (is_nps : bool) (resp : ReturnsResponse) :
  returns payload rate is_nps = Some resp ->
  exists parsed_q parsed_p parsed_k st yearly_income,
    parse_q parse_date (q payload) = Some parsed_q
    /\ parse_p parse_date (p payload) = Some parsed_p
    /\ parse_k_returns parse_date (k payload) = Some parsed_k
    /\ returns_loop parse_date parsed_q parsed_p (transactions payload)
         nothing_accepted = Some st
    /\ Decimal.mul (wage payload) (Decimal.of_Z 12) = Some yearly_income
    /\ Forall2 (fun pk entry =>
                  entry_of (valid_txs st) yearly_income
                    (years_to_invest (age payload))
                    (float_of_Decimal (inflation payload)) rate is_nps pk
                  = Some entry)
               parsed_k (savingsByDates resp).
Proof.
  unfold calculate_returns. intros H.
  bind_inv H. bind_inv H. bind_inv H. bind_inv H. bind_inv H. bind_inv H.
  bind_inv H. bind_inv H. injection H as <-.
  do 5 eexists. do 3 (split; [reflexivity|]).
  split; [eassumption|]. split; [reflexivity|].
  apply mapM_Some. assumption.
Qed.

Lemma In_Forall2_r {A B : Type} (P : A -> B -> Prop) (l : list A) (k : list B)
    (y : B) :
  Forall2 P l k -> In y k -> exists x, In x l /\ P x y.
Proof.
  induction 1 as [|x' y' l k Hxy _ IH]; intros Hin; [destruct Hin|].
  destruct Hin as [<-|Hin].
  - exists x'. split; [left; reflexivity|exact Hxy].
  - destruct (IH Hin) as (x & Hx & HP). exists x. split; [right; exact Hx|exact HP].
Qed.

(** C6. For every request: with the Index preset every entry of the
    response has no tax benefit; with the NPS preset every entry has one,
    a decimal computed from the amount of its window as
    [tax(yearly_income) - tax(yearly_income - deduction)] quantized to two
    places, where [yearly_income] is the wage times 12 and [deduction] is
    the least of the amount of the window, a tenth of the yearly income and
    200000. *)
Theorem tax_benefit_by_preset (payload : ReturnsRequest) :
  (forall resp,
      returns_index parse_date float_of_Decimal fadd fmul fdiv fpow
        Decimal_of_str payload = Some resp ->
      forall entry, In entry (savingsByDates resp) -> taxBenefit entry = None)
  /\ (forall resp,
        returns_nps parse_date float_of_Decimal fadd fmul fdiv fpow
          Decimal_of_str payload = Some resp ->
        exists yearly_income,
          Decimal.mul (wage payload) (Decimal.of_Z 12) = Some yearly_income
          /\ forall entry,
              In entry (savingsByDates resp) ->
              exists period_amount tenth base_tax reduced new_tax diff benefit,
                Decimal.quantize period_amount (-2) Decimal.ROUND_HALF_UP
                  = Some (s_amount entry)
                /\ Decimal.mul (Decimal.dec 10 2) yearly_income = Some tenth
                /\ calculate_tax yearly_income = Some base_tax
                /\ Decimal.sub yearly_income
                     (min3 period_amount tenth (Decimal.dec 2000000 1))
                   = Some reduced
                /\ calculate_tax reduced = Some new_tax
                /\ Decimal.sub base_tax new_tax = Some diff
                /\ Decimal.quantize diff (-2) Decimal.ROUND_HALF_UP
                   = Some benefit
                /\ taxBenefit entry = Some benefit).
Proof.
  split.
  - intros resp H entry Hin. unfold returns_index in H.
    apply calculate_returns_inv in H
      as (pq & pp & pk & st & yi & _ & _ & _ & _ & _ & Hall).
    destruct (In_Forall2_r _ _ _ _ Hall Hin) as ([[[ks ke] ss] se] & _ & He).
    unfold savings_entry in He.
    bind_inv He. bind_inv He. cbn [mbind option_bind] in He. bind_inv He.
    injection He as <-. reflexivity.
  - intros resp H. unfold returns_nps in H.
    apply calculate_returns_inv in H
      as (pq & pp & pk & st & yi & _ & _ & _ & _ & Hyi & Hall).
    exists yi. split; [exact Hyi|]. intros entry Hin.
    destruct (In_Forall2_r _ _ _ _ Hall Hin) as ([[[ks ke] ss] se] & _ & He).
    unfold savings_entry in He.
    bind_inv He. bind_inv He. bind_inv He. bind_inv He.
    injection He as <-. cbn [s_amount taxBenefit].
    rename E1 into Hb. unfold tax_benefit in Hb.
    bind_inv Hb. bind_inv Hb. bind_inv Hb. bind_inv Hb. bind_inv Hb.
    unfold TWO_PLACES in *.
    do 7 eexists. repeat split; first [eassumption|reflexivity].
Qed.

(** C7. The horizon is [max(60 - age, 5)], so at least 5 years for every
    age; and in every entry of a response the profit is
    [real_value - period_amount] quantized to two places, where
    [future_value = period_amount * (1 + rate) ** years] and
    [real_value = future_value / (1 + inflation / 100) ** years] are
    computed on floats from the amount of the window. *)
Theorem returns_horizon_and_profit (payload : ReturnsRequest) (rate : float)
    (is_nps : bool) :
  let years := years_to_invest (age payload) in
  years = Z.max (60 - age payload) 5
  /\ 5 <= years
  /\ (age payload <= 55 -> years = 60 - age payload)
  /\ (55 <= age payload -> years = 5)
  /\ (forall resp,
        returns payload rate is_nps = Some resp ->
        forall entry,
          In entry (savingsByDates resp) ->
          exists period_amount growth pct deflator real_value real diff v,
            Decimal.quantize period_amount (-2) Decimal.ROUND_HALF_UP
              = Some (s_amount entry)
            /\ fpow (fadd (float_1_0 float_of_Decimal) rate) years = Some growth
            /\ fdiv (float_of_Decimal (inflation payload))
                    (float_100_0 float_of_Decimal) = Some pct
            /\ fpow (fadd (float_1_0 float_of_Decimal) pct) years
               = Some deflator
            /\ fdiv (fmul (float_of_Decimal period_amount) growth) deflator
               = Some real_value
            /\ compound (float_of_Decimal period_amount) rate
                 (float_of_Decimal (inflation payload)) years
               = Some (fmul (float_of_Decimal period_amount) growth, real_value)
            /\ Decimal_of_str real_value = Some real
            /\ Decimal.sub real period_amount = Some diff
            /\ Decimal.quantize diff (-2) Decimal.ROUND_HALF_UP = Some v
            /\ profit entry = Some v).
Proof.
  intros years. subst years. unfold years_to_invest.
  split; [reflexivity|]. split; [lia|]. split; [lia|]. split; [lia|].
  intros resp H entry Hin.
  apply calculate_returns_inv in H
    as (pq & pp & pk & st & yi & _ & _ & _ & _ & _ & Hall).
  destruct (In_Forall2_r _ _ _ _ Hall Hin) as ([[[ks ke] ss] se] & _ & He).
  unfold savings_entry in He.
  bind_inv He. bind_inv He. bind_inv He. bind_inv He.
  injection He as <-. cbn [s_amount profit].
  rename E0 into Hp. unfold compute_profit in Hp.
  bind_inv Hp. destruct p0 as [future_value real_value].
  bind_inv Hp. bind_inv Hp.
  rename E0 into Hc. pose proof Hc as Hc'. unfold fast_compound_math in Hc.
  bind_inv Hc. bind_inv Hc. bind_inv Hc. bind_inv Hc.
  injection Hc as <- <-.
  unfold TWO_PLACES, years_to_invest in *.
  do 8 eexists. repeat split; first [eassumption|reflexivity].
Qed.

End ReturnsCorrect.

Lemma tax_benefit_by_preset_witness :
  (exists resp,
      Sample.returns_index Sample.request = Some resp
      /\ forall entry, In entry (savingsByDates resp) -> taxBenefit entry = None)
  /\ (exists resp,
        Sample.returns_nps Sample.request = Some resp
        /\ exists yearly_income,
             Decimal.mul (wage Sample.request) (Decimal.of_Z 12)
               = Some yearly_income
             /\ forall entry,
                 In entry (savingsByDates resp) ->
                 exists period_amount tenth base_tax reduced new_tax diff
                        benefit,
                   Decimal.quantize period_amount (-2) Decimal.ROUND_HALF_UP
                     = Some (s_amount entry)
                   /\ Decimal.mul (Decimal.dec 10 2) yearly_income = Some tenth
                   /\ calculate_tax yearly_income = Some base_tax
                   /\ Decimal.sub yearly_income
                        (min3 period_amount tenth (Decimal.dec 2000000 1))
                      = Some reduced
                   /\ calculate_tax reduced = Some new_tax
                   /\ Decimal.sub base_tax new_tax = Some diff
                   /\ Decimal.quantize diff (-2) Decimal.ROUND_HALF_UP
                      = Some benefit
                   /\ taxBenefit entry = Some benefit).
Proof.
  pose proof (tax_benefit_by_preset Sample.parse_date Sample.float
                Sample.float_of_Decimal Sample.fadd Sample.fmul Sample.fdiv
                Sample.fpow Sample.Decimal_of_str Sample.request)
    as (Hindex & Hnps).
  split.
  - eexists.
    refine ((fun H => conj H (Hindex _ H)) _).
    vm_compute. reflexivity.
  - eexists.
    refine ((fun H => conj H (Hnps _ H)) _).
    vm_compute. reflexivity.
Defined.

Lemma returns_horizon_and_profit_witness :
  years_to_invest (age Sample.request) = 60 - age Sample.request
  /\ exists resp,
       Sample.returns Sample.request
         (Sample.float_of_Decimal (Decimal.dec 711 4)) true = Some resp
       /\ forall entry,
           In entry (savingsByDates resp) ->
           exists period_amount real_value real diff v,
             Decimal.quantize period_amount (-2) Decimal.ROUND_HALF_UP
               = Some (s_amount entry)
             /\ fast_compound_math Sample.float_of_Decimal Sample.fadd
                  Sample.fmul Sample.fdiv Sample.fpow
                  (Sample.float_of_Decimal period_amount)
                  (Sample.float_of_Decimal (Decimal.dec 711 4))
                  (Sample.float_of_Decimal (inflation Sample.request))
                  (years_to_invest (age Sample.request))
                = Some (real_value.1, real_value.2)
             /\ Sample.Decimal_of_str real_value.2 = Some real
             /\ Decimal.sub real period_amount = Some diff
             /\ Decimal.quantize diff (-2) Decimal.ROUND_HALF_UP = Some v
             /\ profit entry = Some v.
Proof.
  pose proof (returns_horizon_and_profit Sample.parse_date Sample.float
                Sample.float_of_Decimal Sample.fadd Sample.fmul Sample.fdiv
                Sample.fpow Sample.Decimal_of_str Sample.request
                (Sample.float_of_Decimal (Decimal.dec 711 4)) true)
    as (_ & _ & Hyoung & _ & Hprofit).
  split; [apply Hyoung; cbn; lia|].
  destruct (Sample.returns Sample.request _ true) as [resp|] eqn:H;
    [|vm_compute in H; discriminate H].
  exists resp. split; [reflexivity|]. intros entry Hin.
  destruct (Hprofit _ H entry Hin)
    as (pa & growth & pct & deflator & rv & real & diff & v
        & H1 & _ & _ & _ & _ & H6 & H7 & H8 & H9 & H10).
  exists pa, (Sample.fmul (Sample.float_of_Decimal pa) growth, rv), real,
    diff, v.
  repeat split; assumption.
Defined.

(** * Further properties of the code *)

(** ** The parse endpoint *)

Section ParseEndpoint.
Import Decimal Rounding DecimalFacts.

Lemma cents_remanent_domain (a : Decimal) : cents_domain a -> remanent_domain a.
Proof.
  destruct a as [c e]. unfold cents_domain, remanent_domain. cbn [coeff exp].
  intros (Hc & He & Hb). split; [exact Hc|]. split; [|lia].
  assert (0 < 10 ^ (e + 2)) by (apply pow10_pos; lia).
  destruct (Z.max_spec e 0) as [[_ ->]|[Hle ->]].
  - rewrite Z.mul_1_r. assert (1 <= 10 ^ (e + 2)) by lia. nia.
  - assert (10 ^ e <= 10 ^ (e + 2)) by (apply pow10_le; lia).
    assert (0 < 10 ^ e) by (apply pow10_pos; lia). nia.
Qed.

(** In cents: the remanent of an amount of [N] cents. *)
Lemma calculate_remanent_cents (c e : Z) :
  cents_domain (mk c e) ->
  calculate_remanent (mk c e)
  = Some (mk ((10000 - (c * 10 ^ (e + 2)) mod 10000) mod 10000) (-2)).
Proof.
  intros Hdom. rewrite (calculate_remanent_exact _ (cents_remanent_domain _ Hdom)).
  destruct Hdom as (Hc & He & Hb). cbn [coeff exp] in *. cbv zeta.
  do 2 f_equal.
  set (e' := Z.min e 0). set (H := 10 ^ (2 - e')).
  set (A := c * 10 ^ Z.max e 0).
  assert (-2 <= e' <= 0) as He' by (subst e'; lia).
  set (k := 10 ^ (e' + 2)).
  assert (0 < k) as Hk by (apply pow10_pos; lia).
  assert (0 < H) as HH by (apply pow10_pos; lia).
  assert (H * k = 10000) as HHk.
  { subst H k. rewrite <- pow10_split by lia.
    replace (2 - e' + (e' + 2)) with 4 by lia. reflexivity. }
  assert (A * k = c * 10 ^ (e + 2)) as HAk.
  { subst A k. rewrite <- Z.mul_assoc, <- pow10_split by lia.
    f_equal. f_equal. subst e'. lia. }
  assert (to_cents ((H - A mod H) mod H) e' = ((H - A mod H) mod H) * k) as ->.
  { unfold to_cents. destruct (Z.leb_spec e' (-2)) as [Hle|Hgt]; [|reflexivity].
    assert (e' = -2) as Heq by lia. subst k. rewrite Heq.
    change (-2 - -2) with 0. rewrite round_div_exact. simpl. lia. }
  rewrite <- HAk, <- HHk.
  rewrite (Z.mul_mod_distr_r A H k) by lia.
  rewrite <- Z.mul_sub_distr_r.
  rewrite (Z.mul_mod_distr_r _ H k) by lia. reflexivity.
Qed.

Lemma value_cents (n : Z) : (value (mk n (-2)) == inject_Z n / 100)%Q.
Proof. apply (value_dec2 n). Qed.


Lemma enrich_cents (c e : Z) :
  cents_domain (mk c e) ->
  let N := c * 10 ^ (e + 2) in
  let R := (10000 - N mod 10000) mod 10000 in
  calculate_remanent (mk c e) = Some (mk R (-2))
  /\ add (mk c e) (mk R (-2)) = Some (mk (N + R) (-2))
  /\ (N + R) mod 10000 = 0
  /\ 0 <= R < 10000.
Proof.
  intros Hdom N R. split; [apply calculate_remanent_cents; exact Hdom|].
  destruct Hdom as (Hc & He & Hb). cbn [coeff exp] in *. fold N in Hb.
  assert (0 <= N) as HN.
  { subst N. assert (0 < 10 ^ (e + 2)) by (apply pow10_pos; lia). nia. }
  assert (0 <= R < 10000) as HR by (subst R; apply Z.mod_pos_bound; lia).
  assert ((N + R) mod 10000 = 0) as Hmult.
  { subst R. pose proof (Z.mod_pos_bound N 10000 ltac:(lia)) as Hm.
    pose proof (Z.div_mod N 10000 ltac:(lia)) as Hdm.
    destruct (Z.eq_dec (N mod 10000) 0) as [H0|H0].
    - rewrite H0 in *. change ((10000 - 0) mod 10000) with 0.
      rewrite Z.add_0_r. exact H0.
    - rewrite (Z.mod_small (10000 - N mod 10000)) by lia.
      replace (N + (10000 - N mod 10000))
        with ((N / 10000 + 1) * 10000) by lia.
      apply Z.mod_mul. lia. }
  split; [|split; assumption].
  assert (add_exact (mk c e) (mk R (-2)) = mk (N + R) (-2)) as Hex.
  { unfold add_exact, align. cbn [coeff exp]. rewrite Z.min_r by lia.
    change (-2 - -2) with 0. rewrite Z.pow_0_r, Z.mul_1_r.
    replace (e - -2) with (e + 2) by lia. reflexivity. }
  rewrite <- Hex. apply add_fits. rewrite Hex. unfold fits. cbn [coeff exp].
  split; [|unfold Etiny, Etop, Emin, Emax, prec; lia].
  rewrite Z.abs_eq by lia. change (10 ^ prec) with (10 ^ 28). lia.
Qed.

Local Open Scope Q_scope.

(** X1. The parse endpoint on amounts of money.  When every amount is not
    negative, has at most two fraction digits and is at most [10^26 - 100],
    the endpoint answers with one entry per transaction, in order, with
    the date and the amount of the transaction, its remanent, and the
    ceiling [amount + remanent]; the ceiling is a multiple of 100 with
    [amount <= ceiling < amount + 100], the least multiple of 100 that is
    not below the amount. *)
Theorem parse_transactions_ceiling (transactions : list TransactionInput) :
  Forall (fun tx => cents_domain (i_amount tx)) transactions ->
  exists out,
    parse_transactions transactions = Some out
    /\ Forall2 (fun tx o =>
                  e_date o = i_date tx /\ e_amount o = i_amount tx
                  /\ calculate_remanent (i_amount tx) = Some (e_remanent o)
                  /\ value (e_ceiling o)
                     == value (i_amount tx) + value (e_remanent o)
                  /\ (exists n : Z, value (e_ceiling o) == inject_Z (100 * n))
                  /\ 0 <= value (e_remanent o) < 100)
               transactions out.
Proof.
  induction 1 as [|tx l Hdom _ IH].
  - exists []. split; [reflexivity|constructor].
  - destruct IH as (out & Hout & Hall).
    destruct tx as [d [c e]]. cbn [i_amount] in Hdom.
    destruct (enrich_cents c e Hdom) as (Hrem & Hadd & Hmult & HR).
    set (N := (c * 10 ^ (e + 2))%Z) in *.
    set (R := ((10000 - N mod 10000) mod 10000)%Z) in *.
    exists ({| e_date := d; e_amount := mk c e; e_ceiling := mk (N + R) (-2);
               e_remanent := mk R (-2) |} :: out).
    split.
    { unfold parse_transactions in *. cbn [mapM i_amount i_date].
      rewrite Hrem. cbn [mbind option_bind]. rewrite Hadd.
      cbn [mbind option_bind]. rewrite Hout. reflexivity. }
    constructor; [|exact Hall]. cbn [e_date e_amount e_ceiling e_remanent
                                      i_date i_amount].
    assert (value (mk c e) == inject_Z N * (1 # 100)) as Hv.
    { pose proof (value_scaled (mk c e) (-2)) as Hs. cbn [coeff exp] in Hs.
      replace (e - -2)%Z with (e + 2)%Z in Hs by lia.
      apply Hs. exact (proj1 (proj2 Hdom)). }
    assert (forall n, value (mk n (-2)) == inject_Z n * (1 # 100)) as Hc
      by (intros n; reflexivity).
    split; [reflexivity|]. split; [reflexivity|]. split; [exact Hrem|].
    split; [|split].
    + rewrite Hv, !Hc, inject_Z_plus. ring.
    + exists ((N + R) / 10000)%Z. rewrite Hc.
      rewrite (Z.div_mod (N + R) 10000) at 1 by lia. rewrite Hmult, Z.add_0_r.
      rewrite !inject_Z_mult.
      change (inject_Z 10000) with (10000 # 1).
      change (inject_Z 100) with (100 # 1). field.
    + rewrite Hc.
      assert (inject_Z 0 <= inject_Z R) as H0 by (rewrite <- Zle_Qle; lia).
      assert (inject_Z R < inject_Z 10000) as H1 by (rewrite <- Zlt_Qlt; lia).
      change (inject_Z 0) with 0 in H0.
      change (inject_Z 10000) with (10000 # 1) in H1. lra.
Qed.

Local Close Scope Q_scope.

(** X2. The parse endpoint answers for all transactions or for none: an
    answer has one entry per transaction, and a single amount whose
    remanent cannot be computed makes the whole call fail. *)
Theorem parse_transactions_all_or_nothing
    (transactions : list TransactionInput) :
  (forall out,
      parse_transactions transactions = Some out ->
      length out = length transactions)
  /\ (forall tx,
        In tx transactions -> calculate_remanent (i_amount tx) = None ->
        parse_transactions transactions = None).
Proof.
  unfold parse_transactions. split.
  - intros out H. symmetry. apply (length_mapM _ _ _ H).
  - intros tx Hin Hnone.
    destruct (mapM _ transactions) as [out|] eqn:H; [|reflexivity].
    apply mapM_Some in H. exfalso. clear -H Hin Hnone.
    induction H as [|x y l k Hxy _ IH]; [destruct Hin|].
    destruct Hin as [->|Hin]; [|exact (IH Hin)].
    rewrite Hnone in Hxy. discriminate.
Qed.

End ParseEndpoint.

Lemma parse_transactions_ceiling_witness :
  let transactions :=
    [{| i_date := "2023-01-01 10:00:00"; i_amount := Decimal.dec 2550 2 |};
     {| i_date := "2023-01-02 10:00:00"; i_amount := Decimal.dec 10000 2 |}] in
  Forall (fun tx => cents_domain (i_amount tx)) transactions
  /\ exists out,
       parse_transactions transactions = Some out
       /\ Forall2 (fun tx o =>
                     e_date o = i_date tx /\ e_amount o = i_amount tx
                     /\ calculate_remanent (i_amount tx) = Some (e_remanent o)
                     /\ (Decimal.value (e_ceiling o)
                         == Decimal.value (i_amount tx)
                            + Decimal.value (e_remanent o))%Q
                     /\ (exists n : Z,
                            (Decimal.value (e_ceiling o) == inject_Z (100 * n))%Q)
                     /\ (0 <= Decimal.value (e_remanent o) < 100)%Q)
                  transactions out.
Proof.
  intros transactions.
  assert (Forall (fun tx => cents_domain (i_amount tx)) transactions) as Hdom
    by (repeat constructor; vm_compute; congruence).
  split; [exact Hdom|].
  exact (parse_transactions_ceiling transactions Hdom).
Defined.

Lemma parse_transactions_all_or_nothing_witness :
  let good := {| i_date := "2023-01-01 10:00:00";
                 i_amount := Decimal.dec 2550 2 |} in
  let huge := {| i_date := "2023-01-02 10:00:00";
                 i_amount := Decimal.mk 1 30 |} in
  calculate_remanent (i_amount huge) = None
  /\ parse_transactions [good; huge] = None
  /\ exists out, parse_transactions [good] = Some out /\ length out = 1%nat.
Proof.
  intros good huge.
  assert (calculate_remanent (i_amount huge) = None) as Hnone by reflexivity.
  split; [exact Hnone|]. split.
  - apply (proj2 (parse_transactions_all_or_nothing [good; huge]) huge);
      [right; left; reflexivity|exact Hnone].
  - destruct (parse_transactions [good]) as [out|] eqn:H;
      [|vm_compute in H; discriminate H].
    exists out. split; [reflexivity|].
    exact (proj1 (parse_transactions_all_or_nothing [good]) out H).
Defined.

(** ** The valid list of the validator *)

Lemma accepted_of_cons (s : gset string) (tx : TransactionOutput)
    (rest : list TransactionOutput) :
  accepted_of s (tx :: rest)
  = if is_negative tx then accepted_of s rest
    else if bool_decide (date tx ∈ s) then accepted_of s rest
    else tx :: accepted_of ({[date tx]} ∪ s) rest.
Proof.
  unfold accepted_of. simpl.
  destruct (is_negative tx); [reflexivity|].
  destruct (bool_decide (date tx ∈ s)); reflexivity.
Qed.

Lemma rejected_of_cons (s : gset string) (tx : TransactionOutput)
    (rest : list TransactionOutput) :
  select (accept_mask s (tx :: rest)) (tx :: rest) false
  = if is_negative tx then tx :: select (accept_mask s rest) rest false
    else if bool_decide (date tx ∈ s)
         then tx :: select (accept_mask s rest) rest false
    else select (accept_mask ({[date tx]} ∪ s) rest) rest false.
Proof.
  simpl. destruct (is_negative tx); [reflexivity|].
  destruct (bool_decide (date tx ∈ s)); reflexivity.
Qed.

(** The accepted transactions are not negative and have pairwise distinct
    dates, none of which was seen before. *)
Lemma accepted_of_fresh_dates (s : gset string) (txs : list TransactionOutput) :
  List.NoDup (map date (accepted_of s txs))
  /\ Forall (fun o => (date o ∉ s) /\ is_negative o = false) (accepted_of s txs).
Proof.
  revert s. induction txs as [|tx rest IH]; intros s.
  - split; constructor.
  - rewrite accepted_of_cons.
    destruct (is_negative tx) eqn:Hn; [apply IH|].
    destruct (bool_decide_reflect (date tx ∈ s)) as [Hs|Hs]; [apply IH|].
    destruct (IH ({[date tx]} ∪ s)) as [Hnd Hall]. split.
    + simpl. constructor; [|exact Hnd].
      intros Hin. apply in_map_iff in Hin as (o & Hd & Ho).
      rewrite List.Forall_forall in Hall. destruct (Hall o Ho) as [Hfresh _].
      apply Hfresh. rewrite Hd. set_solver.
    + constructor; [split; assumption|].
      eapply Forall_impl; [exact Hall|]. cbv beta.
      intros o [Hfresh Ho]. split; [set_solver|exact Ho].
Qed.

(** Every date of a transaction that is not negative was seen before or
    is the date of an accepted transaction. *)
Lemma accepted_of_covers (s : gset string) (txs : list TransactionOutput)
    (tx : TransactionOutput) :
  In tx txs -> is_negative tx = false ->
  date tx ∈ s \/ exists o, In o (accepted_of s txs) /\ date o = date tx.
Proof.
  revert s. induction txs as [|x rest IH]; intros s Hin Hn; [destruct Hin|].
  rewrite accepted_of_cons. destruct Hin as [->|Hin].
  - rewrite Hn.
    destruct (bool_decide_reflect (date tx ∈ s)) as [Hs|Hs]; [left; exact Hs|].
    right. exists tx. split; [left; reflexivity|reflexivity].
  - destruct (is_negative x) eqn:Hx; [apply IH; assumption|].
    destruct (bool_decide_reflect (date x ∈ s)) as [Hs|Hs];
      [apply IH; assumption|].
    destruct (IH ({[date x]} ∪ s) Hin Hn) as [Hd|(o & Ho & Hd)].
    + apply elem_of_union in Hd as [Hd|Hd]; [|left; exact Hd].
      apply elem_of_singleton in Hd. right. exists x.
      split; [left; reflexivity|symmetry; exact Hd].
    + right. exists o. split; [right; exact Ho|exact Hd].
Qed.

(** A list of transactions that are not negative, with distinct dates
    not seen before, is accepted whole. *)
Lemma accepted_of_clean (s : gset string) (l : list TransactionOutput) :
  List.NoDup (map date l) ->
  Forall (fun o => (date o ∉ s) /\ is_negative o = false) l ->
  accepted_of s l = l /\ select (accept_mask s l) l false = [].
Proof.
  revert s. induction l as [|x l IH]; intros s Hnd Hall; [split; reflexivity|].
  rewrite accepted_of_cons, rejected_of_cons.
  apply Forall_cons in Hall as [[Hx Hn] Hall].
  simpl in Hnd. apply List.NoDup_cons_iff in Hnd as [Hnotin Hnd].
  rewrite Hn. rewrite bool_decide_false by exact Hx.
  destruct (IH ({[date x]} ∪ s) Hnd) as [-> ->]; [|split; reflexivity].
  rewrite List.Forall_forall in Hall |- *. intros o Ho.
  destruct (Hall o Ho) as [Hfresh Hneg]. split; [|exact Hneg].
  intros Hin. apply elem_of_union in Hin as [Hin|Hin]; [|exact (Hfresh Hin)].
  apply elem_of_singleton in Hin. apply Hnotin. rewrite <- Hin.
  apply in_map. exact Ho.
Qed.

Lemma valid_is_accepted (txs : list TransactionOutput) :
  valid (validate_transactions txs) = accepted_of ∅ txs.
Proof. apply (validate_loop_mask txs ∅). Qed.

Lemma accepted_of_idem (txs : list TransactionOutput) :
  accepted_of ∅ (accepted_of ∅ txs) = accepted_of ∅ txs
  /\ select (accept_mask ∅ (accepted_of ∅ txs)) (accepted_of ∅ txs) false = [].
Proof.
  destruct (accepted_of_fresh_dates ∅ txs) as [Hnd Hall].
  apply accepted_of_clean; assumption.
Qed.

(** X3. The valid list of the validator has pairwise distinct dates;
    every date of a transaction that is not negative is the date of a
    valid transaction; an invalid entry is either negative, with the
    negative message, or not negative, with the duplicate message and the
    date of a valid transaction. *)
Theorem validate_valid_dates (txs : list TransactionOutput) :
  let r := validate_transactions txs in
  List.NoDup (map date (valid r))
  /\ (forall tx, In tx txs -> is_negative tx = false ->
        exists o, In o (valid r) /\ date o = date tx)
  /\ (forall o, In o (invalid r) ->
        (message o = Some NEGATIVE /\ is_negative o = true)
        \/ (message o = Some DUPLICATE /\ is_negative o = false
            /\ exists v, In v (valid r) /\ date v = date o)).
Proof.
  intros r. subst r. rewrite valid_is_accepted.
  split; [apply accepted_of_fresh_dates|]. split.
  - intros tx Hin Hn.
    destruct (accepted_of_covers ∅ txs tx Hin Hn) as [H|H]; [set_solver|exact H].
  - intros o Ho.
    destruct (validate_loop_mask txs ∅) as [_ Hi].
    fold (validate_transactions txs) in Hi. rewrite Hi in Ho.
    apply in_map_iff in Ho as (tx & <- & Htx). apply select_In in Htx.
    rewrite is_negative_set_message. unfold rejection. simpl.
    destruct (is_negative tx) eqn:Hn; [left; split; reflexivity|].
    right. split; [reflexivity|]. split; [reflexivity|].
    destruct (accepted_of_covers ∅ txs tx Htx Hn) as [H|H]; [set_solver|exact H].
Qed.

(** X4. Validating the valid list again accepts all of it: the valid
    list is unchanged and the invalid list is empty. *)
Theorem validate_idempotent (txs : list TransactionOutput) :
  validate_transactions (valid (validate_transactions txs))
  = {| valid := valid (validate_transactions txs); invalid := [] |}.
Proof.
  rewrite valid_is_accepted.
  destruct (validate_loop_mask (accepted_of ∅ txs) ∅) as [Hv Hi].
  fold (validate_transactions (accepted_of ∅ txs)) in Hv, Hi.
  destruct (accepted_of_idem txs) as [Ha Hr].
  fold (accepted_of ∅ (accepted_of ∅ txs)) in Hv. rewrite Ha in Hv.
  rewrite Hr in Hi. simpl in Hi.
  destruct (validate_transactions (accepted_of ∅ txs)) as [v i].
  simpl in Hv, Hi. subst. reflexivity.
Qed.

Lemma validate_valid_dates_witness :
  let first := Sample.transaction "2023-01-01 10:00:00" 50 100 50 in
  let again := Sample.transaction "2023-01-01 10:00:00" 20 100 80 in
  let minus := Sample.transaction "2023-01-02 10:00:00" (-10) 0 0 in
  let r := validate_transactions [first; again; minus] in
  List.NoDup (map date (valid r))
  /\ (exists o, In o (valid r) /\ date o = date again)
  /\ ((message (set_message DUPLICATE again) = Some NEGATIVE
       /\ is_negative (set_message DUPLICATE again) = true)
      \/ (message (set_message DUPLICATE again) = Some DUPLICATE
          /\ is_negative (set_message DUPLICATE again) = false
          /\ exists v, In v (valid r)
                       /\ date v = date (set_message DUPLICATE again))).
Proof.
  intros first again minus r.
  destruct (validate_valid_dates [first; again; minus]) as (Hnd & Hcov & Hinv).
  split; [exact Hnd|]. split.
  - apply Hcov; [right; left; reflexivity|reflexivity].
  - apply Hinv. left. reflexivity.
Defined.

(** ** Validating first *)

Section ValidatedInput.

Variable parse_date : string -> option datetime.
Variable float : Type.
Variable float_of_Decimal : Decimal -> float.
Variables fadd fmul : float -> float -> float.
Variable fdiv : float -> float -> option float.
Variable fpow : float -> Z -> option float.
Variable Decimal_of_str : float -> option Decimal.

Local Abbreviation returns :=
  (calculate_returns parse_date float_of_Decimal fadd fmul fdiv fpow
     Decimal_of_str).

(** X5. Validating first changes nothing downstream: on the valid list
    of the validator the filter gives the valid list it gives on the
    original transactions (with an empty invalid list), and the returns
    computation gives the same response. *)
Theorem validated_input_composes (txs : list TransactionOutput) :
  let accepted := valid (validate_transactions txs) in
  (forall q p k,
      filter_transactions parse_date q p k accepted
      = (fun rf => {| valid := valid rf; invalid := [] |})
          <$> filter_transactions parse_date q p k txs)
  /\ (forall payload rate is_nps,
        returns (set_transactions accepted payload) rate is_nps
        = returns (set_transactions txs payload) rate is_nps).
Proof.
  intros accepted. subst accepted. rewrite valid_is_accepted.
  destruct (accepted_of_idem txs) as [Ha Hr]. unfold accepted_of in *.
  split.
  - intros q p k. unfold filter_transactions.
    destruct (parse_q parse_date q) as [pq|]; simpl; [|reflexivity].
    destruct (parse_p parse_date p) as [pp|]; simpl; [|reflexivity].
    destruct (parse_k parse_date k) as [pk|]; simpl; [|reflexivity].
    rewrite !filter_loop_mask. rewrite Ha, Hr.
    destruct (mapM _ _); reflexivity.
  - intros payload rate is_nps. unfold calculate_returns. simpl.
    destruct (parse_q parse_date (q payload)) as [pq|]; simpl; [|reflexivity].
    destruct (parse_p parse_date (p payload)) as [pp|]; simpl; [|reflexivity].
    destruct (parse_k_returns parse_date (k payload)) as [pk|]; simpl;
      [|reflexivity].
    rewrite !returns_loop_mask. simpl. rewrite Ha. reflexivity.
Qed.

End ValidatedInput.

(** ** The filter *)

Section FilterEndpoint.

Variable parse_date : string -> option datetime.

Lemma resolved_Some (pq : list parsed_q_rule) (pp : list parsed_p_rule)
    (pk : list (datetime * datetime)) (tx o : TransactionOutput) :
  resolved parse_date pq pp pk tx = Some o
  <-> exists dt r,
        parse_date (date tx) = Some dt
        /\ process_transaction_rules_fast dt (remanent tx) pq pp = Some r
        /\ o = set_inkPeriod
                 (existsb (fun '(k_start, k_end) => between k_start dt k_end) pk)
                 (set_remanent r tx).
Proof.
  unfold resolved. split.
  - destruct (parse_date (date tx)) as [dt|]; simpl; [|discriminate].
    destruct (process_transaction_rules_fast dt (remanent tx) pq pp)
      as [r|] eqn:Hr; simpl; [|discriminate].
    intros [= <-]. exists dt, r. split; [reflexivity|].
    split; [exact Hr|reflexivity].
  - intros (dt & r & -> & Hr & ->). simpl. rewrite Hr. reflexivity.
Qed.

Lemma filter_transactions_mask (q : list PeriodQ) (p : list PeriodP)
    (k : list PeriodK) (txs : list TransactionOutput)
    (pq : list parsed_q_rule) (pp : list parsed_p_rule)
    (pk : list (datetime * datetime)) :
  parse_q parse_date q = Some pq -> parse_p parse_date p = Some pp ->
  parse_k parse_date k = Some pk ->
  filter_transactions parse_date q p k txs
  = v ← mapM (resolved parse_date pq pp pk)
             (valid (validate_transactions txs));
    Some {| valid := v; invalid := invalid (validate_transactions txs) |}.
Proof.
  intros Hq Hp Hk. unfold filter_transactions. rewrite Hq, Hp, Hk. simpl.
  rewrite filter_loop_mask.
  destruct (validate_loop_mask txs ∅) as [Hv Hi].
  fold (validate_transactions txs) in Hv, Hi. rewrite Hv, Hi. reflexivity.
Qed.

(** X6. When the filter fails.  A date of a Q, P or K rule that does not
    parse makes the call fail whatever the transactions, also with none.
    When the rules parse, the filter answers exactly when, for every
    transaction that the validator accepts, the date parses and the rules
    resolve: the dates of rejected transactions are never parsed. *)
Theorem filter_transactions_fails (q : list PeriodQ) (p : list PeriodP)
    (k : list PeriodK) (txs : list TransactionOutput) :
  (parse_q parse_date q = None \/ parse_p parse_date p = None
   \/ parse_k parse_date k = None ->
   filter_transactions parse_date q p k txs = None)
  /\ (forall pq pp pk,
        parse_q parse_date q = Some pq -> parse_p parse_date p = Some pp ->
        parse_k parse_date k = Some pk ->
        (is_Some (filter_transactions parse_date q p k txs)
         <-> Forall (fun tx =>
                       exists dt r,
                         parse_date (date tx) = Some dt
                         /\ process_transaction_rules_fast dt (remanent tx)
                              pq pp = Some r)
                    (valid (validate_transactions txs)))).
Proof.
  split.
  - unfold filter_transactions. intros [H|[H|H]].
    + rewrite H. reflexivity.
    + destruct (parse_q parse_date q); simpl; [|reflexivity].
      rewrite H. reflexivity.
    + destruct (parse_q parse_date q); simpl; [|reflexivity].
      destruct (parse_p parse_date p); simpl; [|reflexivity].
      rewrite H. reflexivity.
  - intros pq pp pk Hq Hp Hk.
    rewrite (filter_transactions_mask q p k txs pq pp pk Hq Hp Hk).
    set (l := valid (validate_transactions txs)).
    transitivity (is_Some (mapM (resolved parse_date pq pp pk) l)).
    { destruct (mapM _ l); simpl; split; intros H; try (eexists; reflexivity);
        destruct H; discriminate. }
    rewrite mapM_is_Some. apply Forall_iff. intros tx. unfold compose. split.
    + intros [o Ho]. apply resolved_Some in Ho as (dt & r & Hd & Hr & _).
      eauto.
    + intros (dt & r & Hd & Hr). eexists. apply resolved_Some. eauto.
Qed.

(** X7. What the filter answers.  Its invalid list is the validator's;
    its valid list is the validator's valid list, in order, each
    transaction with the same date, amount, ceiling and message, with the
    remanent that the rules resolve at its date, and with [inkPeriod] set
    to whether its date lies in some K period. *)
Theorem filter_transactions_valid (q : list PeriodQ) (p : list PeriodP)
    (k : list PeriodK) (txs : list TransactionOutput) (rf : ValidatorResponse) :
  filter_transactions parse_date q p k txs = Some rf ->
  exists pq pp pk,
    parse_q parse_date q = Some pq /\ parse_p parse_date p = Some pp
    /\ parse_k parse_date k = Some pk
    /\ invalid rf = invalid (validate_transactions txs)
    /\ Forall2 (fun tx o =>
                  date o = date tx /\ amount o = amount tx
                  /\ ceiling o = ceiling tx /\ message o = message tx
                  /\ exists dt,
                       parse_date (date tx) = Some dt
                       /\ process_transaction_rules_fast dt (remanent tx) pq pp
                          = Some (remanent o)
                       /\ inkPeriod o
                          = Some (existsb (fun '(k_start, k_end) =>
                                             between k_start dt k_end) pk))
               (valid (validate_transactions txs)) (valid rf).
Proof.
  intros H.
  destruct (parse_q parse_date q) as [pq|] eqn:Hq;
    [|unfold filter_transactions in H; rewrite Hq in H; discriminate].
  destruct (parse_p parse_date p) as [pp|] eqn:Hp;
    [|unfold filter_transactions in H; rewrite Hq, Hp in H; discriminate].
  destruct (parse_k parse_date k) as [pk|] eqn:Hk;
    [|unfold filter_transactions in H; rewrite Hq, Hp, Hk in H; discriminate].
  rewrite (filter_transactions_mask q p k txs pq pp pk Hq Hp Hk) in H.
  destruct (mapM _ _) as [v|] eqn:Hv; simpl in H; [|discriminate].
  injection H as <-. simpl.
  exists pq, pp, pk. do 4 (split; [reflexivity|]).
  apply mapM_Some in Hv. eapply Forall2_impl; [exact Hv|]. cbv beta.
  intros tx o Ho. apply resolved_Some in Ho as (dt & r & Hd & Hr & ->).
  simpl. do 4 (split; [reflexivity|]). exists dt. repeat split; assumption.
Qed.

End FilterEndpoint.

Lemma filter_transactions_fails_witness :
  let bad := {| q_fixed := Decimal.of_Z 100; q_start := "yesterday";
                q_end := "2023-01-31 23:59:59" |} in
  let tx := Sample.transaction "2023-01-16 10:00:00" 50 100 50 in
  let minus := Sample.transaction "no date" (-10) 0 0 in
  filter_transactions Sample.parse_date [bad] [] [] [] = None
  /\ is_Some (filter_transactions Sample.parse_date [] [] [] [tx; minus]).
Proof.
  intros bad tx minus. split.
  - apply (proj1 (filter_transactions_fails Sample.parse_date [bad] [] [] [])).
    left. reflexivity.
  - apply (proj2 (filter_transactions_fails Sample.parse_date [] [] []
                    [tx; minus]) [] [] [] eq_refl eq_refl eq_refl).
    constructor; [|constructor].
    exists 20230116100000, (Decimal.of_Z 50). split; reflexivity.
Defined.

Lemma filter_transactions_valid_witness :
  let q := [{| q_fixed := Decimal.of_Z 100; q_start := "2023-01-01 00:00:00";
               q_end := "2023-01-31 23:59:59" |}] in
  let p := [{| p_extra := Decimal.of_Z 20; p_start := "2023-01-01 00:00:00";
               p_end := "2023-01-31 23:59:59" |}] in
  let k := [{| k_start := "2023-01-15 00:00:00";
               k_end := "2023-01-20 23:59:59" |}] in
  let tx := Sample.transaction "2023-01-16 10:00:00" 50 100 50 in
  exists rf,
    filter_transactions Sample.parse_date q p k [tx] = Some rf
    /\ invalid rf = invalid (validate_transactions [tx])
    /\ valid rf
       = [set_inkPeriod true (set_remanent (Decimal.of_Z 120) tx)].
Proof.
  intros q p k tx.
  destruct (filter_transactions Sample.parse_date q p k [tx]) as [rf|] eqn:H;
    [|vm_compute in H; discriminate H].
  exists rf. split; [reflexivity|].
  destruct (filter_transactions_valid Sample.parse_date q p k [tx] rf H)
    as (pq & pp & pk & _ & _ & _ & Hi & _).
  split; [exact Hi|].
  vm_compute in H. injection H as <-. reflexivity.
Defined.

(** ** Rules that do not count, and the order of the rules *)

Section RulesOutside.

Lemma applicable_qs_containing (t : datetime) (parsed_q : list parsed_q_rule) :
  applicable_qs t (containing_q t parsed_q) = applicable_qs t parsed_q.
Proof.
  unfold applicable_qs, containing_q.
  induction parsed_q as [|[[[s e] f] i] l IH]; [reflexivity|].
  cbn [List.filter flat_map rule_start rule_end fst snd].
  destruct (between s t e) eqn:Hb.
  - cbn [flat_map]. rewrite Hb, IH. reflexivity.
  - rewrite IH. reflexivity.
Qed.

Lemma apply_extras_containing (t : datetime) (b : Decimal)
    (parsed_p : list parsed_p_rule) :
  apply_extras t b (containing_p t parsed_p) = apply_extras t b parsed_p.
Proof.
  unfold containing_p. revert b.
  induction parsed_p as [|[[s e] x] l IH]; intros b; [reflexivity|].
  cbn [List.filter apply_extras fst snd].
  destruct (between s t e) eqn:Hb.
  - cbn [apply_extras]. rewrite Hb.
    destruct (Decimal.add b x); simpl; [apply IH|reflexivity].
  - apply IH.
Qed.

(** X8. The resolver ignores the rules whose interval does not contain
    the timestamp: the result is that of the containing rules alone, and a
    rule whose start is after its end contains no timestamp. *)
Theorem rules_outside_ignored (t : datetime) (b : Decimal)
    (parsed_q : list parsed_q_rule) (parsed_p : list parsed_p_rule) :
  process_transaction_rules_fast t b parsed_q parsed_p
  = process_transaction_rules_fast t b (containing_q t parsed_q)
      (containing_p t parsed_p)
  /\ (forall r, In r (containing_q t parsed_q) ->
        In r parsed_q /\ rule_start r <= t <= rule_end r)
  /\ (forall r, In r parsed_q -> rule_end r < rule_start r ->
        ~ In r (containing_q t parsed_q)).
Proof.
  split; [|split].
  - unfold process_transaction_rules_fast, apply_fixed.
    rewrite applicable_qs_containing, apply_extras_containing. reflexivity.
  - intros r Hr. apply filter_In in Hr as [Hin Hb].
    split; [exact Hin|]. apply between_spec. exact Hb.
  - intros r _ Hinv Hr. apply filter_In in Hr as [_ Hb].
    apply between_spec in Hb. lia.
Qed.

Lemma apply_fixed_Permutation (t : datetime) (b : Decimal)
    (q q' : list parsed_q_rule) :
  Permutation q q' -> List.NoDup (map rule_idx q) ->
  apply_fixed t b q = apply_fixed t b q'.
Proof.
  intros Hperm Hnd.
  assert (forall r, In r q <-> In r q') as Hin.
  { intros r. split; apply Permutation_in; [exact Hperm|symmetry; exact Hperm]. }
  destruct (apply_fixed_spec t b q) as [[Hnone ->]|(w & Hw & Hc & Hmax & ->)];
    destruct (apply_fixed_spec t b q')
      as [[Hnone' ->]|(w' & Hw' & Hc' & Hmax' & ->)].
  - reflexivity.
  - destruct (Hnone w' (proj2 (Hin w') Hw') Hc').
  - destruct (Hnone' w (proj1 (Hin w) Hw) Hc).
  - f_equal. apply (same_ordinal_same_rule q); try assumption.
    + apply Hin. exact Hw'.
    + specialize (Hmax w' (proj2 (Hin w') Hw') Hc').
      specialize (Hmax' w (proj1 (Hin w) Hw) Hc).
      unfold not_above in *. lia.
Qed.

(** X9. With distinct ordinals, the order of the Q rules in the list does
    not matter: the sort by (start, ordinal) decides. *)
Theorem fixed_rules_order_irrelevant (t : datetime) (b : Decimal)
    (parsed_q parsed_q' : list parsed_q_rule) (parsed_p : list parsed_p_rule) :
  Permutation parsed_q parsed_q' ->
  List.NoDup (map rule_idx parsed_q) ->
  process_transaction_rules_fast t b parsed_q parsed_p
  = process_transaction_rules_fast t b parsed_q' parsed_p.
Proof.
  intros Hperm Hnd. unfold process_transaction_rules_fast.
  rewrite (apply_fixed_Permutation t b _ _ Hperm Hnd). reflexivity.
Qed.

End RulesOutside.

Lemma rules_outside_ignored_witness :
  let inside : parsed_q_rule := (0, 10, Decimal.of_Z 100, 0) in
  let inverted : parsed_q_rule := (8, 3, Decimal.of_Z 200, 1) in
  process_transaction_rules_fast 5 (Decimal.of_Z 50) [inside; inverted] []
  = process_transaction_rules_fast 5 (Decimal.of_Z 50)
      (containing_q 5 [inside; inverted]) (containing_p 5 [])
  /\ (In inside [inside; inverted] /\ rule_start inside <= 5 <= rule_end inside)
  /\ ~ In inverted (containing_q 5 [inside; inverted]).
Proof.
  intros inside inverted.
  destruct (rules_outside_ignored 5 (Decimal.of_Z 50) [inside; inverted] [])
    as (Hsame & Hin & Hinv).
  split; [exact Hsame|]. split.
  - apply Hin. left. reflexivity.
  - apply Hinv; [right; left; reflexivity|]. unfold rule_end, rule_start.
    simpl. lia.
Defined.

Lemma fixed_rules_order_irrelevant_witness :
  let rules : list parsed_q_rule :=
    [(0, 10, Decimal.of_Z 100, 0); (3, 8, Decimal.of_Z 200, 1);
     (3, 9, Decimal.of_Z 300, 2)] in
  Permutation rules (rev rules)
  /\ List.NoDup (map rule_idx rules)
  /\ process_transaction_rules_fast 5 (Decimal.of_Z 50) rules []
     = process_transaction_rules_fast 5 (Decimal.of_Z 50) (rev rules) [].
Proof.
  intros rules.
  assert (Permutation rules (rev rules)) as Hperm by apply Permutation_rev.
  assert (List.NoDup (map rule_idx rules)) as Hnd.
  { repeat (constructor;
            [simpl; intros Hx;
             repeat (destruct Hx as [Hx|Hx]; [discriminate Hx|]); exact Hx|]).
    constructor. }
  split; [exact Hperm|]. split; [exact Hnd|].
  exact (fixed_rules_order_irrelevant 5 (Decimal.of_Z 50) rules (rev rules) []
           Hperm Hnd).
Defined.

(** Two rules that share start and ordinal: the stable sort keeps their
    order, so the first of them wins and the order of the list matters. *)
Example same_ordinal_order_matters :
  let first : parsed_q_rule := (0, 10, Decimal.of_Z 100, 0) in
  let second : parsed_q_rule := (0, 10, Decimal.of_Z 200, 0) in
  process_transaction_rules_fast 5 (Decimal.of_Z 50) [first; second] []
    = Some (Decimal.of_Z 100)
  /\ process_transaction_rules_fast 5 (Decimal.of_Z 50) [second; first] []
     = Some (Decimal.of_Z 200).
Proof. split; reflexivity. Qed.

(** ** The responses of the returns endpoints *)

Section QuantizeExp.
Import Decimal.

Lemma quantize_exp (d : t) (e : Z) (r : rounding) (x : t) :
  quantize d e r = Some x -> exp x = e.
Proof.
  unfold quantize.
  destruct (Z.leb_spec Etiny e) as [He1|He1]; [|discriminate].
  destruct (Z.leb_spec e Emax) as [He2|He2]; [|discriminate]. cbn [andb negb].
  assert (forall c, _fix (mk c e) = Some x ->
                    ndigits (Z.abs c) <= prec \/ c = 0 -> exp x = e) as Hfix.
  { intros c. unfold _fix. cbn [coeff exp].
    destruct (Z.eqb_spec c 0) as [->|Hc].
    - intros [= <-] _. cbn [exp]. lia.
    - intros Hx [Hd|Hd]; [|contradiction].
      destruct (Etop <? ndigits (Z.abs c) + e - prec); [discriminate|].
      destruct (Z.ltb_spec e (Z.max (ndigits (Z.abs c) + e - prec) Etiny))
        as [Hlt|Hge]; [lia|].
      injection Hx as <-. reflexivity. }
  destruct (Z.eqb_spec (coeff d) 0) as [Hz|Hz].
  { intros Hx. apply (Hfix 0 Hx). right. reflexivity. }
  destruct (Emax <? adjusted d); [discriminate|].
  destruct (prec <? adjusted d - e + 1); [discriminate|].
  assert (exists c, _rescale d e r = mk c e) as [c Hc].
  { unfold _rescale. destruct (coeff d =? 0); [eexists; reflexivity|].
    destruct (e <=? exp d); eexists; reflexivity. }
  rewrite Hc. destruct (Emax <? adjusted (mk c e)); [discriminate|].
  cbn [coeff].
  destruct (Z.ltb_spec prec (ndigits (Z.abs c))) as [Hp|Hp]; [discriminate|].
  intros Hx. apply (Hfix c Hx). left. assumption.
Qed.

End QuantizeExp.

Section Responses.

Variable parse_date : string -> option datetime.
Variable float : Type.
Variable float_of_Decimal : Decimal -> float.
Variables fadd fmul : float -> float -> float.
Variable fdiv : float -> float -> option float.
Variable fpow : float -> Z -> option float.
Variable Decimal_of_str : float -> option Decimal.

Local Abbreviation returns :=
  (calculate_returns parse_date float_of_Decimal fadd fmul fdiv fpow
     Decimal_of_str).

Local Abbreviation entry_of :=
  (savings_entry float_of_Decimal fadd fmul fdiv fpow Decimal_of_str).

(** Everything a response is made of. *)
Lemma calculate_returns_parts (payload : ReturnsRequest) (rate : float)
    (is_nps : bool) (resp : ReturnsResponse) :
  returns payload rate is_nps = Some resp ->
  exists parsed_q parsed_p parsed_k st yearly_income,
    parse_q parse_date (q payload) = Some parsed_q
    /\ parse_p parse_date (p payload) = Some parsed_p
    /\ parse_k_returns parse_date (k payload) = Some parsed_k
    /\ accept_all parse_date parsed_q parsed_p nothing_accepted
         (valid (validate_transactions (transactions payload))) = Some st
    /\ Decimal.mul (wage payload) (Decimal.of_Z 12) = Some yearly_income
    /\ Forall2 (fun pk entry =>
                  entry_of (valid_txs st) yearly_income
                    (years_to_invest (age payload))
                    (float_of_Decimal (inflation payload)) rate is_nps pk
                  = Some entry)
               parsed_k (savingsByDates resp)
    /\ Decimal.quantize (total_tx_amount st) (-2) Decimal.ROUND_HALF_UP
       = Some (totalTransactionAmount resp)
    /\ Decimal.quantize (total_ceiling st) (-2) Decimal.ROUND_HALF_UP
       = Some (totalCeiling resp).
Proof.
  unfold calculate_returns. intros H.
  bind_inv H. bind_inv H. bind_inv H. bind_inv H. bind_inv H. bind_inv H.
  bind_inv H. bind_inv H. injection H as <-.
  do 5 eexists. do 3 (split; [reflexivity|]).
  split.
  { rewrite valid_is_accepted. rewrite returns_loop_mask in E2. exact E2. }
  split; [reflexivity|]. split; [apply mapM_Some; eassumption|].
  split; assumption.
Qed.


Lemma accept_all_totals (pq : list parsed_q_rule) (pp : list parsed_p_rule)
    (st st' : accepted) (l : list TransactionOutput) :
  accept_all parse_date pq pp st l = Some st' ->
  sum_from (total_tx_amount st) (map amount l) = Some (total_tx_amount st')
  /\ sum_from (total_ceiling st) (map ceiling l) = Some (total_ceiling st').
Proof.
  revert st. induction l as [|tx l IH]; intros st; simpl.
  - intros [= <-]. split; reflexivity.
  - destruct (accept_step parse_date pq pp st tx) as [st1|] eqn:H1; simpl;
      [|discriminate].
    intros H. destruct (IH _ H) as [Ha Hc].
    unfold accept_step in H1.
    bind_inv H1. bind_inv H1. bind_inv H1. bind_inv H1.
    injection H1 as <-. simpl in Ha, Hc. split; assumption.
Qed.

(** X10. The totals of a response are the sums of [amount] and of
    [ceiling] over the transactions that the validator accepts, whether or
    not their date lies in a K period, rounded half-up to two places. *)
Theorem returns_totals (payload : ReturnsRequest) (rate : float)
    (is_nps : bool) (resp : ReturnsResponse) :
  returns payload rate is_nps = Some resp ->
  let accepted := valid (validate_transactions (transactions payload)) in
  exists total_tx_amount total_ceiling,
    sum_from (Decimal.dec 0 1) (map amount accepted) = Some total_tx_amount
    /\ Decimal.quantize total_tx_amount (-2) Decimal.ROUND_HALF_UP
       = Some (totalTransactionAmount resp)
    /\ sum_from (Decimal.dec 0 1) (map ceiling accepted) = Some total_ceiling
    /\ Decimal.quantize total_ceiling (-2) Decimal.ROUND_HALF_UP
       = Some (totalCeiling resp).
Proof.
  intros H accepted.
  apply calculate_returns_parts in H
    as (pq & pp & pk & st & yi & _ & _ & _ & Hst & _ & _ & Ht & Hc).
  apply accept_all_totals in Hst as [Ha Hb]. simpl in Ha, Hb.
  exists (total_tx_amount st), (total_ceiling st).
  repeat split; assumption.
Qed.

Lemma savings_entry_shows (vt : list (datetime * Decimal)) (yi : Decimal)
    (years : Z) (inf rate : float) (is_nps : bool) (ks ke : datetime)
    (ss se : string) (entry : SavingsByDate) :
  entry_of vt yi years inf rate is_nps (ks, ke, ss, se) = Some entry ->
  s_start entry = ss /\ s_end entry = se
  /\ (exists period_amount,
        period_amount_of vt ks ke = Some period_amount
        /\ Decimal.quantize period_amount (-2) Decimal.ROUND_HALF_UP
           = Some (s_amount entry))
  /\ (exists v, profit entry = Some v /\ Decimal.exp v = -2)
  /\ (forall b, taxBenefit entry = Some b -> Decimal.exp b = -2).
Proof.
  unfold savings_entry. intros He.
  bind_inv He. bind_inv He. bind_inv He. bind_inv He. injection He as <-.
  cbn [s_start s_end s_amount profit taxBenefit].
  split; [reflexivity|]. split; [reflexivity|]. split; [eauto|]. split.
  - eexists. split; [reflexivity|]. unfold compute_profit in E0.
    destruct (fast_compound_math _ _ _ _ _ _ _ _ _) as [[fv rv]|];
      cbn [mbind option_bind] in E0; [|discriminate].
    bind_inv E0. bind_inv E0. apply quantize_exp in E0. exact E0.
  - destruct is_nps; [|discriminate]. intros b [= <-].
    unfold tax_benefit in E1.
    bind_inv E1. bind_inv E1. bind_inv E1. bind_inv E1. bind_inv E1.
    apply quantize_exp in E1. exact E1.
Qed.

Lemma Forall2_same_left {A B C D : Type} (P : A -> B -> Prop)
    (Q : A -> C -> Prop) (f : B -> D) (g : C -> D) (l : list A)
    (l1 : list B) (l2 : list C) :
  (forall x a b, P x a -> Q x b -> f a = g b) ->
  Forall2 P l l1 -> Forall2 Q l l2 -> map f l1 = map g l2.
Proof.
  intros Hfg H1. revert l2. induction H1 as [|x a l l1 Hxa _ IH]; intros l2 H2.
  - apply Forall2_nil_inv_l in H2 as ->. reflexivity.
  - apply Forall2_cons_inv_l in H2 as (b & l2' & Hxb & H2 & ->). simpl.
    rewrite (Hfg x a b Hxa Hxb), (IH l2' H2). reflexivity.
Qed.

Lemma Forall2_chain_map {A B C D : Type} (P : A -> B -> Prop)
    (Q : B -> C -> Prop) (g : C -> D) (h : A -> D) (l : list A)
    (m : list B) (n : list C) :
  (forall a b c, P a b -> Q b c -> g c = h a) ->
  Forall2 P l m -> Forall2 Q m n -> map g n = map h l.
Proof.
  intros Hgh H1. revert n. induction H1 as [|a b l m Hab _ IH]; intros n H2.
  - apply Forall2_nil_inv_l in H2 as ->. reflexivity.
  - apply Forall2_cons_inv_l in H2 as (c & n' & Hbc & H2 & ->). simpl.
    rewrite (Hgh a b c Hab Hbc), (IH n' H2). reflexivity.
Qed.

(** X11. A response has one entry per K period, in the order of the
    request, with the start and end strings of the period; every amount of
    money in it has exactly two decimals, and every entry has a profit. *)
Theorem returns_shape (payload : ReturnsRequest) (rate : float)
    (is_nps : bool) (resp : ReturnsResponse) :
  returns payload rate is_nps = Some resp ->
  map (fun entry => (s_start entry, s_end entry)) (savingsByDates resp)
  = map (fun k => (k_start k, k_end k)) (k payload)
  /\ Decimal.exp (totalTransactionAmount resp) = -2
  /\ Decimal.exp (totalCeiling resp) = -2
  /\ (forall entry,
        In entry (savingsByDates resp) ->
        Decimal.exp (s_amount entry) = -2
        /\ (exists v, profit entry = Some v /\ Decimal.exp v = -2)
        /\ (forall b, taxBenefit entry = Some b -> Decimal.exp b = -2)).
Proof.
  intros H.
  apply calculate_returns_parts in H
    as (pq & pp & pk & st & yi & _ & _ & Hk & _ & _ & Hall & Ht & Hc).
  split; [|split; [|split]].
  - unfold parse_k_returns in Hk. apply mapM_Some in Hk.
    refine (Forall2_chain_map _ _ _ _ _ _ _ _ Hk Hall).
    cbv beta. intros kk [[[ks ke] ss] se] entry Hkk He.
    bind_inv Hkk. bind_inv Hkk. injection Hkk as <- <- <- <-.
    apply savings_entry_shows in He as (-> & -> & _). reflexivity.
  - apply quantize_exp in Ht. exact Ht.
  - apply quantize_exp in Hc. exact Hc.
  - intros entry Hin.
    destruct (In_Forall2_r _ _ _ _ Hall Hin) as ([[[ks ke] ss] se] & _ & He).
    apply savings_entry_shows in He as (_ & _ & (pa & _ & Hq) & Hp & Hb).
    split; [apply quantize_exp in Hq; exact Hq|]. split; assumption.
Qed.

(** X12. The NPS and the Index response to one request have the same
    totals and, entry by entry, the same start, end and amount: they
    differ in [profit] and [taxBenefit] only. *)
Theorem presets_share_amounts (payload : ReturnsRequest)
    (r_nps r_index : ReturnsResponse) :
  returns_nps parse_date float_of_Decimal fadd fmul fdiv fpow Decimal_of_str
    payload = Some r_nps ->
  returns_index parse_date float_of_Decimal fadd fmul fdiv fpow Decimal_of_str
    payload = Some r_index ->
  totalTransactionAmount r_nps = totalTransactionAmount r_index
  /\ totalCeiling r_nps = totalCeiling r_index
  /\ map window_of (savingsByDates r_nps)
     = map window_of (savingsByDates r_index).
Proof.
  unfold returns_nps, returns_index. intros H1 H2.
  apply calculate_returns_parts in H1
    as (pq & pp & pk & st & yi & Hq & Hp & Hk & Hst & Hyi & Hall & Ht & Hc).
  apply calculate_returns_parts in H2
    as (pq' & pp' & pk' & st' & yi' & Hq' & Hp' & Hk' & Hst' & Hyi' & Hall'
        & Ht' & Hc').
  rewrite Hq in Hq'. injection Hq' as <-.
  rewrite Hp in Hp'. injection Hp' as <-.
  rewrite Hk in Hk'. injection Hk' as <-.
  rewrite Hst in Hst'. injection Hst' as <-.
  rewrite Ht in Ht'. injection Ht' as Ht'.
  rewrite Hc in Hc'. injection Hc' as Hc'.
  split; [exact Ht'|]. split; [exact Hc'|].
  refine (Forall2_same_left _ _ _ _ _ _ _ _ Hall Hall').
  cbv beta. intros [[[ks ke] ss] se] e1 e2 He1 He2.
  apply savings_entry_shows in He1 as (Hs1 & He1 & (pa1 & Hpa1 & Hq1) & _).
  apply savings_entry_shows in He2 as (Hs2 & He2 & (pa2 & Hpa2 & Hq2) & _).
  unfold window_of. rewrite Hs1, Hs2, He1, He2.
  rewrite Hpa1 in Hpa2. injection Hpa2 as <-.
  rewrite Hq1 in Hq2. injection Hq2 as ->. reflexivity.
Qed.

End Responses.

Lemma returns_totals_witness :
  exists resp,
    Sample.returns_nps Sample.request = Some resp
    /\ exists total_tx_amount total_ceiling,
         sum_from (Decimal.dec 0 1)
           (map amount
              (valid (validate_transactions (transactions Sample.request))))
         = Some total_tx_amount
         /\ Decimal.quantize total_tx_amount (-2) Decimal.ROUND_HALF_UP
            = Some (totalTransactionAmount resp)
         /\ sum_from (Decimal.dec 0 1)
              (map ceiling
                 (valid (validate_transactions (transactions Sample.request))))
            = Some total_ceiling
         /\ Decimal.quantize total_ceiling (-2) Decimal.ROUND_HALF_UP
            = Some (totalCeiling resp).
Proof.
  destruct (Sample.returns_nps Sample.request) as [resp|] eqn:H;
    [|vm_compute in H; discriminate H].
  exists resp. split; [reflexivity|].
  exact (returns_totals Sample.parse_date Sample.float Sample.float_of_Decimal
           Sample.fadd Sample.fmul Sample.fdiv Sample.fpow
           Sample.Decimal_of_str Sample.request _ true resp H).
Defined.

Lemma returns_shape_witness :
  exists resp,
    Sample.returns_index Sample.request = Some resp
    /\ map (fun entry => (s_start entry, s_end entry)) (savingsByDates resp)
       = map (fun k => (k_start k, k_end k)) (k Sample.request)
    /\ Decimal.exp (totalTransactionAmount resp) = -2
    /\ Decimal.exp (totalCeiling resp) = -2
    /\ (forall entry,
          In entry (savingsByDates resp) ->
          Decimal.exp (s_amount entry) = -2
          /\ (exists v, profit entry = Some v /\ Decimal.exp v = -2)
          /\ (forall b, taxBenefit entry = Some b -> Decimal.exp b = -2)).
Proof.
  destruct (Sample.returns_index Sample.request) as [resp|] eqn:H;
    [|vm_compute in H; discriminate H].
  exists resp. split; [reflexivity|].
  exact (returns_shape Sample.parse_date Sample.float Sample.float_of_Decimal
           Sample.fadd Sample.fmul Sample.fdiv Sample.fpow
           Sample.Decimal_of_str Sample.request _ false resp H).
Defined.

Lemma presets_share_amounts_witness :
  exists r_nps r_index,
    Sample.returns_nps Sample.request = Some r_nps
    /\ Sample.returns_index Sample.request = Some r_index
    /\ totalTransactionAmount r_nps = totalTransactionAmount r_index
    /\ totalCeiling r_nps = totalCeiling r_index
    /\ map window_of (savingsByDates r_nps)
       = map window_of (savingsByDates r_index).
Proof.
  destruct (Sample.returns_nps Sample.request) as [r_nps|] eqn:H1;
    [|vm_compute in H1; discriminate H1].
  destruct (Sample.returns_index Sample.request) as [r_index|] eqn:H2;
    [|vm_compute in H2; discriminate H2].
  exists r_nps, r_index. do 2 (split; [reflexivity|]).
  exact (presets_share_amounts Sample.parse_date Sample.float
           Sample.float_of_Decimal Sample.fadd Sample.fmul Sample.fdiv
           Sample.fpow Sample.Decimal_of_str Sample.request r_nps r_index
           H1 H2).
Defined.

(** ** The tax within its bracket, and the tax benefit *)

Section TaxBenefit.
Import Decimal Rounding DecimalFacts SpecFacts.

(** A number that [_fix] returns is one that [_fix] leaves as it is. *)
Lemma fix_idem (d r : t) : _fix d = Some r -> _fix r = Some r.
Proof.
  intros H. pose proof H as H0. destruct d as [c e]. unfold _fix in H.
  cbn [coeff exp] in H.
  assert (Etiny <= Etop <= Emax) as HE
    by (unfold Etiny, Etop, Emin, Emax, prec; lia).
  destruct (Z.eqb_spec c 0) as [->|Hc].
  { injection H as <-. unfold _fix. cbn [coeff exp Z.eqb]. do 2 f_equal. lia. }
  set (n := Z.abs c) in *. assert (0 < n) as Hn by (subst n; lia).
  destruct (Etop <? ndigits n + e - prec); [discriminate|].
  fold (quantum n e) in H.
  destruct (Z.ltb_spec e (quantum n e)) as [Hlt|Hge];
    [|injection H as <-; exact H0].
  pose proof (quotient_below_precision n e Hn ltac:(lia)) as Hq.
  pose proof (round_div_bounds ROUND_HALF_EVEN n (quantum n e - e)
                ltac:(lia) ltac:(lia)) as Hb.
  set (c1 := round_div ROUND_HALF_EVEN n (quantum n e - e)) in *.
  assert (0 <= n / 10 ^ (quantum n e - e)) as Hq0.
  { apply Z.div_pos; [lia|]. apply pow10_pos. lia. }
  assert (Etiny <= quantum n e) as Hqe by (unfold quantum; lia).
  assert (forall c2 e2, 0 <= c2 < 10 ^ prec -> Etiny <= e2 <= Etop ->
                        _fix (mk (Z.sgn c * c2) e2) = Some (mk (Z.sgn c * c2) e2))
    as Hdone.
  { intros c2 e2 Hc2 He2. destruct (Z.eq_dec c2 0) as [->|Hnz].
    - rewrite Z.mul_0_r. unfold _fix. cbn [coeff exp Z.eqb]. do 2 f_equal. lia.
    - apply fix_exact; [|exact He2]. rewrite Z.abs_mul.
      assert (Z.abs (Z.sgn c) = 1) as -> by lia. lia. }
  destruct (Z.leb_spec (10 ^ prec) c1) as [Hbig|Hsmall].
  - destruct (Z.ltb_spec Etop (quantum n e + 1)); [discriminate|].
    injection H as <-. apply Hdone; [|lia].
    assert (c1 = 10 ^ prec) as -> by lia.
    change (10 ^ prec / 10) with (10 ^ 27). change (10 ^ prec) with (10 ^ 28).
    lia.
  - destruct (Z.ltb_spec Etop (quantum n e)); [discriminate|].
    injection H as <-. apply Hdone; lia.
Qed.

Lemma sub_is_fix (a b : t) : sub a b = _fix (sub_exact a b).
Proof. reflexivity. Qed.

Lemma min3_cases (a b c : t) :
  (min3 a b c = a \/ min3 a b c = b \/ min3 a b c = c)
  /\ (value (min3 a b c) <= value a)%Q
  /\ (value (min3 a b c) <= value b)%Q.
Proof.
  unfold min3.
  destruct (ltb b a) eqn:Hba; destruct (ltb c _) eqn:Hc;
    try apply ltb_value in Hba; try apply ltb_false_value in Hba;
    try apply ltb_value in Hc; try apply ltb_false_value in Hc;
    (split; [tauto|]); split; lra.
Qed.


Local Open Scope Q_scope.

Lemma calculate_tax_exp (y t : Decimal) :
  calculate_tax y = Some t -> exp t = (-2)%Z.
Proof.
  unfold calculate_tax. intros H.
  bind_inv H. bind_inv H. bind_inv H. bind_inv H. bind_inv H. bind_inv H.
  bind_inv H. apply quantize_exp in H. exact H.
Qed.

Lemma tax_nonneg (y t : Decimal) : calculate_tax y = Some t -> 0 <= value t.
Proof.
  intros H. pose proof (tax_bounds y t H) as Hb.
  destruct (Spec.bracket (value y)) as [|[|[|[|n]]]]; lra.
Qed.

(** X13. Whenever the tax is defined it has two decimals, is not
    negative and stays within its bracket: exactly 0.00 below 700000 (also
    for a negative income), at most 30000 below 1000000, between 30000 and
    60000 below 1200000, between 60000 and 120000 below 1500000, and at
    least 120000 from 1500000 on. *)
Theorem tax_within_bracket (y t : Decimal) :
  calculate_tax y = Some t ->
  exp t = (-2)%Z
  /\ 0 <= value t
  /\ (value y < 700000 -> t = dec 0 2)
  /\ (700000 <= value y < 1000000 -> value t <= 30000)
  /\ (1000000 <= value y < 1200000 -> 30000 <= value t <= 60000)
  /\ (1200000 <= value y < 1500000 -> 60000 <= value t <= 120000)
  /\ (1500000 <= value y -> 120000 <= value t).
Proof.
  intros H. pose proof (calculate_tax_exp y t H) as He.
  pose proof (tax_bounds y t H) as Hb.
  split; [exact He|]. split; [apply (tax_nonneg y t H)|].
  destruct (bracket_cases (value y))
    as [[Hy Hi]|[[Hy Hi]|[[Hy Hi]|[[Hy Hi]|[Hy Hi]]]]];
    rewrite Hi in Hb; repeat split; intros; try lra.
  destruct t as [c e]. cbn [exp] in He. subst e. unfold dec. f_equal.
  assert (0 <= value (mk c (-2))) as H1 by lra.
  assert (0 <= value (mk (- c) (-2))) as H2.
  { change (mk (- c) (-2)) with (neg (mk c (-2))). rewrite value_neg. lra. }
  apply value_nonneg in H1, H2. cbn [coeff] in H1, H2. lia.
Qed.

(** The tax benefit is not negative, and zero when nothing was saved. *)
Lemma tax_benefit_sign (yearly_income period_amount benefit : Decimal) :
  (0 <= coeff yearly_income)%Z ->
  _fix yearly_income = Some yearly_income ->
  (0 <= coeff period_amount)%Z ->
  tax_benefit yearly_income period_amount = Some benefit ->
  exp benefit = (-2)%Z /\ 0 <= value benefit
  /\ (coeff period_amount = 0%Z -> benefit = dec 0 2).
Proof.
  intros Hyi Hfix Hpa H. unfold tax_benefit in H.
  destruct (mul (dec 10 2) yearly_income) as [tenth|] eqn:E;
    cbn [mbind option_bind] in H; [|discriminate].
  destruct (calculate_tax yearly_income) as [base_tax|] eqn:E0;
    cbn [mbind option_bind] in H; [|discriminate].
  destruct (sub yearly_income _) as [reduced|] eqn:E1;
    cbn [mbind option_bind] in H; [|discriminate].
  destruct (calculate_tax reduced) as [new_tax|] eqn:E2;
    cbn [mbind option_bind] in H; [|discriminate].
  destruct (sub base_tax new_tax) as [diff|] eqn:E3;
    cbn [mbind option_bind] in H; [|discriminate].
  unfold TWO_PLACES in H.
  pose proof (quantize_exp _ _ _ _ H) as Hexp.
  apply value_nonneg in Hyi as Hyv. apply value_nonneg in Hpa as Hpv.
  (* a tenth of the income *)
  assert (value tenth <= value yearly_income /\ (0 <= coeff tenth)%Z) as [Ht Htc].
  { unfold mul in E.
    destruct (fix_mono (mul_exact (dec 10 2) yearly_income) yearly_income
                tenth yearly_income) as (H1 & H2 & _); try assumption.
    - cbn. lia.
    - rewrite value_mul_exact.
      assert (value (dec 10 2) == 1 # 10) as -> by reflexivity. lra.
    - split; assumption. }
  set (deduction := min3 period_amount tenth (dec 2000000 1)) in *.
  destruct (min3_cases period_amount tenth (dec 2000000 1)) as (Hc & Hle1 & Hle2).
  fold deduction in Hc, Hle1, Hle2.
  assert (0 <= coeff deduction)%Z as Hdc.
  { destruct Hc as [-> | [-> | ->]]; [assumption|assumption|cbn; lia]. }
  apply value_nonneg in Hdc as Hdv.
  (* the reduced income *)
  rewrite sub_is_fix in E1.
  assert (value reduced <= value yearly_income) as Hred.
  { destruct (fix_mono (sub_exact yearly_income deduction) yearly_income
                reduced yearly_income) as (H1 & _); try assumption.
    - apply value_nonneg. rewrite value_sub_exact. lra.
    - rewrite value_sub_exact. lra. }
  pose proof (calculate_tax_mono_defined reduced yearly_income new_tax base_tax
                Hred E2 E0) as Htax.
  rewrite sub_is_fix in E3.
  assert (0 <= coeff (sub_exact base_tax new_tax))%Z as Hsub.
  { apply value_nonneg. rewrite value_sub_exact. lra. }
  destruct (fix_mono _ _ _ _ Hsub (Qle_refl _) E3 E3) as (_ & Hdiff & _).
  destruct (quantize_mono _ _ _ _ _ Hdiff (Qle_refl _) H H) as (_ & Hb).
  split; [exact Hexp|]. split; [apply value_nonneg; exact Hb|].
  (* nothing saved *)
  intros Hzero.
  assert (value period_amount == 0) as Hp0.
  { unfold value. rewrite Hzero. ring. }
  assert (value deduction == 0) as Hd0 by lra.
  assert (value yearly_income <= value reduced) as Hred'.
  { destruct (fix_mono yearly_income (sub_exact yearly_income deduction)
                yearly_income reduced) as (H1 & _); try assumption.
    rewrite value_sub_exact. lra. }
  pose proof (calculate_tax_mono_defined yearly_income reduced base_tax new_tax
                Hred' E0 E2) as Htax'.
  assert (value (sub_exact base_tax new_tax) == 0) as Hs0
    by (rewrite value_sub_exact; lra).
  assert (coeff (sub_exact base_tax new_tax) = 0%Z) as Hs0c.
  { assert (0 <= value (neg (sub_exact base_tax new_tax))) as Hn
      by (rewrite value_neg; lra).
    apply value_nonneg in Hn. cbn [neg coeff] in Hn. lia. }
  assert (coeff diff = 0%Z) as Hdz.
  { destruct (sub_exact base_tax new_tax) as [cs es]. cbn [coeff] in Hs0c.
    subst cs. apply fix_zero in E3. exact E3. }
  destruct diff as [cd ed]. cbn [coeff] in Hdz. subst cd.
  unfold quantize in H. cbn [coeff exp] in H.
  assert ((Etiny <=? -2) && (-2 <=? Emax) = true)%Z as Eb by reflexivity.
  rewrite Eb in H. cbn [negb Z.eqb] in H.
  apply fix_zero in H as Hbz. destruct benefit as [cb eb].
  cbn [coeff exp] in *. subst. reflexivity.
Qed.

Local Close Scope Q_scope.

End TaxBenefit.

Lemma tax_within_bracket_witness :
  calculate_tax (Decimal.of_Z 800000) = Some (Decimal.dec 1000000 2)
  /\ (Decimal.value (Decimal.dec 1000000 2) <= 30000)%Q
  /\ (calculate_tax (Decimal.of_Z (-5)) = Some (Decimal.dec 0 2)).
Proof.
  assert (calculate_tax (Decimal.of_Z 800000) = Some (Decimal.dec 1000000 2))
    as H by reflexivity.
  split; [exact H|]. split.
  - destruct (tax_within_bracket _ _ H) as (_ & _ & _ & Hb & _).
    apply Hb. split; vm_compute; congruence.
  - destruct (calculate_tax (Decimal.of_Z (-5))) as [t|] eqn:Ht;
      [|vm_compute in Ht; discriminate Ht].
    f_equal. destruct (tax_within_bracket _ _ Ht) as (_ & _ & Hz & _).
    apply Hz. reflexivity.
Defined.

(** ** Signs *)

Section Signs.
Import Decimal Rounding DecimalFacts.

Lemma add_nonneg (a b r : t) :
  0 <= coeff a -> 0 <= coeff b -> add a b = Some r -> 0 <= coeff r.
Proof.
  intros Ha Hb H. unfold add in H.
  assert (0 <= coeff (add_exact a b)) as Hs.
  { apply value_nonneg. rewrite value_add_exact.
    apply value_nonneg in Ha, Hb. lra. }
  destruct (fix_mono _ _ _ _ Hs (Qle_refl _) H H) as (_ & Hr & _). exact Hr.
Qed.

Lemma mul_nonneg (a b r : t) :
  0 <= coeff a -> 0 <= coeff b -> mul a b = Some r ->
  0 <= coeff r /\ _fix r = Some r.
Proof.
  intros Ha Hb H. unfold mul in H. split; [|apply (fix_idem _ _ H)].
  assert (0 <= coeff (mul_exact a b)) as Hs by (cbn; nia).
  destruct (fix_mono _ _ _ _ Hs (Qle_refl _) H H) as (_ & Hr & _). exact Hr.
Qed.

Lemma sum_from_nonneg (start r : t) (l : list t) :
  0 <= coeff start -> List.Forall (fun d => 0 <= coeff d) l ->
  sum_from start l = Some r -> 0 <= coeff r.
Proof.
  intros Hs Hl. revert start Hs. induction Hl as [|x l Hx _ IH]; intros start Hs.
  - intros [= <-]. exact Hs.
  - simpl. destruct (add start x) as [s|] eqn:Ha; simpl; [|discriminate].
    apply IH. apply (add_nonneg _ _ _ Hs Hx Ha).
Qed.

Lemma quantize_sign (d x : t) (r : rounding) :
  0 <= coeff d -> quantize d (-2) r = Some x -> 0 <= coeff x.
Proof.
  intros Hd H.
  destruct (quantize_mono r d d x x Hd (Qle_refl _) H H) as (_ & Hx). exact Hx.
Qed.

End Signs.

Section SignsOfRules.
Import Decimal.

Lemma apply_fixed_nonneg (t : datetime) (b : Decimal)
    (pq : list parsed_q_rule) :
  0 <= coeff b -> List.Forall (fun r => 0 <= coeff (rule_fixed r)) pq ->
  0 <= coeff (apply_fixed t b pq).
Proof.
  intros Hb Hq.
  destruct (apply_fixed_spec t b pq) as [[_ ->]|(w & Hw & _ & _ & ->)];
    [exact Hb|].
  rewrite List.Forall_forall in Hq. apply Hq. exact Hw.
Qed.

Lemma resolver_nonneg (t : datetime) (b r : Decimal)
    (pq : list parsed_q_rule) (pp : list parsed_p_rule) :
  0 <= coeff b -> List.Forall (fun r => 0 <= coeff (rule_fixed r)) pq ->
  List.Forall (fun r : parsed_p_rule => 0 <= coeff (snd r)) pp ->
  process_transaction_rules_fast t b pq pp = Some r -> 0 <= coeff r.
Proof.
  intros Hb Hq Hp. unfold process_transaction_rules_fast.
  rewrite apply_extras_sum. apply sum_from_nonneg.
  - apply apply_fixed_nonneg; assumption.
  - unfold extras_at. rewrite List.Forall_forall in Hp |- *.
    intros d Hd. apply in_map_iff in Hd as (x & <- & Hx).
    apply filter_In in Hx as [Hx _]. apply Hp. exact Hx.
Qed.

Variable parse_date : string -> option datetime.

Lemma parse_q_fixed (qs : list PeriodQ) (pq : list parsed_q_rule) :
  parse_q parse_date qs = Some pq ->
  List.Forall (fun q => 0 <= coeff (q_fixed q)) qs ->
  List.Forall (fun r => 0 <= coeff (rule_fixed r)) pq.
Proof.
  unfold parse_q. intros H Hq. apply mapM_Some in H.
  rewrite List.Forall_forall in Hq |- *. intros r Hr.
  apply list_elem_of_In, list_elem_of_lookup in Hr as [i Hi].
  destruct (Forall2_lookup_r _ _ _ _ _ H Hi) as ([j x] & Hx & Hp).
  rewrite list_lookup_imap in Hx.
  destruct (qs !! i) as [q0|] eqn:Hq0; simpl in Hx; [|discriminate].
  injection Hx as <- <-. simpl in Hp.
  destruct (parse_date (q_start q0)); simpl in Hp; [|discriminate].
  destruct (parse_date (q_end q0)); simpl in Hp; [|discriminate].
  injection Hp as <-. unfold rule_fixed. simpl. apply Hq.
  apply list_elem_of_In. eapply list_elem_of_lookup_2. exact Hq0.
Qed.

Lemma parse_p_extra (ps : list PeriodP) (pp : list parsed_p_rule) :
  parse_p parse_date ps = Some pp ->
  List.Forall (fun p => 0 <= coeff (p_extra p)) ps ->
  List.Forall (fun r : parsed_p_rule => 0 <= coeff (snd r)) pp.
Proof.
  unfold parse_p. intros H Hp. apply mapM_Some in H.
  induction H as [|x y l k Hxy _ IH]; [constructor|].
  apply List.Forall_cons_iff in Hp as [Hx Hl].
  constructor; [|apply IH; exact Hl].
  destruct (parse_date (p_start x)); simpl in Hxy; [|discriminate].
  destruct (parse_date (p_end x)); simpl in Hxy; [|discriminate].
  injection Hxy as <-. exact Hx.
Qed.

Lemma accept_all_nonneg (pq : list parsed_q_rule) (pp : list parsed_p_rule)
    (st st' : accepted) (l : list TransactionOutput) :
  List.Forall (fun r => 0 <= coeff (rule_fixed r)) pq ->
  List.Forall (fun r : parsed_p_rule => 0 <= coeff (snd r)) pp ->
  List.Forall (fun tx => 0 <= coeff (remanent tx)) l ->
  List.Forall (fun x : datetime * Decimal => 0 <= coeff (snd x)) (valid_txs st) ->
  accept_all parse_date pq pp st l = Some st' ->
  List.Forall (fun x : datetime * Decimal => 0 <= coeff (snd x)) (valid_txs st').
Proof.
  intros Hq Hp Hl. revert st.
  induction Hl as [|tx l Htx _ IH]; intros st Hst; simpl.
  - intros [= <-]. exact Hst.
  - destruct (accept_step parse_date pq pp st tx) as [st1|] eqn:H1; simpl;
      [|discriminate].
    apply IH. unfold accept_step in H1.
    destruct (parse_date (date tx)) as [dt|]; simpl in H1; [|discriminate].
    destruct (process_transaction_rules_fast dt (remanent tx) pq pp)
      as [r|] eqn:Hr; simpl in H1; [|discriminate].
    destruct (Decimal.add (total_tx_amount st) _); simpl in H1; [|discriminate].
    destruct (Decimal.add (total_ceiling st) _); simpl in H1; [|discriminate].
    injection H1 as <-. simpl. apply List.Forall_app. split; [exact Hst|].
    constructor; [|constructor]. simpl.
    apply (resolver_nonneg dt (remanent tx) r pq pp); assumption.
Qed.

Lemma period_amount_nonneg (vt : list (datetime * Decimal)) (ks ke : datetime)
    (pa : Decimal) :
  List.Forall (fun x : datetime * Decimal => 0 <= coeff (snd x)) vt ->
  period_amount_of vt ks ke = Some pa -> 0 <= coeff pa.
Proof.
  intros Hvt. unfold period_amount_of. apply sum_from_nonneg; [cbn; lia|].
  rewrite List.Forall_forall in Hvt |- *. intros d Hd.
  apply in_flat_map in Hd as ([dt r] & Hin & Hd).
  destruct (between ks dt ke); [|destruct Hd].
  destruct Hd as [<-|[]]. apply (Hvt _ Hin).
Qed.

End SignsOfRules.

Section ReturnsSigns.
Import Decimal DecimalFacts.

Variable parse_date : string -> option datetime.
Variable float : Type.
Variable float_of_Decimal : Decimal -> float.
Variables fadd fmul : float -> float -> float.
Variable fdiv : float -> float -> option float.
Variable fpow : float -> Z -> option float.
Variable Decimal_of_str : float -> option Decimal.

Local Abbreviation entry_of :=
  (savings_entry float_of_Decimal fadd fmul fdiv fpow Decimal_of_str).

Lemma savings_entry_nps (vt : list (datetime * Decimal)) (yi : Decimal)
    (years : Z) (inf rate : float) (pk : datetime * datetime * string * string)
    (entry : SavingsByDate) :
  entry_of vt yi years inf rate true pk = Some entry ->
  exists pa b,
    period_amount_of vt (fst (fst (fst pk))) (snd (fst (fst pk))) = Some pa
    /\ quantize pa (-2) ROUND_HALF_UP = Some (s_amount entry)
    /\ tax_benefit yi pa = Some b
    /\ taxBenefit entry = Some b.
Proof.
  destruct pk as [[[ks ke] ss] se]. unfold savings_entry. intros He.
  destruct (period_amount_of vt ks ke) as [pa|] eqn:Hpa;
    cbn [mbind option_bind] in He; [|discriminate].
  destruct (compute_profit _ _ _ _ _ _ _ _ _ _) as [v|];
    cbn [mbind option_bind] in He; [|discriminate].
  destruct (tax_benefit yi pa) as [b|] eqn:Hb;
    cbn [mbind option_bind] in He; [|discriminate].
  destruct (quantize pa TWO_PLACES ROUND_HALF_UP) as [a|] eqn:Ha;
    cbn [mbind option_bind] in He; [|discriminate].
  injection He as <-. exists pa, b. cbn [fst snd s_amount taxBenefit].
  repeat split; assumption.
Qed.

Local Open Scope Q_scope.

(** X14. With a wage, rule amounts and remanents that are not negative,
    every entry of an NPS response has an amount and a tax benefit that
    are not negative; with no transactions both are 0.00. *)
Theorem nps_amounts_nonneg (payload : ReturnsRequest)
    (resp : ReturnsResponse) :
  returns_nps parse_date float_of_Decimal fadd fmul fdiv fpow Decimal_of_str
    payload = Some resp ->
  0 <= value (wage payload) ->
  List.Forall (fun q => 0 <= value (q_fixed q)) (q payload) ->
  List.Forall (fun p => 0 <= value (p_extra p)) (p payload) ->
  List.Forall (fun tx => 0 <= value (remanent tx)) (transactions payload) ->
  forall entry,
    In entry (savingsByDates resp) ->
    0 <= value (s_amount entry)
    /\ exists benefit,
         taxBenefit entry = Some benefit
         /\ 0 <= value benefit
         /\ (transactions payload = [] ->
             s_amount entry = dec 0 2 /\ benefit = dec 0 2).
Proof.
  unfold returns_nps. intros H Hw Hq Hp Htx entry Hin.
  apply (calculate_returns_parts parse_date) in H
    as (pq & pp & pk & st & yi & Hpq & Hpp & _ & Hst & Hyi & Hall & _).
  assert (List.Forall (fun x : datetime * Decimal => (0 <= coeff (snd x))%Z)
            (valid_txs st)) as Hvt.
  { refine (accept_all_nonneg parse_date pq pp _ st _ _ _ _ _ Hst).
    - apply (parse_q_fixed parse_date _ _ Hpq).
      eapply List.Forall_impl; [|exact Hq]. intros x. apply value_nonneg.
    - apply (parse_p_extra parse_date _ _ Hpp).
      eapply List.Forall_impl; [|exact Hp]. intros x. apply value_nonneg.
    - rewrite valid_is_accepted. rewrite List.Forall_forall in Htx |- *.
      intros tx Hx. apply select_In in Hx. apply value_nonneg, Htx, Hx.
    - constructor. }
  apply value_nonneg in Hw.
  destruct (mul_nonneg (wage payload) (of_Z 12) yi Hw ltac:(cbn; lia) Hyi)
    as [Hyc Hyf].
  destruct (In_Forall2_r _ _ _ _ Hall Hin) as (k0 & _ & He).
  apply savings_entry_nps in He as (pa & b & Hpa & Ha & Hb & Htb).
  pose proof (period_amount_nonneg _ _ _ _ Hvt Hpa) as Hpc.
  destruct (tax_benefit_sign yi pa b Hyc Hyf Hpc Hb) as (_ & Hbv & Hzero).
  split; [apply value_nonneg, (quantize_sign pa _ _ Hpc Ha)|].
  exists b. split; [exact Htb|]. split; [exact Hbv|].
  intros Hnil. rewrite Hnil in Hst. cbn in Hst. injection Hst as <-.
  cbn in Hpa. injection Hpa as <-. cbn in Ha. injection Ha as <-.
  split; [reflexivity|]. apply Hzero. reflexivity.
Qed.

Local Close Scope Q_scope.

End ReturnsSigns.

Lemma nps_amounts_nonneg_witness :
  exists resp,
    Sample.returns_nps Sample.request = Some resp
    /\ forall entry,
         In entry (savingsByDates resp) ->
         (0 <= Decimal.value (s_amount entry))%Q
         /\ exists benefit,
              taxBenefit entry = Some benefit
              /\ (0 <= Decimal.value benefit)%Q
              /\ (transactions Sample.request = [] ->
                  s_amount entry = Decimal.dec 0 2
                  /\ benefit = Decimal.dec 0 2).
Proof.
  destruct (Sample.returns_nps Sample.request) as [resp|] eqn:H;
    [|vm_compute in H; discriminate H].
  exists resp. split; [reflexivity|].
  apply (nps_amounts_nonneg Sample.parse_date Sample.float
           Sample.float_of_Decimal Sample.fadd Sample.fmul Sample.fdiv
           Sample.fpow Sample.Decimal_of_str Sample.request resp H).
  - vm_compute. congruence.
  - constructor.
  - constructor.
  - constructor; [vm_compute; congruence|constructor].
Defined.

(** ** The returns endpoints and the filter *)

Section FilterAndReturns.

Variable parse_date : string -> option datetime.
Variable float : Type.
Variable float_of_Decimal : Decimal -> float.
Variables fadd fmul : float -> float -> float.
Variable fdiv : float -> float -> option float.
Variable fpow : float -> Z -> option float.
Variable Decimal_of_str : float -> option Decimal.

Local Abbreviation returns :=
  (calculate_returns parse_date float_of_Decimal fadd fmul fdiv fpow
     Decimal_of_str).

Local Abbreviation entry_of :=
  (savings_entry float_of_Decimal fadd fmul fdiv fpow Decimal_of_str).

Local Abbreviation window ks ke :=
  (flat_map (fun '(dt, rem) => if between ks dt ke then [rem] else [])).

(** The returns loop collects what the filter writes into the
    transactions it accepts. *)
Lemma accept_all_resolved (pq : list parsed_q_rule) (pp : list parsed_p_rule)
    (ks ke : datetime) (l : list TransactionOutput) (st st' : accepted) :
  accept_all parse_date pq pp st l = Some st' ->
  exists v,
    mapM (resolved parse_date pq pp []) l = Some v
    /\ window ks ke (valid_txs st')
       = window ks ke (valid_txs st) ++ remanents_within parse_date ks ke v.
Proof.
  revert st. induction l as [|tx l IH]; intros st H; simpl in H.
  - injection H as <-. exists []. rewrite app_nil_r. split; reflexivity.
  - destruct (accept_step parse_date pq pp st tx) as [st1|] eqn:H1; simpl in H;
      [|discriminate].
    destruct (IH _ H) as (v & Hv & Hw).
    unfold accept_step in H1.
    destruct (parse_date (date tx)) as [dt|] eqn:Hd; simpl in H1;
      [|discriminate].
    destruct (process_transaction_rules_fast dt (remanent tx) pq pp)
      as [r|] eqn:Hr; simpl in H1; [|discriminate].
    destruct (Decimal.add (total_tx_amount st) _); simpl in H1; [|discriminate].
    destruct (Decimal.add (total_ceiling st) _); simpl in H1; [|discriminate].
    injection H1 as <-. simpl in Hw.
    exists (set_inkPeriod false (set_remanent r tx) :: v). split.
    + apply mapM_Some. constructor; [|apply mapM_Some; exact Hv].
      apply resolved_Some. exists dt, r. repeat split; assumption.
    + rewrite Hw, flat_map_app, <- app_assoc. f_equal.
      unfold remanents_within. simpl. rewrite Hd. rewrite app_nil_r.
      reflexivity.
Qed.

(** X15. The returns endpoints count what the filter reports: whenever
    there is a response, the filter answers on the same rules and
    transactions, and the amount of every K period is the sum of the
    remanents of the filter's valid transactions whose date lies in the
    period, rounded half-up to two places. *)
Theorem returns_counts_filtered (payload : ReturnsRequest) (rate : float)
    (is_nps : bool) (resp : ReturnsResponse) :
  returns payload rate is_nps = Some resp ->
  exists rf,
    filter_transactions parse_date (q payload) (p payload) []
      (transactions payload) = Some rf
    /\ Forall2 (fun k entry =>
                  exists k_start_dt k_end_dt period_amount,
                    parse_date (k_start k) = Some k_start_dt
                    /\ parse_date (k_end k) = Some k_end_dt
                    /\ sum_from (Decimal.dec 0 1)
                         (remanents_within parse_date k_start_dt k_end_dt
                            (valid rf))
                       = Some period_amount
                    /\ Decimal.quantize period_amount (-2)
                         Decimal.ROUND_HALF_UP = Some (s_amount entry))
               (k payload) (savingsByDates resp).
Proof.
  intros H.
  apply (calculate_returns_parts parse_date) in H
    as (pq & pp & pk & st & yi & Hpq & Hpp & Hpk & Hst & _ & Hall & _).
  destruct (accept_all_resolved pq pp 0 0 _ _ _ Hst) as (v & Hv & _).
  exists {| valid := v;
            invalid := invalid (validate_transactions (transactions payload)) |}.
  split.
  { rewrite (filter_transactions_mask parse_date _ _ [] _ pq pp [] Hpq Hpp
               eq_refl).
    rewrite Hv. reflexivity. }
  simpl. unfold parse_k_returns in Hpk. apply mapM_Some in Hpk.
  clear -Hpk Hall Hst Hv.
  revert Hall. generalize (savingsByDates resp).
  induction Hpk as [|kk x ks' pk' Hkx _ IH]; intros entries Hall.
  - apply Forall2_nil_inv_l in Hall as ->. constructor.
  - apply Forall2_cons_inv_l in Hall as (e & es & He & Hes & ->).
    constructor; [|apply IH; exact Hes].
    destruct (parse_date (k_start kk)) as [ks|]; simpl in Hkx; [|discriminate].
    destruct (parse_date (k_end kk)) as [ke|]; simpl in Hkx; [|discriminate].
    injection Hkx as <-.
    apply savings_entry_shows in He as (_ & _ & (pa & Hpa & Hq) & _).
    exists ks, ke, pa. do 2 (split; [reflexivity|]). split; [|exact Hq].
    destruct (accept_all_resolved pq pp ks ke _ _ _ Hst) as (v' & Hv' & Hw).
    rewrite Hv in Hv'. injection Hv' as <-.
    unfold period_amount_of in Hpa. rewrite Hw in Hpa. exact Hpa.
Qed.

End FilterAndReturns.

Lemma returns_counts_filtered_witness :
  exists resp rf,
    Sample.returns_nps Sample.request = Some resp
    /\ filter_transactions Sample.parse_date (q Sample.request)
         (p Sample.request) [] (transactions Sample.request) = Some rf
    /\ Forall2 (fun k entry =>
                  exists k_start_dt k_end_dt period_amount,
                    Sample.parse_date (k_start k) = Some k_start_dt
                    /\ Sample.parse_date (k_end k) = Some k_end_dt
                    /\ sum_from (Decimal.dec 0 1)
                         (remanents_within Sample.parse_date k_start_dt
                            k_end_dt (valid rf))
                       = Some period_amount
                    /\ Decimal.quantize period_amount (-2)
                         Decimal.ROUND_HALF_UP = Some (s_amount entry))
               (k Sample.request) (savingsByDates resp).
Proof.
  destruct (Sample.returns_nps Sample.request) as [resp|] eqn:H;
    [|vm_compute in H; discriminate H].
  destruct (returns_counts_filtered Sample.parse_date Sample.float
              Sample.float_of_Decimal Sample.fadd Sample.fmul Sample.fdiv
              Sample.fpow Sample.Decimal_of_str Sample.request _ true resp H)
    as (rf & Hrf & Hall).
  exists resp, rf. split; [reflexivity|]. split; assumption.
Defined.
